(** * cca.pytorch: SVCCA / PWCCA distances and the activation hook

    A shallow embedding of [cca/cca.py] (the package: modules [Cca], [Conv]
    and [Hook] below) and of [src/cca.py] (the older script: module
    [Legacy]), followed by the properties proved of them.

    Numbers.  A tensor entry is a value of [fval]: a rational, one of the two
    infinities, or NaN.  Every arithmetic operation returns its exact result
    rounded to float32 (to the nearest number of the format, ties to even,
    overflow to an infinity), and follows IEEE 754 on the special values, so
    that [0/0] is NaN and every comparison with NaN is false, as in torch.
    A sum adds its entries from left to right; [cumsum] accumulates in double
    precision.  Signed zeros are not modelled.

    torch.  [torch.svd] and [F.adaptive_avg_pool2d] are library code; they are
    taken as parameters ([svd], [adaptive_avg_pool2d]) of the definitions that
    call them, and what is assumed of [torch.svd] is stated where it is used.
    The elementwise operations, sums, products, slices and reshapes that the
    Python uses are written out.

    Exceptions.  A call returns [Ok v] or [Raise e]; [CCAHook.__init__]
    also returns the store of module objects, which it changes.

    [CCAHook.data], which draws a shuffled batch from a data loader, is not
    part of the embedding. *)

From Stdlib Require Import QArith Qcanon Qround.
From stdpp Require Import base numbers list strings gmap.

Local Open Scope Qc_scope.

(** ** Scalars *)

Module Float.

Inductive fval : Type :=
  | Fin (q : Qc)
  | PInf
  | NInf
  | NaN.

#[global] Instance fval_eq_dec : EqDecision fval.
Proof. solve_decision. Defined.

Definition is_fin (x : fval) : Prop :=
  match x with Fin _ => True | _ => False end.

(** *** Rounding

    A binary format: the number of bits of the significand, the exponent
    [bias] of its least positive number [2^-bias], and the exponent [emax]
    of the power of two at which it overflows. *)
Record format : Type := Format {
  prec : Z;
  bias : Z;
  emax : Z
}.

(** [torch.float32] and the double precision of Python's [float]. *)
Definition binary32 : format := Format 24 149 128.
Definition binary64 : format := Format 53 1074 1024.

(** The integer nearest to [x], the even one of the two when [x] is halfway
    between them. *)
Definition rne (x : Q) : Z :=
  let f := Qfloor x in
  match (x - inject_Z f ?= 1 # 2)%Q with
  | Lt => f
  | Gt => (f + 1)%Z
  | Eq => if Z.even f then f else (f + 1)%Z
  end.

(** The number of low bits that a scaled value [N >= 0] loses. *)
Definition shift (f : format) (N : Q) : Z :=
  Z.max 0 (Z.log2 (Qfloor N) - (prec f - 1)).

(** [N >= 0] rounded to an integer of at most [prec] significant bits. *)
Definition round_nat (f : format) (N : Q) : Z :=
  (rne (N / inject_Z (2 ^ shift f N)) * 2 ^ shift f N)%Z.

(** [q * 2^bias] rounded to such an integer, with the sign of [q]. *)
Definition round_int (f : format) (q : Q) : Z :=
  let S := inject_Z (2 ^ bias f) in
  if Qlt_le_dec q 0 then (- round_nat f (- q * S))%Z else round_nat f (q * S).

(** [q] rounded to the format: to the nearest of its numbers, to the one
    with the even significand when halfway, to an infinity from
    [2^emax * (1 - 2^-prec / 2)] on. *)
Definition round (f : format) (q : Qc) : fval :=
  let v := round_int f q in
  let top := (2 ^ (emax f + bias f))%Z in
  if decide (top <= v)%Z then PInf
  else if decide (v <= - top)%Z then NInf
  else Fin (Q2Qc (inject_Z v / inject_Z (2 ^ bias f))).

(** The format has a significand, its numbers start at [2^-bias], and it
    has room above them. *)
Definition proper_format (f : format) : Prop :=
  (1 <= prec f /\ 0 <= bias f /\ 0 <= emax f + bias f)%Z.

Definition f32 : Qc -> fval := round binary32.
Definition f64 : Qc -> fval := round binary64.

(** A Python [float] or a double accumulator converted to float32. *)
Definition cast32 (x : fval) : fval :=
  match x with
  | Fin q => f32 q
  | _ => x
  end.

(** *** Operations *)

(** An infinity whose sign follows the sign of [q]; NaN when [q] is zero. *)
Definition signed (q : Qc) (pos neg : fval) : fval :=
  if decide (0 < q) then pos else if decide (q < 0) then neg else NaN.

Definition fneg (x : fval) : fval :=
  match x with
  | Fin q => Fin (- q)
  | PInf => NInf
  | NInf => PInf
  | NaN => NaN
  end.

Definition Qcabs (q : Qc) : Qc := if decide (q < 0) then - q else q.

Definition fabs (x : fval) : fval :=
  match x with
  | Fin q => Fin (Qcabs q)
  | PInf | NInf => PInf
  | NaN => NaN
  end.

(** Addition whose result is rounded by [rnd]. *)
Definition add_with (rnd : Qc -> fval) (x y : fval) : fval :=
  match x, y with
  | NaN, _ | _, NaN => NaN
  | Fin a, Fin b => rnd (a + b)
  | PInf, NInf | NInf, PInf => NaN
  | PInf, _ | _, PInf => PInf
  | NInf, _ | _, NInf => NInf
  end.

Definition fadd : fval -> fval -> fval := add_with f32.

(** Addition in a double accumulator. *)
Definition fadd64 : fval -> fval -> fval := add_with f64.

Definition fsub (x y : fval) : fval := fadd x (fneg y).

Definition fmul (x y : fval) : fval :=
  match x, y with
  | NaN, _ | _, NaN => NaN
  | Fin a, Fin b => f32 (a * b)
  | Fin a, PInf | PInf, Fin a => signed a PInf NInf
  | Fin a, NInf | NInf, Fin a => signed a NInf PInf
  | PInf, PInf | NInf, NInf => PInf
  | PInf, NInf | NInf, PInf => NInf
  end.

Definition fdiv (x y : fval) : fval :=
  match x, y with
  | NaN, _ | _, NaN => NaN
  | Fin a, Fin b => if decide (b = 0) then signed a PInf NInf else f32 (a / b)
  | Fin _, (PInf | NInf) => Fin 0
  | PInf, Fin b => if decide (b < 0) then NInf else PInf
  | NInf, Fin b => if decide (b < 0) then PInf else NInf
  | (PInf | NInf), (PInf | NInf) => NaN
  end.

(** [x < y] as torch evaluates it: false as soon as one side is NaN. *)
Definition flt (x y : fval) : bool :=
  match x, y with
  | NaN, _ | _, NaN => false
  | Fin a, Fin b => bool_decide (a < b)
  | NInf, (Fin _ | PInf) => true
  | Fin _, PInf => true
  | _, _ => false
  end.

Definition fgt (x y : fval) : bool := flt y x.

(** The order of the numbers and the two infinities; NaN is not ordered. *)
Definition fle (x y : fval) : Prop :=
  match x, y with
  | NaN, _ | _, NaN => False
  | NInf, _ | _, PInf => True
  | Fin a, Fin b => a ≤ b
  | _, _ => False
  end.

(** A Python [int] that meets a float32 tensor. *)
Definition of_nat (n : nat) : fval := f32 (Qc_of_Z (Z.of_nat n)).

Definition fzero : fval := Fin 0.
Definition fone : fval := Fin 1.

(** [t.sum()] of a 1-D float32 tensor: the entries are added one after the
    other to an accumulator that starts at [0.]. *)
Definition fsum (l : list fval) : fval := foldl fadd fzero l.

(** [t.cumsum(dim=0)] of a 1-D float32 tensor: torch keeps the running sum
    in a double accumulator and stores each partial sum as a float32. *)
Fixpoint cumsum_from (acc : fval) (l : list fval) : list fval :=
  match l with
  | [] => []
  | x :: l' => let s := fadd64 acc x in cast32 s :: cumsum_from s l'
  end.

Definition cumsum (l : list fval) : list fval := cumsum_from fzero l.

(** [u @ v] of two 1-D tensors of one length. *)
Definition dot (u v : list fval) : fval := fsum (zip_with fmul u v).

End Float.

Export Float.

(** ** Exceptions *)

Inductive exn : Type :=
  | AssertionError
  | RuntimeError
  | NotImplementedError
  | NameError
  | TypeError
  | KeyError
  | ValueError
  | IndexError
  | AttributeError.

#[global] Instance exn_eq_dec : EqDecision exn.
Proof. solve_decision. Defined.

Inductive result (A : Type) : Type :=
  | Ok (a : A)
  | Raise (e : exn).

Arguments Ok {A} a.
Arguments Raise {A} e.

#[global] Instance result_eq_dec {A} `{EqDecision A} : EqDecision (result A).
Proof. solve_decision. Defined.

#[global] Instance result_ret : MRet result := fun _ a => Ok a.

#[global] Instance result_bind : MBind result := fun _ _ k m =>
  match m with
  | Ok a => k a
  | Raise e => Raise e
  end.

(** [assert c, ...] *)
Definition py_assert (c : bool) : result unit :=
  if c then Ok tt else Raise AssertionError.

(** [int(t)] of a 0-dim tensor: truncation toward zero; NaN and the
    infinities cannot be converted. *)
Definition py_int (x : fval) : result Z :=
  match x with
  | Fin q => Ok (Z.quot (Qnum (this q)) (Z.pos (Qden (this q))))
  | _ => Raise ValueError
  end.

(** ** 2-D tensors *)

Module Tensor.

(** A 2-D tensor keeps its shape next to its rows, so that an [n x 0] and a
    [0 x n] tensor are different values, as in torch. *)
Record matrix : Type := Matrix {
  nrows : nat;
  ncols : nat;
  mrows : list (list fval)
}.

#[global] Instance matrix_eq_dec : EqDecision matrix.
Proof. solve_decision. Defined.

(** The rows agree with the shape. *)
Definition wf (m : matrix) : Prop :=
  length (mrows m) = nrows m /\ Forall (fun r => length r = ncols m) (mrows m).

(** A row-major literal; the shape is read off the rows. *)
Definition of_rows (rows : list (list fval)) : matrix :=
  Matrix (length rows) (from_option length 0%nat (head rows)) rows.

(** Column [j] of the rows. *)
Definition column (j : nat) (rows : list (list fval)) : list fval :=
  map (fun r => nth j r fzero) rows.

Definition columns (m : matrix) : list (list fval) :=
  map (fun j => column j (mrows m)) (seq 0 (ncols m)).

(** [m.t()] *)
Definition transpose (m : matrix) : matrix :=
  Matrix (ncols m) (nrows m) (columns m).

(** The rows of [a @ b]: entry [(i, j)] is the product of row [i] of [a]
    and column [j] of [b]. *)
Definition matmul_rows (a b : matrix) : matrix :=
  Matrix (nrows a) (ncols b)
    (map (fun r => map (fun c => dot r c) (columns b)) (mrows a)).

(** [a @ b]; torch raises a RuntimeError when the inner sizes differ. *)
Definition matmul (a b : matrix) : result matrix :=
  if decide (ncols a = nrows b) then Ok (matmul_rows a b) else Raise RuntimeError.

(** The stop index of the slice [:k] on an axis of length [n]. *)
Definition slice_stop (k : Z) (n : nat) : nat :=
  if decide (k < 0)%Z then Z.to_nat (Z.of_nat n + k) else Nat.min (Z.to_nat k) n.

(** [m[:, :k]] *)
Definition slice_cols (k : Z) (m : matrix) : matrix :=
  let k' := slice_stop k (ncols m) in
  Matrix (nrows m) k' (map (take k') (mrows m)).

(** [s.diag()] of a 1-D tensor. *)
Definition diag_matrix (s : list fval) : matrix :=
  let n := length s in
  Matrix n n
    (imap (fun i x => map (fun j => if decide (i = j) then x else fzero) (seq 0 n)) s).

(** [s.reciprocal()] *)
Definition reciprocal (s : list fval) : list fval := map (fdiv fone) s.

(** [s.abs()] *)
Definition vabs (s : list fval) : list fval := map fabs s.

(** [s / c] for a 0-dim tensor or a number [c]. *)
Definition vdiv (s : list fval) (c : fval) : list fval := map (fun x => fdiv x c) s.

(** [m.abs()] *)
Definition mabs (m : matrix) : matrix :=
  Matrix (nrows m) (ncols m) (map (map fabs) (mrows m)).

(** [m.sum(dim=0)]: one sum per column. *)
Definition sum_dim0 (m : matrix) : list fval := map fsum (columns m).

(** [m.mean(dim=dim, keepdim=True)] for the two axes of a 2-D tensor: the
    sums divided by the length of the reduced axis. *)
Definition mean_keepdim (m : matrix) (dim : Z) : result matrix :=
  if decide (dim = 0 \/ dim = -2)%Z then
    Ok (Matrix 1 (ncols m)
          [map (fun c => fdiv (fsum c) (of_nat (nrows m))) (columns m)])
  else if decide (dim = 1 \/ dim = -1)%Z then
    Ok (Matrix (nrows m) 1
          (map (fun r => [fdiv (fsum r) (of_nat (ncols m))]) (mrows m)))
  else Raise IndexError.

(** [a - b] where [b] has one row or one column and is broadcast over [a]. *)
Definition sub_broadcast (a b : matrix) : result matrix :=
  if decide (nrows b = 1%nat /\ ncols b = ncols a) then
    Ok (Matrix (nrows a) (ncols a)
          (map (fun r => zip_with fsub r (from_option id [] (head (mrows b))))
               (mrows a)))
  else if decide (ncols b = 1%nat /\ nrows b = nrows a) then
    Ok (Matrix (nrows a) (ncols a)
          (zip_with (fun r c => map (fun x => fsub x (nth 0 c fzero)) r)
                    (mrows a) (mrows b)))
  else Raise RuntimeError.

(** [u @ v] of two 1-D tensors; the lengths must agree. *)
Definition vdot (u v : list fval) : result fval :=
  if decide (length u = length v) then Ok (dot u v) else Raise RuntimeError.

End Tensor.

Export Tensor.

(** What [torch.svd] returns: [(U, S, V)], or an exception. *)
Definition svd_fn : Type := matrix -> result (matrix * list fval * matrix).

(** ** cca/cca.py *)

Module Cca.

Section WithSvd.

Variable svd : svd_fn.

(** The number that [torch.where(ratio < accept_rate, ones, zeros).sum()]
    evaluates to.  [accept_rate] is a Python [float]; torch compares in the
    type of the tensor, float32. *)
Definition where_sum (ratio : list fval) (accept_rate : fval) : fval :=
  fsum (map (fun r => if flt r (cast32 accept_rate) then fone else fzero) ratio).

(** [diag.abs().cumsum(dim=0) / full] *)
Definition energy_ratio (diag : list fval) : list fval :=
  let full := fsum (vabs diag) in
  vdiv (cumsum (vabs diag)) full.

(** [lft] and [rgt] are the source's [left] and [right]. *)
Definition svd_reduction (tensor : matrix) (accept_rate : fval) : result matrix :=
  '(lft, diag, rgt) ← svd tensor;
  let ratio := energy_ratio diag in
  let num := where_sum ratio accept_rate in
  k ← py_int num;
  matmul tensor (slice_cols k rgt).

(** The default [accept_rate=0.99], a Python [float]. *)
Definition default_accept_rate : fval := f64 (Q2Qc (99 # 100)).

Definition zero_mean (tensor : matrix) (dim : Z) : result matrix :=
  m ← mean_keepdim tensor dim;
  sub_broadcast tensor m.

Definition _svd_cca (x y : matrix) : result (matrix * matrix * list fval) :=
  '(u_1, s_1, v_1) ← svd x;
  '(u_2, s_2, v_2) ← svd y;
  uu ← matmul (transpose u_1) u_2;
  '(u, diag, v) ← svd uu;
  a ← (t ← matmul v_1 (diag_matrix (reciprocal s_1)); matmul t u);
  b ← (t ← matmul v_2 (diag_matrix (reciprocal s_2)); matmul t v);
  Ok (a, b, diag).

Definition _cca (x y : matrix) (method : string)
  : result (matrix * matrix * list fval) :=
  _ ← py_assert (bool_decide (nrows x = nrows y));
  _ ← py_assert (bool_decide (ncols x <= nrows x)%nat
                 && bool_decide (ncols y <= nrows y)%nat);
  _ ← py_assert (bool_decide (method = "svd" \/ method = "qr"));
  x ← zero_mean x 0;
  y ← zero_mean y 0;
  _svd_cca x y.

Definition svcca_distance (x y : matrix) (method : string) : result fval :=
  x ← svd_reduction x default_accept_rate;
  y ← svd_reduction y default_accept_rate;
  let div := Nat.min (ncols x) (ncols y) in
  '(a, b, diag) ← _cca x y method;
  Ok (fsub fone (fdiv (fsum diag) (of_nat div))).

Definition pwcca_distance (x y : matrix) (method : string) : result fval :=
  '(a, b, diag) ← _cca x y method;
  xa ← matmul x a;
  let alpha := sum_dim0 (mabs xa) in
  let alpha := vdiv alpha (fsum alpha) in
  d ← vdot alpha diag;
  Ok (fsub fone d).

End WithSvd.

End Cca.

(** ** src/cca.py *)

Module Legacy.

Section WithSvd.

Variable svd : svd_fn.

Definition svd_reduction (tensor : matrix) (accept_rate : fval) : result matrix :=
  '(lft, diag, rgt) ← svd tensor;
  let full := fsum (vabs diag) in
  let ratio := vdiv (cumsum (vabs diag)) full in
  let num := fsum (map (fun r => if flt r (cast32 accept_rate) then fone else fzero)
                       ratio) in
  k ← py_int num;
  matmul tensor (slice_cols k rgt).

Definition zero_mean (tensor : matrix) (dim : Z) : result matrix :=
  m ← mean_keepdim tensor dim;
  sub_broadcast tensor m.

Definition _qr_cca (x y : matrix) : result (matrix * matrix * list fval) :=
  Raise NotImplementedError.

Definition _svd_cca (x y : matrix) : result (matrix * matrix * list fval) :=
  '(u_1, s_1, v_1) ← svd x;
  '(u_2, s_2, v_2) ← svd y;
  uu ← matmul (transpose u_1) u_2;
  '(u, diag, v) ← svd uu;
  a ← (t ← matmul v_1 (diag_matrix (reciprocal s_1)); matmul t u);
  b ← (t ← matmul v_2 (diag_matrix (reciprocal s_2)); matmul t v);
  Ok (a, b, diag).

Definition cca (x y : matrix) (method : string)
  : result (matrix * matrix * list fval) :=
  _ ← py_assert (bool_decide (nrows x = nrows y));
  _ ← py_assert (bool_decide (method = "svd" \/ method = "qr"));
  x ← zero_mean x 0;
  y ← zero_mean y 0;
  if decide (method = "svd") then _svd_cca x y else _qr_cca x y.

(** [(diag > 0).sum().item()] *)
Definition count_positive (diag : list fval) : nat :=
  length (filter (fun d => fgt d fzero = true) diag).

Definition svcca_distance (x y : matrix) (method : string) : result fval :=
  x ← svd_reduction x Cca.default_accept_rate;
  y ← svd_reduction y Cca.default_accept_rate;
  '(a, b, diag) ← cca x y method;
  Ok (fsub fone (fdiv (fsum diag) (of_nat (count_positive diag)))).

(** The [print(pw.shape)] of the source writes to standard output and is
    left out. *)
Definition pwcca_distance (x y : matrix) (method : string) : result fval :=
  '(a, b, diag) ← cca x y method;
  xa ← matmul x a;
  let pw := sum_dim0 (mabs xa) in
  let pw := vdiv pw (fsum pw) in
  d ← vdot pw diag;
  Ok (fsub fone d).

End WithSvd.

End Legacy.

(** ** cca/cca.py: feature maps of convolutions *)

Module Conv.

(** A 4-D tensor [(batch, channel, height, width)] with its shape. *)
Record tensor4 : Type := Tensor4 {
  dim_b : nat;
  dim_c : nat;
  dim_h : nat;
  dim_w : nat;
  t4data : list (list (list (list fval)))
}.

Definition shape (t : tensor4) : list nat := [dim_b t; dim_c t; dim_h t; dim_w t].

Definition numel (t : tensor4) : nat := (dim_b t * dim_c t * dim_h t * dim_w t)%nat.

(** Python's [>] on pairs of ints: the first components decide unless they
    are equal. *)
Definition tuple_gt (p q : Z * Z) : bool :=
  if decide (p.1 = q.1) then bool_decide (p.2 > q.2)%Z else bool_decide (p.1 > q.1)%Z.

(** [tensor.reshape(b, c, -1).permute(2, 0, 1)], as the sequence of its
    [b x c] slices along the first axis.  Entry [(p, i, j)] of the result is
    entry [(i * c + j) * l + p] of the row-major data, [l] being the size
    that [-1] stands for; [reshape] raises when [-1] has no value. *)
Definition reshape_permute (b c : nat) (t : tensor4) : result (list matrix) :=
  let flat := concat (concat (concat (t4data t))) in
  if decide (b * c = 0 \/ numel t mod (b * c) <> 0)%nat then Raise RuntimeError
  else
    let l := (numel t / (b * c))%nat in
    Ok (map (fun p =>
               Matrix b c
                 (map (fun i => map (fun j => nth ((i * c + j) * l + p) flat fzero)
                                    (seq 0 c))
                      (seq 0 b)))
            (seq 0 l)).

Section WithPool.

(** [F.adaptive_avg_pool2d(tensor, size)] *)
Variable adaptive_avg_pool2d : tensor4 -> Z -> result tensor4.

Definition _conv2d_reshape (tensor : tensor4) (size : option Z)
  : result (list matrix) :=
  let b := dim_b tensor in
  let c := dim_c tensor in
  let h := dim_h tensor in
  let w := dim_w tensor in
  tensor ← match size with
           | Some size =>
               if tuple_gt (size, size) (Z.of_nat h, Z.of_nat w)
               then Raise RuntimeError
               else adaptive_avg_pool2d tensor size
           | None => Ok tensor
           end;
  reshape_permute b c tensor.

Definition _conv2d (tensor1 tensor2 : tensor4)
    (cca_function : matrix -> matrix -> result fval) (size : option Z)
  : result fval :=
  if decide (shape tensor1 <> shape tensor2) then Raise RuntimeError
  else
    tensor1 ← _conv2d_reshape tensor1 size;
    tensor2 ← _conv2d_reshape tensor2 size;
    ds ← mapM (fun p => cca_function p.1 p.2) (zip tensor1 tensor2);
    Ok (fdiv (fsum ds) (of_nat (length ds))).

End WithPool.

End Conv.

(** ** cca/cca.py: [CCAHook] *)

Module Hook.

(** The class of a module, as [type(m)] reports it. *)
Inductive module_kind : Type :=
  | Conv2d
  | Linear
  | OtherModule (cls : string).

#[global] Instance module_kind_eq_dec : EqDecision module_kind.
Proof. solve_decision. Defined.

(** A module object: its identity and its class. *)
Record module_ref : Type := ModuleRef {
  ref_id : nat;
  ref_kind : module_kind
}.

(** What [model.named_modules()] yields. *)
Definition nn_model : Type := list (string * module_ref).

Section WithTensor.

(** The tensors that layers output, and the distance functions a hook can
    hold: both are opaque to the hook. *)
Variable tensor : Type.
Variable cca_fn : Type.
Variable svcca_distance pwcca_distance : cca_fn.

(** The mutable part of a module object: the attributes that hooks set on it
    ([None] is Python's [None]) and the keys of its registered forward hooks,
    in registration order. *)
Record module_state : Type := ModuleState {
  m_attrs : gmap string (option tensor);
  m_hooks : list string
}.

#[global] Instance module_state_inhabited : Inhabited module_state :=
  populate (ModuleState ∅ []).

(** The store of module objects, shared by every hook on a model. *)
Local Abbreviation heap := (gmap nat module_state).

Definition setattr (st : heap) (m : module_ref) (key : string)
    (value : option tensor) : heap :=
  let o := st !!! ref_id m in
  <[ref_id m := ModuleState (<[key := value]> (m_attrs o)) (m_hooks o)]> st.

Definition getattr (st : heap) (m : module_ref) (key : string)
  : result (option tensor) :=
  match m_attrs (st !!! ref_id m) !! key with
  | Some value => Ok value
  | None => Raise AttributeError
  end.

(** [module.register_forward_hook(hook)] for the closure
    [hook(module, _, output): setattr(module, key, output)], which is
    determined by [key]. *)
Definition register_forward_hook (st : heap) (m : module_ref) (key : string) : heap :=
  let o := st !!! ref_id m in
  <[ref_id m := ModuleState (m_attrs o) (m_hooks o ++ [key])]> st.

(** A forward pass through module [m] that outputs [output]: torch calls the
    registered hooks in order. *)
Definition forward (st : heap) (m : module_ref) (output : tensor) : heap :=
  foldl (fun st key => setattr st m key (Some output)) st
        (m_hooks (st !!! ref_id m)).

(** [{n: m for n, m in self.model.named_modules()}] *)
Definition named_dict (model : nn_model) : gmap string module_ref :=
  foldl (fun d p => <[p.1 := p.2]> d) ∅ model.

Definition _supported_modules : list module_kind := [Conv2d; Linear].

Definition _cca_distance_function : gmap string cca_fn :=
  <["pwcca" := pwcca_distance]> (<["svcca" := svcca_distance]> ∅).

(** The argument [cca_distance: str or function]. *)
Inductive cca_arg : Type :=
  | ByName (s : string)
  | ByFunction (f : cca_fn).

Record CCAHook : Type := MkCCAHook {
  model : nn_model;
  name : string;
  _module : module_ref;
  _key : string;
  _cca_distance : cca_fn;
  _cpu : bool
}.

(** [CCAHook.__init__].  The store is returned next to the outcome: what was
    set on the module before an exception stays set.
    [torch.set_num_threads] changes no value of the model and is left out;
    [cuda_available] is [torch.cuda.is_available()]. *)
Definition __init__ (st : heap) (model : nn_model) (name : string)
    (cca_distance : cca_arg) (svd_cpu : bool) (cuda_available : bool)
  : heap * result CCAHook :=
  let _dict := named_dict model in
  match _dict !! name with
  | None => (st, Raise NameError)
  | Some m =>
      if bool_decide (ref_kind m ∉ _supported_modules) then (st, Raise TypeError)
      else
        let _key := "_" +:+ name +:+ "_hooked_value" in
        let st := setattr st m _key None in
        let st := register_forward_hook st m _key in
        let mk f := MkCCAHook model name m _key f (svd_cpu && cuda_available) in
        match cca_distance with
        | ByName s =>
            match _cca_distance_function !! s with
            | Some f => (st, Ok (mk f))
            | None => (st, Raise KeyError)
            end
        | ByFunction f => (st, Ok (mk f))
        end
  end.

(** The default [cca_distance=pwcca_distance]. *)
Definition default_cca_distance : cca_arg := ByFunction pwcca_distance.

Definition clear (st : heap) (self : CCAHook) : heap :=
  setattr st (_module self) (_key self) None.

Definition _get_hooked_value (st : heap) (self : CCAHook) : result tensor :=
  value ← getattr st (_module self) (_key self);
  match value with
  | None => Raise RuntimeError
  | Some value => Ok value
  end.

(** What happens to the store once [self] is attached: forward passes
    through modules, and calls of [self.clear()]. *)
Inductive event : Type :=
  | Forward (m : module_ref) (output : tensor)
  | Clear.

Definition step (self : CCAHook) (st : heap) (e : event) : heap :=
  match e with
  | Forward m output => forward st m output
  | Clear => clear st self
  end.

Definition run (st : heap) (self : CCAHook) (events : list event) : heap :=
  foldl (step self) st events.

(** The capture slot as the specification describes it: one of two states,
    rewritten by every forward pass through the hooked layer and emptied by
    [clear]; reading it fails when it is empty. *)
Inductive slot : Type :=
  | Empty
  | Populated (value : tensor).

Definition slot_step (self : CCAHook) (s : slot) (e : event) : slot :=
  match e with
  | Forward m output =>
      if decide (ref_id m = ref_id (_module self)) then Populated output else s
  | Clear => Empty
  end.

Definition slot_after (self : CCAHook) (events : list event) : slot :=
  foldl (slot_step self) Empty events.

Definition retrieve (s : slot) : result tensor :=
  match s with
  | Empty => Raise RuntimeError
  | Populated value => Ok value
  end.

(** The store holds slot [s] for [self]: the hook is registered on the module
    and the attribute is [None] or the captured tensor. *)
Definition slot_holds (st : heap) (self : CCAHook) (s : slot) : Prop :=
  _key self ∈ m_hooks (st !!! ref_id (_module self)) /\
  m_attrs (st !!! ref_id (_module self)) !! _key self
  = Some (match s with Empty => None | Populated value => Some value end).

End WithTensor.

Abbreviation heap tensor := (gmap nat (module_state tensor)).

Arguments setattr {tensor} st m key value.
Arguments getattr {tensor} st m key.
Arguments register_forward_hook {tensor} st m key.
Arguments forward {tensor} st m output.
Arguments __init__ {tensor cca_fn} svcca_distance pwcca_distance st model name
  cca_distance svd_cpu cuda_available.
Arguments default_cca_distance {cca_fn} pwcca_distance.
Arguments clear {tensor cca_fn} st self.
Arguments _get_hooked_value {tensor cca_fn} st self.
Arguments Forward {tensor} m output.
Arguments Clear {tensor}.
Arguments step {tensor cca_fn} self st e.
Arguments run {tensor cca_fn} st self events.
Arguments Empty {tensor}.
Arguments Populated {tensor} value.
Arguments slot_step {tensor cca_fn} self s e.
Arguments slot_after {tensor cca_fn} self events.
Arguments retrieve {tensor} s.
Arguments slot_holds {tensor cca_fn} st self s.
Arguments ByName {cca_fn} s.
Arguments ByFunction {cca_fn} f.
Arguments m_attrs {tensor} m.
Arguments m_hooks {tensor} m.
Arguments ModuleState {tensor} m_attrs m_hooks.
Arguments _module {cca_fn} c.
Arguments _key {cca_fn} c.
Arguments MkCCAHook {cca_fn} model name _module _key _cca_distance _cpu.

End Hook.

(** ** What is assumed of [torch.svd]

    For an [n x m] input, [torch.svd] (with its default [some=True]) returns
    [U] of shape [n x k], [S] of length [k] and [V] of shape [m x k], where
    [k = min(n, m)]. *)

Definition svd_shape (x : matrix) (usv : matrix * list fval * matrix) : Prop :=
  let k := Nat.min (nrows x) (ncols x) in
  wf usv.1.1 /\ nrows usv.1.1 = nrows x /\ ncols usv.1.1 = k /\
  length usv.1.2 = k /\
  wf usv.2 /\ nrows usv.2 = ncols x /\ ncols usv.2 = k.

#[global] Instance svd_shape_dec x usv : Decision (svd_shape x usv).
Proof. unfold svd_shape, wf. apply _. Defined.

(** The [k x k] identity. *)
Definition identity (k : nat) : matrix := diag_matrix (replicate k fone).

Definition svd_contract (svd : svd_fn) : Prop :=
  forall x u s v, svd x = Ok (u, s, v) -> svd_shape x (u, s, v).

(** The columns of [U] are orthonormal: [U^T U] is the identity. *)
Definition orthonormal (u : matrix) : Prop :=
  matmul (transpose u) u = Ok (identity (ncols u)).

Definition svd_orthonormal (svd : svd_fn) : Prop :=
  forall x u s v, svd x = Ok (u, s, v) -> orthonormal u.

(** The singular values of an identity matrix are all [1]. *)
Definition unit_on_identity (x : matrix) (s : list fval) : Prop :=
  x = identity (nrows x) -> s = replicate (nrows x) fone.

Definition svd_unit_on_identity (svd : svd_fn) : Prop :=
  forall x u s v, svd x = Ok (u, s, v) -> unit_on_identity x s.

(** A feature matrix [samples x features] with at least as many samples as
    features. *)
Definition valid (x : matrix) : Prop := wf x /\ (ncols x <= nrows x)%nat.

(** The running total of the first [i + 1] entries of a float32 tensor, as
    [cumsum] holds it: added up in double precision, then stored as
    float32. *)
Definition prefix_sum (l : list fval) (i : nat) : fval :=
  cast32 (foldl fadd64 fzero (take (S i) l)).

(** The cumulative energy ratio of the specification: entry [i] is the total
    of the first [i + 1] absolute singular values over the total of all of
    them. *)
Definition cumulative_ratio (s : list fval) : list fval :=
  map (fun i => fdiv (prefix_sum (vabs s) i) (fsum (vabs s))) (seq 0 (length s)).

(** The number of entries of the cumulative ratio that are strictly below
    [accept_rate]. *)
Definition retained (s : list fval) (accept_rate : fval) : nat :=
  length (filter (fun r => flt r (cast32 accept_rate) = true) (cumulative_ratio s)).

(** A number that is not negative, or plus infinity. *)
Definition nonneg (x : fval) : Prop := fle fzero x.

(** What a running sum of absolute values is: plus infinity, or a number of
    the format that [rnd] rounds to and that is not negative. *)
Definition running (rnd : Qc -> fval) (x : fval) : Prop :=
  x = PInf \/ exists q, x = Fin q /\ 0 ≤ q /\ rnd q = Fin q.

(** A float32 tensor cannot count further than [2^24]: a feature matrix has
    at most that many columns. *)
Definition countable (n : nat) : Prop := (Z.of_nat n <= 2 ^ 24)%Z.

(** What a float32 sum of [n] ones comes to: it stops at [2^24]. *)
Definition counted (n : nat) : Z := Z.min (Z.of_nat n) (2 ^ 24).

(** ** Worked inputs

    A decomposition oracle given by a finite table of exact decompositions;
    it raises on any other input, and on an entry that is not as assumed of
    [torch.svd]. *)

Module Examples.

Definition rat (n : Z) (d : positive) : fval := Fin (Q2Qc (n # d)).
Definition int (n : Z) : fval := rat n 1.

Fixpoint assoc (x : matrix) (tbl : list (matrix * (matrix * list fval * matrix)))
  : option (matrix * list fval * matrix) :=
  match tbl with
  | [] => None
  | (k, r) :: tbl' => if decide (x = k) then Some r else assoc x tbl'
  end.

Definition table_svd (tbl : list (matrix * (matrix * list fval * matrix))) : svd_fn :=
  fun x =>
    match assoc x tbl with
    | Some r =>
        if decide (svd_shape x r /\ orthonormal r.1.1 /\ unit_on_identity x r.1.2)
        then Ok r else Raise RuntimeError
    | None => Raise RuntimeError
    end.

Definition h : fval := rat 1 2.
Definition mh : fval := rat (-1) 2.

Definition x4 : matrix :=
  of_rows [[int 2; int 1]; [int 2; int (-1)]; [int (-2); int 1]; [int (-2); int (-1)]].
Definition u4 : matrix := of_rows [[h; h]; [h; mh]; [mh; h]; [mh; mh]].
Definition y5 : matrix :=
  of_rows [[int 1; int 2]; [int 1; int (-2)]; [int (-1); int 2]; [int (-1); int (-2)]].
Definition u5 : matrix := of_rows [[h; h]; [mh; h]; [h; mh]; [mh; mh]].
Definition i1 : matrix := of_rows [[int 1]].
Definition i2 : matrix := of_rows [[int 1; int 0]; [int 0; int 1]].
Definition p2 : matrix := of_rows [[int 0; int 1]; [int 1; int 0]].
Definition z1 : matrix := of_rows [[int 0]].
Definition xr : matrix := of_rows [[int 2]; [int 2]; [int (-2)]; [int (-2)]].
Definition yr : matrix := of_rows [[int 2]; [int (-2)]; [int 2]; [int (-2)]].
Definition u1col : matrix := of_rows [[h]; [h]; [mh]; [mh]].
Definition u2col : matrix := of_rows [[h]; [mh]; [h]; [mh]].
Definition c4 : matrix := of_rows [[int 1]; [int 1]; [int 1]; [int 1]].
Definition zc : matrix := of_rows [[int 0]; [int 0]; [int 0]; [int 0]].
Definition e1col : matrix := of_rows [[int 1]; [int 0]; [int 0]; [int 0]].
Definition e40 : matrix := Matrix 4 0 [[]; []; []; []].
Definition e00 : matrix := Matrix 0 0 [].

(** [x4 = u4 diag(4, 2) i2^T], [y5 = u5 diag(4, 2) p2^T], and so on. *)
Definition tbl : list (matrix * (matrix * list fval * matrix)) :=
  [ (x4, (u4, [int 4; int 2], i2));
    (y5, (u5, [int 4; int 2], p2));
    (xr, (u1col, [int 4], i1));
    (yr, (u2col, [int 4], i1));
    (i1, (i1, [int 1], i1));
    (i2, (i2, [int 1; int 1], i2));
    (z1, (i1, [int 0], i1));
    (zc, (e1col, [int 0], i1));
    (e40, (e40, [], e00));
    (e00, (e00, [], e00)) ].

Definition svd : svd_fn := table_svd tbl.

(** A matrix with more features than samples, [wide = wide_u diag(4, 2, 1, 1)
    wide_v^T], and the table extended with what its SVCCA distance needs. *)
Definition wide : matrix :=
  of_rows [[int 2; int 1; h; h; int 0];
           [int 2; int (-1); mh; h; int 0];
           [int (-2); int 1; mh; h; int 0];
           [int (-2); int (-1); h; h; int 0]].
Definition wide_u : matrix :=
  of_rows [[h; h; h; h]; [h; mh; mh; h]; [mh; h; mh; h]; [mh; mh; h; h]].
Definition wide_v : matrix :=
  of_rows [[int 1; int 0; int 0; int 0];
           [int 0; int 1; int 0; int 0];
           [int 0; int 0; int 1; int 0];
           [int 0; int 0; int 0; int 1];
           [int 0; int 0; int 0; int 0]].
Definition wide_r : matrix :=
  of_rows [[int 2; int 1; h]; [int 2; int (-1); mh];
           [int (-2); int 1; mh]; [int (-2); int (-1); h]].
Definition wide_ru : matrix :=
  of_rows [[h; h; h]; [h; mh; mh]; [mh; h; mh]; [mh; mh; h]].
Definition i3 : matrix :=
  of_rows [[int 1; int 0; int 0]; [int 0; int 1; int 0]; [int 0; int 0; int 1]].

Definition tbl_wide : list (matrix * (matrix * list fval * matrix)) :=
  tbl ++ [ (wide, (wide_u, [int 4; int 2; int 1; int 1], wide_v));
           (wide_r, (wide_ru, [int 4; int 2; int 1], i3));
           (i3, (i3, [int 1; int 1; int 1], i3)) ].

Definition svd_wide : svd_fn := table_svd tbl_wide.

(** A diagonal matrix whose singular values add up differently in a float32
    sum and in [cumsum]: [d3 = i3 diag(4194305, 3.330078125, 2.275390625)
    i3^T]. *)
Definition s3 : list fval := [int 4194305; rat 1705 512; rat 1165 512].
Definition d3 : matrix := diag_matrix s3.

(** A diagonal matrix with the float32 numbers nearest to [0.99] and
    [0.01]: the first cumulative ratio is the float32 [0.99] itself. *)
Definition s99 : list fval := [f32 (Q2Qc (99 # 100)); f32 (Q2Qc (1 # 100))].
Definition d99 : matrix := diag_matrix s99.

Definition svd_round : svd_fn :=
  table_svd [ (d3, (i3, s3, i3)); (d99, (i2, s99, i2)) ].

(** A model with four named modules, the two distances a hook can be given,
    and a hook on the layer ["fc"]. *)
Definition net : Hook.nn_model :=
  [ ("", Hook.ModuleRef 0 (Hook.OtherModule "Net"));
    ("conv1", Hook.ModuleRef 1 Hook.Conv2d);
    ("relu", Hook.ModuleRef 2 (Hook.OtherModule "ReLU"));
    ("fc", Hook.ModuleRef 3 Hook.Linear) ].

Definition distance_fn : Type := matrix -> matrix -> result fval.
Definition svcca : distance_fn := fun x y => Cca.svcca_distance svd x y "svd".
Definition pwcca : distance_fn := fun x y => Cca.pwcca_distance svd x y "svd".

Definition fc_hook : Hook.CCAHook distance_fn :=
  Hook.MkCCAHook net "fc" (Hook.ModuleRef 3 Hook.Linear) "_fc_hooked_value"
    pwcca false.

(** A second hook on ["fc"], and one on ["conv1"]. *)
Definition fc_hook_sv : Hook.CCAHook distance_fn :=
  Hook.MkCCAHook net "fc" (Hook.ModuleRef 3 Hook.Linear) "_fc_hooked_value"
    svcca false.

Definition conv_hook : Hook.CCAHook distance_fn :=
  Hook.MkCCAHook net "conv1" (Hook.ModuleRef 1 Hook.Conv2d) "_conv1_hooked_value"
    pwcca false.

(** A feature map [(batch, channel, height, width) = (1, 1, 10, 3)]. *)
Definition t_10x3 : Conv.tensor4 :=
  Conv.Tensor4 1 1 10 3 [[replicate 10 (replicate 3 (int 1))]].

End Examples.
(** ** cca/cca.py: [CCAHook.distance]

    The hooked tensors are taken to be 2-D or 4-D, which is what [Linear]
    and [Conv2d] output on the inputs of the docstring. *)

Module HookDistance.

Inductive tensor : Type :=
  | T2 (m : matrix)
  | T4 (t : Conv.tensor4).

(** [tensor.dim()] *)
Definition dim (t : tensor) : nat :=
  match t with
  | T2 _ => 2
  | T4 _ => 4
  end.

(** [tensor.shape] *)
Definition tshape (t : tensor) : list nat :=
  match t with
  | T2 m => [nrows m; ncols m]
  | T4 t => Conv.shape t
  end.

(** A distance function as a hook holds it: called on two hooked tensors. *)
Definition cca_fn : Type := tensor -> tensor -> result fval.

Section WithPool.

Variable adaptive_avg_pool2d : Conv.tensor4 -> Z -> result Conv.tensor4.

(** [_conv2d] on hooked tensors.  On 2-D tensors of one shape the unpacking
    [b, c, h, w = tensor.shape] of [_conv2d_reshape] raises a ValueError; the
    slices that [cca_function] receives are 2-D. *)
Definition _conv2d (tensor1 tensor2 : tensor) (cca_function : cca_fn)
    (size : option Z) : result fval :=
  if decide (tshape tensor1 <> tshape tensor2) then Raise RuntimeError
  else
    match tensor1, tensor2 with
    | T4 t1, T4 t2 =>
        Conv._conv2d adaptive_avg_pool2d t1 t2
          (fun x y => cca_function (T2 x) (T2 y)) size
    | _, _ => Raise ValueError
    end.

(** [CCAHook.distance]; [.to("cpu")] and [.item()] change no value.  A
    module that is neither [Linear] nor [Conv2d] falls through both branches
    and the method returns [None]. *)
Definition distance (st : Hook.heap tensor) (self other : Hook.CCAHook cca_fn)
    (size : option Z) : result (option fval) :=
  tensor1 ← Hook._get_hooked_value st self;
  tensor2 ← Hook._get_hooked_value st other;
  if decide (dim tensor1 <> dim tensor2) then Raise RuntimeError
  else
    match Hook.ref_kind (Hook._module self) with
    | Hook.Linear =>
        d ← Hook._cca_distance _ self tensor1 tensor2; Ok (Some d)
    | Hook.Conv2d =>
        d ← _conv2d tensor1 tensor2 (Hook._cca_distance _ self) size; Ok (Some d)
    | Hook.OtherModule _ => Ok None
    end.

End WithPool.

End HookDistance.

(** ** Further notions used by the properties *)

(** Every entry is a number. *)
Definition finite (m : matrix) : Prop := Forall (Forall is_fin) (mrows m).

(** The column means that [zero_mean(tensor, dim=0)] subtracts. *)
Definition col_means (x : matrix) : list fval :=
  map (fun c => fdiv (fsum c) (of_nat (nrows x))) (columns x).

(** What [zero_mean(x, dim=0)] returns. *)
Definition centred (x : matrix) : matrix :=
  Matrix (nrows x) (ncols x)
    (map (fun r => zip_with fsub r (col_means x)) (mrows x)).

(** The key under which a hook named [name] stores what it captures. *)
Definition hook_key (name : string) : string := "_" +:+ name +:+ "_hooked_value".

(** What [__init__] leaves in the store once the name and the class of the
    module have been accepted. *)
Definition attached {tensor : Type} (st : Hook.heap tensor) (m : Hook.module_ref)
    (name : string) : Hook.heap tensor :=
  Hook.register_forward_hook (Hook.setattr st m (hook_key name) None) m
    (hook_key name).

(** The nested lists of a 4-D tensor agree with its shape. *)
Definition wf4 (t : Conv.tensor4) : Prop :=
  length (Conv.t4data t) = Conv.dim_b t /\
  Forall (fun img =>
    length img = Conv.dim_c t /\
    Forall (fun ch =>
      length ch = Conv.dim_h t /\
      Forall (fun row => length row = Conv.dim_w t) ch) img) (Conv.t4data t).

(** Entry [(i, j, r, q)] of a 4-D tensor, when it exists. *)
Definition entry4 (t : Conv.tensor4) (i j r q : nat) : option fval :=
  match Conv.t4data t !! i with
  | Some img =>
      match img !! j with
      | Some ch =>
          match ch !! r with
          | Some row => row !! q
          | None => None
          end
      | None => None
      end
  | None => None
  end.

(** Entry [(i, j)] of a matrix, when it exists. *)
Definition entry (m : matrix) (i j : nat) : option fval :=
  match mrows m !! i with
  | Some row => row !! j
  | None => None
  end.

(** A number between [0] and [1]. *)
Definition in_unit (x : fval) : Prop := exists q, x = Fin q /\ 0 ≤ q /\ q ≤ 1.

(** ** More worked inputs *)

Module DistanceExamples.

Import HookDistance.

(** The distance that is [0] between equal matrices and [1] otherwise. *)
Definition discrete (x y : matrix) : result fval :=
  if decide (x = y) then Ok fzero else Ok fone.

#[global] Instance tensor4_eq_dec : EqDecision Conv.tensor4.
Proof. solve_decision. Defined.

(** The same on hooked tensors. *)
Definition discrete_t : cca_fn :=
  fun t1 t2 =>
    match t1, t2 with
    | T2 x, T2 y => discrete x y
    | T4 x, T4 y => if decide (x = y) then Ok fzero else Ok fone
    | _, _ => Ok fone
    end.

(** A model with two dense layers and two convolutions. *)
Definition net : Hook.nn_model :=
  [ ("", Hook.ModuleRef 0 (Hook.OtherModule "Net"));
    ("conv1", Hook.ModuleRef 1 Hook.Conv2d);
    ("conv2", Hook.ModuleRef 2 Hook.Conv2d);
    ("fc1", Hook.ModuleRef 3 Hook.Linear);
    ("fc2", Hook.ModuleRef 4 Hook.Linear) ].

Definition hook_on (name : string) (m : Hook.module_ref) : Hook.CCAHook cca_fn :=
  Hook.MkCCAHook net name m (hook_key name) discrete_t false.

Definition fc1 : Hook.CCAHook cca_fn := hook_on "fc1" (Hook.ModuleRef 3 Hook.Linear).
Definition fc2 : Hook.CCAHook cca_fn := hook_on "fc2" (Hook.ModuleRef 4 Hook.Linear).
Definition conv1 : Hook.CCAHook cca_fn := hook_on "conv1" (Hook.ModuleRef 1 Hook.Conv2d).
Definition conv2 : Hook.CCAHook cca_fn := hook_on "conv2" (Hook.ModuleRef 2 Hook.Conv2d).

(** [CCAHook(net, name, cca_distance=discrete_t, svd_cpu=False)] *)
Definition attach (st : Hook.heap tensor) (name : string)
  : Hook.heap tensor * result (Hook.CCAHook cca_fn) :=
  Hook.__init__ discrete_t discrete_t st net name (Hook.ByFunction discrete_t)
    false false.

(** The store after both dense layers have been hooked. *)
Definition st_fc : Hook.heap tensor := (attach (attach ∅ "fc1").1 "fc2").1.

(** The store after both convolutions have been hooked. *)
Definition st_conv : Hook.heap tensor := (attach (attach ∅ "conv1").1 "conv2").1.

(** Two [1 x 1 x 2 x 2] feature maps that differ at the last location. *)
Definition t_a : Conv.tensor4 :=
  Conv.Tensor4 1 1 2 2 [[[[fone; fone]; [fone; fone]]]].
Definition t_b : Conv.tensor4 :=
  Conv.Tensor4 1 1 2 2 [[[[fone; fone]; [fone; fzero]]]].

(** Pooling left out: the feature map is returned as it is. *)
Definition no_pool (t : Conv.tensor4) (size : Z) : result Conv.tensor4 := Ok t.

End DistanceExamples.

(** * Properties *)

(** ** Rounding *)

Section RoundingProps.

Local Open Scope Z_scope.

Lemma rne_floor_le x : (Qfloor x <= rne x)%Z.
Proof. unfold rne. cbn zeta. destruct (_ ?= _)%Q; [destruct (Z.even _)|..]; lia. Qed.

Lemma rne_le_floor_succ x : (rne x <= Qfloor x + 1)%Z.
Proof. unfold rne. cbn zeta. destruct (_ ?= _)%Q; [destruct (Z.even _)|..]; lia. Qed.

Lemma rne_comp x y : (x == y)%Q -> rne x = rne y.
Proof.
  intros H. unfold rne. cbn zeta. rewrite (Qfloor_comp _ _ H).
  assert ((x - inject_Z (Qfloor y) ?= 1 # 2) = (y - inject_Z (Qfloor y) ?= 1 # 2))%Q as ->.
  { apply Qcompare_comp; [|reflexivity]. by rewrite H. }
  done.
Qed.

Lemma rne_mono x y : (x <= y)%Q -> (rne x <= rne y)%Z.
Proof.
  intros Hxy. pose proof (Qfloor_resp_le _ _ Hxy) as Hf.
  destruct (decide (Qfloor x = Qfloor y)) as [He|Hne].
  - unfold rne. cbn zeta. rewrite He.
    destruct (y - inject_Z (Qfloor y) ?= 1 # 2)%Q eqn:Hy;
      destruct (x - inject_Z (Qfloor y) ?= 1 # 2)%Q eqn:Hx;
      try (destruct (Z.even (Qfloor y)); lia); try lia; exfalso.
    + apply Qeq_alt in Hy. apply Qgt_alt in Hx.
      apply (Qlt_not_le _ _ Hx). rewrite <-Hy.
      apply Qplus_le_l. exact Hxy.
    + apply Qlt_alt in Hy. apply Qeq_alt in Hx.
      apply (Qlt_not_le _ _ Hy). rewrite <-Hx.
      apply Qplus_le_l. exact Hxy.
    + apply Qlt_alt in Hy. apply Qgt_alt in Hx.
      apply (Qlt_not_le (y - inject_Z (Qfloor y)) (x - inject_Z (Qfloor y))).
      * by eapply Qlt_trans.
      * apply Qplus_le_l. exact Hxy.
  - pose proof (rne_le_floor_succ x). pose proof (rne_floor_le y). lia.
Qed.

Lemma rne_Z z : rne (inject_Z z) = z.
Proof.
  unfold rne. cbn zeta. rewrite Qfloor_Z.
  assert ((inject_Z z - inject_Z z ?= 1 # 2) = Lt)%Q as ->; [|done].
  apply (proj1 (Qlt_alt _ _)). unfold Qlt, Qminus, Qplus, Qopp, inject_Z. simpl. lia.
Qed.

(** *** A nonnegative scaled value *)

Lemma inject_Z_pow_pos e : (0 <= e)%Z -> (0 < inject_Z (2 ^ e))%Q.
Proof.
  intros He. change 0%Q with (inject_Z 0). rewrite <-Zlt_Qlt.
  by apply Z.pow_pos_nonneg.
Qed.

Lemma Qfloor_nonneg N : (0 <= N)%Q -> (0 <= Qfloor N)%Z.
Proof. intros H. apply (Qfloor_resp_le 0 N) in H. exact H. Qed.

Lemma shift_nonneg f N : (0 <= shift f N)%Z.
Proof. unfold shift. lia. Qed.

Lemma shift_le_log f N : (1 <= prec f)%Z -> (shift f N <= Z.log2 (Qfloor N))%Z.
Proof. intros Hp. unfold shift. pose proof (Z.log2_nonneg (Qfloor N)). lia. Qed.

(** [N] lies below the power of two after its binade. *)
Lemma below_next_binade N :
  (0 <= N)%Q -> (N <= inject_Z (2 ^ (Z.log2 (Qfloor N) + 1)))%Q.
Proof.
  intros HN. pose proof (Qfloor_nonneg N HN) as HF.
  apply Qlt_le_weak. eapply Qlt_le_trans; [apply Qlt_floor|].
  rewrite <-Zle_Qle.
  destruct (decide (Qfloor N = 0)) as [->|Hne]; [done|].
  pose proof (Z.log2_spec (Qfloor N)). rewrite Z.add_1_r. lia.
Qed.

Lemma above_binade N :
  (1 <= Qfloor N)%Z -> (inject_Z (2 ^ Z.log2 (Qfloor N)) <= N)%Q.
Proof.
  intros HF. eapply Qle_trans; [|apply Qfloor_le].
  rewrite <-Zle_Qle. pose proof (Z.log2_spec (Qfloor N)). lia.
Qed.

Lemma round_nat_upper f N :
  (1 <= prec f)%Z -> (0 <= N)%Q ->
  (round_nat f N <= 2 ^ (Z.log2 (Qfloor N) + 1))%Z.
Proof.
  intros Hp HN. unfold round_nat.
  pose proof (shift_nonneg f N) as Hs. pose proof (shift_le_log f N Hp) as Hsl.
  set (t := Z.log2 (Qfloor N)) in *. set (sh := shift f N) in *.
  assert (2 ^ (t + 1) = 2 ^ (t + 1 - sh) * 2 ^ sh)%Z as ->.
  { rewrite <-Z.pow_add_r by lia. f_equal. lia. }
  apply Z.mul_le_mono_nonneg_r; [apply Z.pow_nonneg; lia|].
  rewrite <-(rne_Z (2 ^ (t + 1 - sh))). apply rne_mono.
  apply Qle_shift_div_r; [by apply inject_Z_pow_pos|].
  rewrite <-inject_Z_mult, <-Z.pow_add_r by lia.
  replace (t + 1 - sh + sh)%Z with (t + 1)%Z by lia.
  by apply below_next_binade.
Qed.

Lemma round_nat_lower f N :
  (1 <= prec f)%Z -> (1 <= Qfloor N)%Z ->
  (2 ^ Z.log2 (Qfloor N) <= round_nat f N)%Z.
Proof.
  intros Hp HF. unfold round_nat.
  pose proof (shift_nonneg f N) as Hs. pose proof (shift_le_log f N Hp) as Hsl.
  set (t := Z.log2 (Qfloor N)) in *. set (sh := shift f N) in *.
  assert (2 ^ t = 2 ^ (t - sh) * 2 ^ sh)%Z as ->.
  { rewrite <-Z.pow_add_r by lia. f_equal. lia. }
  apply Z.mul_le_mono_nonneg_r; [apply Z.pow_nonneg; lia|].
  rewrite <-(rne_Z (2 ^ (t - sh))). apply rne_mono.
  apply Qle_shift_div_l; [by apply inject_Z_pow_pos|].
  rewrite <-inject_Z_mult, <-Z.pow_add_r by lia.
  replace (t - sh + sh)%Z with t by lia.
  by apply above_binade.
Qed.

Lemma round_nat_mono f N1 N2 :
  (1 <= prec f)%Z -> (0 <= N1)%Q -> (N1 <= N2)%Q ->
  (round_nat f N1 <= round_nat f N2)%Z.
Proof.
  intros Hp H1 H12.
  assert (0 <= N2)%Q as H2 by by eapply Qle_trans.
  pose proof (Qfloor_resp_le _ _ H12) as HF.
  pose proof (Qfloor_nonneg _ H1) as HF1.
  pose proof (Z.log2_le_mono _ _ HF) as Ht.
  destruct (decide (shift f N1 = shift f N2)) as [He|Hne].
  - unfold round_nat. rewrite He.
    apply Z.mul_le_mono_nonneg_r; [apply Z.pow_nonneg; lia|].
    apply rne_mono. apply Qmult_le_compat_r; [done|].
    apply Qlt_le_weak, Qinv_lt_0_compat, inject_Z_pow_pos, shift_nonneg.
  - assert (Z.log2 (Qfloor N1) + 1 <= Z.log2 (Qfloor N2))%Z as Hlt
      by (unfold shift in Hne; lia).
    pose proof (round_nat_upper f N1 Hp H1) as Hu.
    assert (1 <= Qfloor N2)%Z as HF2.
    { destruct (decide (1 <= Qfloor N2)%Z) as [|Hn]; [done|].
      assert (Qfloor N2 = 0) as H0 by lia.
      pose proof (Z.log2_nonneg (Qfloor N1)). rewrite H0 in Hlt. cbn in Hlt. lia. }
    pose proof (round_nat_lower f N2 Hp HF2) as Hl.
    assert (2 ^ (Z.log2 (Qfloor N1) + 1) <= 2 ^ Z.log2 (Qfloor N2))%Z
      by (apply Z.pow_le_mono_r; lia).
    lia.
Qed.

Lemma round_nat_comp f N1 N2 : (N1 == N2)%Q -> round_nat f N1 = round_nat f N2.
Proof.
  intros H. unfold round_nat, shift. rewrite (Qfloor_comp _ _ H).
  f_equal. apply rne_comp. by rewrite H.
Qed.

(** A value with at most [prec] significant bits is not changed. *)
Lemma round_nat_exact f M s :
  (1 <= prec f)%Z -> (0 <= M < 2 ^ prec f)%Z -> (0 <= s)%Z ->
  round_nat f (inject_Z (M * 2 ^ s)) = (M * 2 ^ s)%Z.
Proof.
  intros Hp HM Hs. unfold round_nat.
  assert (shift f (inject_Z (M * 2 ^ s)) <= s /\ 0 <= shift f (inject_Z (M * 2 ^ s)))%Z
    as [Hsh Hsh0].
  { unfold shift. rewrite Qfloor_Z.
    destruct (decide (M = 0)) as [->|Hne]; [rewrite Z.mul_0_l; cbn; lia|].
    rewrite Z.log2_mul_pow2 by lia.
    assert (Z.log2 M < prec f)%Z by (apply Z.log2_lt_pow2; lia). lia. }
  set (sh := shift f (inject_Z (M * 2 ^ s))) in *.
  assert (M * 2 ^ s = M * 2 ^ (s - sh) * 2 ^ sh)%Z as HK.
  { rewrite <-Z.mul_assoc, <-Z.pow_add_r by lia. do 2 f_equal. lia. }
  rewrite HK at 1. rewrite (rne_comp _ (inject_Z (M * 2 ^ (s - sh)))).
  - rewrite rne_Z. lia.
  - rewrite inject_Z_mult. field.
    intros H0. pose proof (inject_Z_pow_pos sh Hsh0) as Hpos.
    rewrite H0 in Hpos. by apply Qlt_irrefl in Hpos.
Qed.

Lemma round_nat_0 f : (1 <= prec f)%Z -> round_nat f 0 = 0%Z.
Proof.
  intros Hp. apply (round_nat_exact f 0 0 Hp); [|done].
  split; [done|]. apply Z.pow_pos_nonneg; lia.
Qed.

Lemma round_nat_nonneg f N : (1 <= prec f)%Z -> (0 <= N)%Q -> (0 <= round_nat f N)%Z.
Proof.
  intros Hp HN. rewrite <-(round_nat_0 f Hp). by apply round_nat_mono.
Qed.

(** What rounding returns has at most [prec] significant bits. *)
Lemma round_nat_idem f N :
  (1 <= prec f)%Z -> (0 <= N)%Q ->
  round_nat f (inject_Z (round_nat f N)) = round_nat f N.
Proof.
  intros Hp HN.
  pose proof (shift_nonneg f N) as Hs.
  assert (0 <= rne (N / inject_Z (2 ^ shift f N)) <= 2 ^ prec f)%Z as [Hm0 Hm].
  { split.
    - rewrite <-(rne_Z 0). apply rne_mono.
      apply Qle_shift_div_l; [by apply inject_Z_pow_pos|].
      by rewrite Qmult_0_l.
    - pose proof (round_nat_upper f N Hp HN) as Hu. unfold round_nat in Hu.
      pose proof (Z.log2_nonneg (Qfloor N)) as Ht.
      assert (Z.log2 (Qfloor N) + 1 <= prec f + shift f N)%Z as Hle
        by (unfold shift; lia).
      assert (2 ^ (Z.log2 (Qfloor N) + 1) <= 2 ^ prec f * 2 ^ shift f N)%Z as Hpw.
      { rewrite <-Z.pow_add_r by lia. apply Z.pow_le_mono_r; lia. }
      assert (0 < 2 ^ shift f N)%Z by (apply Z.pow_pos_nonneg; lia).
      nia. }
  set (m := rne (N / inject_Z (2 ^ shift f N))) in *.
  assert (round_nat f N = m * 2 ^ shift f N) as -> by reflexivity.
  destruct (decide (m = 2 ^ prec f)%Z) as [->|Hne].
  - assert (2 ^ prec f * 2 ^ shift f N = 2 ^ (prec f - 1) * 2 ^ (shift f N + 1))%Z as ->.
    { rewrite <-!Z.pow_add_r by lia. f_equal. lia. }
    apply round_nat_exact; [done| |lia].
    split; [apply Z.pow_nonneg; lia|]. apply Z.pow_lt_mono_r; lia.
  - apply round_nat_exact; [done|lia|done].
Qed.

(** *** A rational *)

Lemma round_int_mono f q1 q2 :
  (1 <= prec f) -> (0 <= bias f) -> (q1 <= q2)%Q -> round_int f q1 <= round_int f q2.
Proof.
  intros Hp Hb Hq. unfold round_int. cbn zeta.
  pose proof (inject_Z_pow_pos (bias f) Hb) as HS.
  set (S := inject_Z (2 ^ bias f)) in *.
  assert (0 <= S)%Q as HS0 by by apply Qlt_le_weak.
  destruct (Qlt_le_dec q1 0) as [H1|H1], (Qlt_le_dec q2 0) as [H2|H2].
  - apply Z.opp_le_mono. rewrite !Z.opp_involutive. apply round_nat_mono; [done| |].
    + apply Qmult_le_0_compat; [|done].
      apply Qlt_le_weak in H2. apply Qopp_le_compat in H2. exact H2.
    + apply Qmult_le_compat_r; [|done]. by apply Qopp_le_compat.
  - assert (0 <= round_nat f (- q1 * S)).
    { apply round_nat_nonneg; [done|]. apply Qmult_le_0_compat; [|done].
      apply Qlt_le_weak in H1. apply Qopp_le_compat in H1. exact H1. }
    assert (0 <= round_nat f (q2 * S)).
    { apply round_nat_nonneg; [done|]. by apply Qmult_le_0_compat. }
    lia.
  - exfalso. apply (Qlt_not_le _ _ H2). by eapply Qle_trans.
  - apply round_nat_mono; [done| |].
    + by apply Qmult_le_0_compat.
    + by apply Qmult_le_compat_r.
Qed.

Lemma round_int_comp f q1 q2 : (q1 == q2)%Q -> round_int f q1 = round_int f q2.
Proof.
  intros H. unfold round_int. cbn zeta.
  destruct (Qlt_le_dec q1 0) as [H1|H1], (Qlt_le_dec q2 0) as [H2|H2].
  - f_equal. apply round_nat_comp. by rewrite H.
  - exfalso. rewrite H in H1. by apply (Qlt_not_le _ _ H1).
  - exfalso. rewrite <-H in H2. by apply (Qlt_not_le _ _ H2).
  - apply round_nat_comp. by rewrite H.
Qed.

Lemma fle_refl x : x <> NaN -> fle x x.
Proof. destruct x; cbn; try done. Qed.

Lemma Q2Qc_le (a b : Q) : (a <= b)%Q -> (Q2Qc a ≤ Q2Qc b)%Qc.
Proof. intros H. unfold Qcle. cbn. by rewrite !Qred_correct. Qed.

(** Rounding is monotone. *)
Lemma round_mono f (q1 q2 : Qc) :
  proper_format f -> (q1 ≤ q2)%Qc -> fle (round f q1) (round f q2).
Proof.
  intros (Hp & Hb & He) Hq. unfold round. cbn zeta.
  pose proof (round_int_mono f q1 q2 Hp Hb Hq) as Hv.
  pose proof (inject_Z_pow_pos (bias f) Hb) as HS.
  assert (0 < 2 ^ (emax f + bias f)) as Htop by (apply Z.pow_pos_nonneg; lia).
  repeat case_decide; cbn; try done; try lia.
  apply Q2Qc_le. apply Qmult_le_compat_r.
  - by rewrite <-Zle_Qle.
  - by apply Qlt_le_weak, Qinv_lt_0_compat.
Qed.

Lemma scaled_back (v b : Z) :
  0 <= b -> (inject_Z v / inject_Z (2 ^ b) * inject_Z (2 ^ b) == inject_Z v)%Q.
Proof.
  intros Hb. field. intros H0. pose proof (inject_Z_pow_pos b Hb) as Hpos.
  rewrite H0 in Hpos. by apply Qlt_irrefl in Hpos.
Qed.

Lemma round_int_of_scaled f (v : Z) :
  (1 <= prec f) -> (0 <= bias f) ->
  round_int f (inject_Z v / inject_Z (2 ^ bias f))
  = if decide (v < 0) then - round_nat f (inject_Z (- v)) else round_nat f (inject_Z v).
Proof.
  intros Hp Hb. unfold round_int. cbn zeta.
  pose proof (inject_Z_pow_pos (bias f) Hb) as HS.
  pose proof (scaled_back v (bias f) Hb) as Hback.
  set (S := inject_Z (2 ^ bias f)) in *.
  destruct (Qlt_le_dec (inject_Z v / S) 0) as [H|H].
  - assert (v < 0) as Hv.
    { rewrite Zlt_Qlt, <-Hback. change (inject_Z 0) with 0%Q.
      rewrite <-(Qmult_0_l S). by apply Qmult_lt_compat_r. }
    rewrite decide_True by done. f_equal. apply round_nat_comp.
    rewrite inject_Z_opp.
    assert (- (inject_Z v / S) * S == - (inject_Z v / S * S))%Q as -> by ring.
    by rewrite Hback.
  - assert (0 <= v) as Hv.
    { rewrite Zle_Qle, <-Hback. change (inject_Z 0) with 0%Q.
      apply Qmult_le_0_compat; [done|by apply Qlt_le_weak]. }
    rewrite decide_False by lia. by apply round_nat_comp.
Qed.

Lemma round_int_this f (q : Qc) v :
  (0 <= bias f) -> (this q * inject_Z (2 ^ bias f) == inject_Z v)%Q ->
  round_int f q = round_int f (inject_Z v / inject_Z (2 ^ bias f)).
Proof.
  intros Hb H. apply round_int_comp. rewrite <-H. field.
  intros H0. pose proof (inject_Z_pow_pos (bias f) Hb) as Hpos.
  rewrite H0 in Hpos. by apply Qlt_irrefl in Hpos.
Qed.

Lemma Q2Qc_scaled (q : Qc) v b :
  0 <= b -> (this q * inject_Z (2 ^ b) == inject_Z v)%Q ->
  Q2Qc (inject_Z v / inject_Z (2 ^ b)) = q.
Proof.
  intros Hb H. apply Qc_is_canon. cbn. rewrite Qred_correct, <-H. field.
  intros H0. pose proof (inject_Z_pow_pos b Hb) as Hpos.
  rewrite H0 in Hpos. by apply Qlt_irrefl in Hpos.
Qed.

(** A number [v / 2^bias] whose numerator has at most [prec] significant
    bits and is below the overflow threshold is not changed by rounding. *)
Lemma round_exact f (q : Qc) (v M s : Z) :
  proper_format f -> (0 <= M < 2 ^ prec f) -> (0 <= s) ->
  Z.abs v = M * 2 ^ s -> Z.abs v < 2 ^ (emax f + bias f) ->
  (this q * inject_Z (2 ^ bias f) == inject_Z v)%Q ->
  round f q = Fin q.
Proof.
  intros (Hp & Hb & He) HM Hs Hv Htop Hq. unfold round. cbn zeta.
  rewrite (round_int_this f q v Hb Hq), round_int_of_scaled by done.
  assert ((if decide (v < 0) then - round_nat f (inject_Z (- v))
           else round_nat f (inject_Z v)) = v) as ->.
  { case_decide.
    - replace (- v) with (M * 2 ^ s) by lia. rewrite round_nat_exact by done. lia.
    - replace v with (M * 2 ^ s) at 1 by lia. rewrite round_nat_exact by done. lia. }
  rewrite decide_False by lia. rewrite decide_False by lia.
  f_equal. by apply Q2Qc_scaled.
Qed.

(** Integers of at most [prec] bits are numbers of the format. *)
Lemma round_Z f (n : Z) :
  proper_format f -> Z.abs n <= 2 ^ prec f -> prec f < emax f ->
  round f (Qc_of_Z n) = Fin (Qc_of_Z n).
Proof.
  intros Hf Hn He. pose proof Hf as (Hp & Hb & _).
  assert (this (Qc_of_Z n) * inject_Z (2 ^ bias f) == inject_Z (n * 2 ^ bias f))%Q as Hq.
  { change (this (Qc_of_Z n)) with (inject_Z n). by rewrite inject_Z_mult. }
  assert (0 < 2 ^ bias f) as Hpb by (apply Z.pow_pos_nonneg; lia).
  assert (Z.abs (n * 2 ^ bias f) < 2 ^ (emax f + bias f)) as Htop.
  { rewrite Z.abs_mul, (Z.abs_eq (2 ^ bias f)) by lia.
    rewrite Z.pow_add_r by lia.
    apply Z.mul_lt_mono_pos_r; [done|].
    eapply Z.le_lt_trans; [exact Hn|]. apply Z.pow_lt_mono_r; lia. }
  destruct (decide (Z.abs n = 2 ^ prec f)) as [Heq|Hne].
  - apply (round_exact f _ (n * 2 ^ bias f) (2 ^ (prec f - 1)) (bias f + 1));
      [done| |lia| |done..].
    + split; [apply Z.pow_nonneg; lia|]. apply Z.pow_lt_mono_r; lia.
    + rewrite Z.abs_mul, (Z.abs_eq (2 ^ bias f)), Heq by lia.
      rewrite <-!Z.pow_add_r by lia. f_equal. lia.
  - apply (round_exact f _ (n * 2 ^ bias f) (Z.abs n) (bias f)); [done|lia|done| |done..].
    rewrite Z.abs_mul, (Z.abs_eq (2 ^ bias f)) by lia. done.
Qed.

Lemma round_int_idem f (q : Q) :
  (1 <= prec f) -> (0 <= bias f) ->
  round_int f (inject_Z (round_int f q) / inject_Z (2 ^ bias f)) = round_int f q.
Proof.
  intros Hp Hb. rewrite round_int_of_scaled by done.
  pose proof (inject_Z_pow_pos (bias f) Hb) as HS.
  unfold round_int. cbn zeta.
  destruct (Qlt_le_dec q 0) as [H|H].
  - assert (0 <= - q * inject_Z (2 ^ bias f))%Q as HN.
    { apply Qmult_le_0_compat; [|by apply Qlt_le_weak].
      apply Qlt_le_weak in H. apply Qopp_le_compat in H. exact H. }
    pose proof (round_nat_nonneg f _ Hp HN) as Hr.
    case_decide.
    + rewrite Z.opp_involutive. by rewrite round_nat_idem.
    + assert (round_nat f (- q * inject_Z (2 ^ bias f)) = 0) as -> by lia.
      cbn. by apply round_nat_0.
  - assert (0 <= q * inject_Z (2 ^ bias f))%Q as HN
      by (apply Qmult_le_0_compat; [done|by apply Qlt_le_weak]).
    pose proof (round_nat_nonneg f _ Hp HN) as Hr.
    rewrite decide_False by lia. by apply round_nat_idem.
Qed.

(** What rounding returns is a number of the format. *)
Lemma round_idem f (q q' : Qc) :
  proper_format f -> round f q = Fin q' -> round f q' = Fin q'.
Proof.
  intros (Hp & Hb & He). unfold round at 1. cbn zeta.
  repeat case_decide; try done. intros [= <-].
  unfold round. cbn zeta.
  assert (round_int f (Q2Qc (inject_Z (round_int f q) / inject_Z (2 ^ bias f)))
          = round_int f q) as ->.
  { rewrite <-(round_int_idem f q Hp Hb) at 2. apply round_int_comp.
    cbn. apply Qred_correct. }
  rewrite !decide_False by done. done.
Qed.

End RoundingProps.

(** ** Arithmetic on [fval] *)

Lemma proper_binary32 : proper_format binary32.
Proof. unfold proper_format. cbn. lia. Qed.

Lemma proper_binary64 : proper_format binary64.
Proof. unfold proper_format. cbn. lia. Qed.

Lemma f32_mono (q1 q2 : Qc) : q1 ≤ q2 -> fle (f32 q1) (f32 q2).
Proof. apply round_mono, proper_binary32. Qed.

Lemma f64_mono (q1 q2 : Qc) : q1 ≤ q2 -> fle (f64 q1) (f64 q2).
Proof. apply round_mono, proper_binary64. Qed.

Lemma f32_idem (q q' : Qc) : f32 q = Fin q' -> f32 q' = Fin q'.
Proof. apply round_idem, proper_binary32. Qed.

Lemma f64_idem (q q' : Qc) : f64 q = Fin q' -> f64 q' = Fin q'.
Proof. apply round_idem, proper_binary64. Qed.

(** The integers up to [2^24] are float32 numbers. *)
Lemma f32_Z (n : Z) : (Z.abs n <= 2 ^ 24)%Z -> f32 (Qc_of_Z n) = Fin (Qc_of_Z n).
Proof. intros Hn. apply round_Z; [apply proper_binary32|done|done]. Qed.

Lemma f64_Z (n : Z) : (Z.abs n <= 2 ^ 53)%Z -> f64 (Qc_of_Z n) = Fin (Qc_of_Z n).
Proof. intros Hn. apply round_Z; [apply proper_binary64|done|done]. Qed.

Lemma f32_0 : f32 0 = fzero.
Proof. unfold fzero. rewrite <-Z2Qc_inj_0. by apply f32_Z. Qed.

Lemma f32_1 : f32 1 = fone.
Proof. unfold fone. rewrite <-Z2Qc_inj_1. by apply f32_Z. Qed.

Lemma f64_0 : f64 0 = fzero.
Proof. unfold fzero. rewrite <-Z2Qc_inj_0. by apply f64_Z. Qed.

(** [2^24 + 1] is halfway between two float32 numbers and goes to the even
    one, [2^24]. *)
Lemma f32_saturated : f32 (Qc_of_Z (2 ^ 24 + 1)) = Fin (Qc_of_Z (2 ^ 24)).
Proof. apply (bool_decide_eq_true_1 _). vm_compute. reflexivity. Qed.

Lemma fle_trans x y z : fle x y -> fle y z -> fle x z.
Proof.
  destruct x, y, z; cbn; try done. intros. by etrans.
Qed.

Lemma fle_between x (a b : Qc) :
  fle (Fin a) x -> fle x (Fin b) -> exists q, x = Fin q /\ a ≤ q /\ q ≤ b.
Proof. destruct x as [q| | |]; cbn; try done. intros. by exists q. Qed.

(** A result between two float32 numbers is a number between them. *)
Lemma f32_between (q a b : Qc) :
  f32 a = Fin a -> f32 b = Fin b -> a ≤ q -> q ≤ b ->
  exists q', f32 q = Fin q' /\ a ≤ q' /\ q' ≤ b.
Proof.
  intros Ha Hb Haq Hqb. apply fle_between.
  - rewrite <-Ha. by apply f32_mono.
  - rewrite <-Hb. by apply f32_mono.
Qed.

Lemma of_nat_0 : of_nat 0 = fzero.
Proof. unfold of_nat. change (Z.of_nat 0) with 0%Z. by rewrite Z2Qc_inj_0, f32_0. Qed.

Lemma of_nat_small n :
  (Z.of_nat n <= 2 ^ 24)%Z -> of_nat n = Fin (Qc_of_Z (Z.of_nat n)).
Proof. intros Hn. apply f32_Z. lia. Qed.

Lemma py_int_Z n : py_int (Fin (Qc_of_Z n)) = Ok n.
Proof. unfold py_int; cbn. by rewrite Z.quot_1_r. Qed.

Lemma slice_stop_of_nat k n : slice_stop (Z.of_nat k) n = Nat.min k n.
Proof. unfold slice_stop. case_decide; [lia|]. by rewrite Nat2Z.id. Qed.

Lemma fadd_Fin (a b : Qc) : fadd (Fin a) (Fin b) = f32 (a + b).
Proof. reflexivity. Qed.

(** *** Counting with float32 ones

    A sum of ones and zeros counts the ones, up to [2^24], where adding one
    more changes nothing. *)
Lemma fsum_indicator_from (P : fval -> bool) (l : list fval) (j : Z) :
  (0 <= j <= 2 ^ 24)%Z ->
  foldl fadd (Fin (Qc_of_Z j)) (map (fun r => if P r then fone else fzero) l)
  = Fin (Qc_of_Z (Z.min (j + Z.of_nat (length (filter (fun r => P r = true) l)))
                        (2 ^ 24))).
Proof.
  revert j. induction l as [|x l IH]; intros j Hj.
  - cbn [map foldl]. rewrite filter_nil. cbn [length]. do 2 f_equal. lia.
  - cbn [map foldl]. rewrite filter_cons. destruct (P x) eqn:Hx.
    + rewrite decide_True by done. cbn [length].
      change (fadd (Fin (Qc_of_Z j)) fone) with (f32 (Qc_of_Z j + 1)).
      rewrite <-Z2Qc_inj_1, <-Z2Qc_inj_add.
      destruct (decide (j = 2 ^ 24)%Z) as [->|Hne].
      * rewrite f32_saturated, IH by lia. do 2 f_equal. lia.
      * rewrite f32_Z, IH by lia. do 2 f_equal. lia.
    + rewrite decide_False by done.
      change (fadd (Fin (Qc_of_Z j)) fzero) with (f32 (Qc_of_Z j + 0)).
      rewrite Qcplus_0_r, f32_Z, IH by lia.
      done.
Qed.

Lemma where_sum_count ratio rate :
  Cca.where_sum ratio rate
  = Fin (Qc_of_Z (Z.min (Z.of_nat (length (filter (fun r => flt r (cast32 rate) = true)
                                                  ratio)))
                        (2 ^ 24))).
Proof.
  pose proof (fsum_indicator_from (fun r => flt r (cast32 rate)) ratio 0) as H.
  rewrite Z2Qc_inj_0, Z.add_0_l in H. apply H. lia.
Qed.

Lemma round_not_nan f q : round f q <> NaN.
Proof. unfold round. cbn zeta. by repeat case_decide. Qed.

Lemma fle_PInf x : x <> NaN -> fle x PInf.
Proof. by destruct x. Qed.

Lemma cast32_mono x y : fle x y -> fle (cast32 x) (cast32 y).
Proof.
  destruct x as [a| | |], y as [b| | |]; cbn; try done.
  - apply f32_mono.
  - intros _. apply fle_PInf, round_not_nan.
  - intros _. pose proof (round_not_nan binary32 b).
    unfold f32. by destruct (round binary32 b).
Qed.

Lemma flt_fle_r r a b : fle a b -> flt r a = true -> flt r b = true.
Proof.
  destruct r, a, b; cbn; try done.
  rewrite !bool_decide_eq_true. intros. by eapply Qclt_le_trans.
Qed.

Lemma flt_fle_l a b t : fle a b -> flt b t = true -> flt a t = true.
Proof.
  destruct a, b, t; cbn; try done.
  rewrite !bool_decide_eq_true. intros. by eapply Qcle_lt_trans.
Qed.

(** ** [svd_reduction] *)

Lemma length_cumsum_from acc l : length (cumsum_from acc l) = length l.
Proof. revert acc. induction l as [|x l IH]; intros acc; cbn; [done|by rewrite IH]. Qed.

Lemma length_cumsum l : length (cumsum l) = length l.
Proof. apply length_cumsum_from. Qed.

Lemma cumsum_from_lookup acc l i :
  (i < length l)%nat ->
  cumsum_from acc l !! i = Some (cast32 (foldl fadd64 acc (take (S i) l))).
Proof.
  revert acc i. induction l as [|x l IH]; intros acc i Hi; [cbn in Hi; lia|].
  destruct i as [|i]; cbn [cumsum_from lookup list_lookup].
  - by destruct l.
  - cbn in Hi. rewrite IH by lia. done.
Qed.

(** Entry [i] of [cumsum] is the running total of the first [i + 1]
    entries. *)
Lemma cumsum_lookup l i :
  (i < length l)%nat -> cumsum l !! i = Some (prefix_sum l i).
Proof. apply cumsum_from_lookup. Qed.

Lemma length_cumulative_ratio s : length (cumulative_ratio s) = length s.
Proof. unfold cumulative_ratio. by rewrite length_map, length_seq. Qed.

(** The ratio that the code computes is the cumulative ratio of the
    specification. *)
Lemma energy_ratio_spec s : Cca.energy_ratio s = cumulative_ratio s.
Proof.
  apply list_eq. intros i. unfold Cca.energy_ratio, cumulative_ratio, vdiv.
  change (map ?f ?l) with (f <$> l). rewrite !list_lookup_fmap.
  destruct (decide (i < length s)%nat) as [Hi|Hi].
  - rewrite cumsum_lookup by (unfold vabs; by rewrite length_map).
    by rewrite lookup_seq_lt.
  - rewrite (lookup_ge_None_2 (cumsum _)), (lookup_ge_None_2 (seq _ _)); [done|..].
    + rewrite length_seq. lia.
    + rewrite length_cumsum. unfold vabs. rewrite length_map. lia.
Qed.

Lemma retained_le s rate : (retained s rate <= length s)%nat.
Proof.
  unfold retained. rewrite <-(length_cumulative_ratio s). apply length_filter.
Qed.

Lemma py_int_counted n : py_int (Fin (Qc_of_Z (counted n))) = Ok (counted n).
Proof. apply py_int_Z. Qed.

Lemma counted_nonneg n : (0 <= counted n)%Z.
Proof. unfold counted. lia. Qed.

Lemma counted_countable n : countable n -> counted n = Z.of_nat n.
Proof. unfold countable, counted. lia. Qed.

Lemma svd_reduction_unfold svd x rate u s v :
  svd x = Ok (u, s, v) ->
  Cca.svd_reduction svd x rate
  = matmul x (slice_cols (counted (retained s rate)) v).
Proof.
  intros Hsvd. unfold Cca.svd_reduction. rewrite Hsvd. cbn.
  rewrite where_sum_count, energy_ratio_spec.
  fold (retained s rate). fold (counted (retained s rate)).
  by rewrite py_int_counted.
Qed.

Lemma ncols_slice_cols k m :
  (0 <= k)%Z -> ncols (slice_cols k m) = Nat.min (Z.to_nat k) (ncols m).
Proof. intros Hk. unfold slice_cols, slice_stop. cbn. by rewrite decide_False by lia. Qed.

Lemma matmul_Ok a b c :
  matmul a b = Ok c ->
  ncols a = nrows b /\ nrows c = nrows a /\ ncols c = ncols b.
Proof. unfold matmul. case_decide; [|done]. intros [= <-]. done. Qed.

Lemma matmul_Raise a b e :
  matmul a b = Raise e -> ncols a <> nrows b /\ e = RuntimeError.
Proof. unfold matmul. case_decide; [done|]. by intros [= <-]. Qed.

Lemma filter_length_mono {A} (P Q : A -> Prop)
    `{forall x, Decision (P x)} `{forall x, Decision (Q x)} (l : list A) :
  (forall x, P x -> Q x) -> (length (filter P l) <= length (filter Q l))%nat.
Proof.
  intros HPQ. induction l as [|x l IH]; [done|].
  rewrite !filter_cons. repeat case_decide; cbn; try lia. naive_solver.
Qed.

Lemma retained_mono s (r1 r2 : Qc) :
  r1 ≤ r2 -> (retained s (Fin r1) <= retained s (Fin r2))%nat.
Proof.
  intros Hle. apply filter_length_mono. intros r.
  apply flt_fle_r. cbn. by apply f32_mono.
Qed.

(** C9. For a fixed input, raising [accept_rate] never lowers the number of
    columns that [svd_reduction] keeps: at [r1 <= r2] both calls return, the
    one at [r1] with at most as many columns as the one at [r2], or both
    raise the same exception. *)
Theorem svd_reduction_columns_monotone (svd : svd_fn) (x : matrix) (r1 r2 : Qc) :
  r1 ≤ r2 ->
  match Cca.svd_reduction svd x (Fin r1), Cca.svd_reduction svd x (Fin r2) with
  | Ok x1, Ok x2 => (ncols x1 <= ncols x2)%nat
  | Raise e1, Raise e2 => e1 = e2
  | _, _ => False
  end.
Proof.
  intros Hle. destruct (svd x) as [[[u s] v]|e] eqn:Hsvd.
  - rewrite !(svd_reduction_unfold _ _ _ _ _ _ Hsvd).
    pose proof (retained_mono s r1 r2 Hle) as Hk.
    destruct (matmul x (slice_cols (counted (retained s (Fin r1))) v)) as [x1|e1] eqn:H1,
             (matmul x (slice_cols (counted (retained s (Fin r2))) v)) as [x2|e2] eqn:H2.
    + apply matmul_Ok in H1 as (_ & _ & ->), H2 as (_ & _ & ->).
      rewrite !ncols_slice_cols by apply counted_nonneg. unfold counted. lia.
    + apply matmul_Ok in H1 as (H1 & _). by apply matmul_Raise in H2 as (H2 & _).
    + apply matmul_Ok in H2 as (H2 & _). by apply matmul_Raise in H1 as (H1 & _).
    + apply matmul_Raise in H1 as (_ & ->), H2 as (_ & ->). done.
  - unfold Cca.svd_reduction. by rewrite Hsvd.
Qed.

Lemma svd_reduction_columns_monotone_witness :
  match Cca.svd_reduction Examples.svd Examples.x4 (Fin (Q2Qc (1 # 2))),
        Cca.svd_reduction Examples.svd Examples.x4 (Fin (Q2Qc (99 # 100))) with
  | Ok x1, Ok x2 => (ncols x1 <= ncols x2)%nat
  | Raise e1, Raise e2 => e1 = e2
  | _, _ => False
  end.
Proof. apply svd_reduction_columns_monotone. by vm_compute. Defined.

(** *** The retained entries are the leading ones *)

Lemma Qcabs_nonneg q : 0 ≤ Qcabs q.
Proof.
  unfold Qcabs. case_decide as Hq.
  - apply Qclt_le_weak, Qcopp_le_compat in Hq.
    by replace (- 0) with 0 in Hq by ring.
  - by apply Qcnot_lt_le.
Qed.

Lemma running_nonneg rnd x : running rnd x -> nonneg x.
Proof. intros [->|(q & -> & Hq & _)]; unfold nonneg; by cbn. Qed.

(** Adding a number that is not negative to a running sum gives a running
    sum that is not smaller. *)
Lemma add_with_running f acc (b : Qc) :
  proper_format f -> running (round f) acc -> 0 ≤ b ->
  running (round f) (add_with (round f) acc (Fin b)) /\
  fle acc (add_with (round f) acc (Fin b)).
Proof.
  intros Hf [->|(a & -> & Ha & Hrep)] Hb; [split; [by left|done]|].
  cbn [add_with].
  assert (fle (Fin a) (round f (a + b))) as Hle.
  { rewrite <-Hrep. apply round_mono; [done|].
    rewrite <-(Qcplus_0_r a) at 1. by apply Qcplus_le_mono_l. }
  split; [|done].
  destruct (round f (a + b)) as [q| | |] eqn:Hq; cbn in Hle; try done; [|by left].
  right. exists q. split_and!; [done|by apply Qcle_trans with a|by eapply round_idem].
Qed.

Lemma foldl_add_running f acc l :
  proper_format f -> running (round f) acc -> Forall nonneg l -> Forall is_fin l ->
  running (round f) (foldl (add_with (round f)) acc l) /\
  fle acc (foldl (add_with (round f)) acc l).
Proof.
  intros Hf Hacc Hl Hfin. revert acc Hacc.
  induction Hl as [|x l Hx _ IH]; intros acc Hacc.
  - split; [done|]. apply fle_refl. by destruct Hacc as [->|(? & -> & _)].
  - apply Forall_cons in Hfin as [Hxf Hfin]. destruct x as [b| | |]; try done.
    cbn [foldl]. destruct (add_with_running f acc b Hf Hacc Hx) as [Hr Hle].
    destruct (IH Hfin _ Hr) as [Hr' Hle']. split; [done|by eapply fle_trans].
Qed.

Lemma running_zero32 : running f32 fzero.
Proof. right. exists 0. split_and!; [done|done|apply f32_0]. Qed.

Lemma running_zero64 : running f64 fzero.
Proof. right. exists 0. split_and!; [done|done|apply f64_0]. Qed.

Lemma vabs_nonneg s : Forall is_fin s -> Forall nonneg (vabs s) /\ Forall is_fin (vabs s).
Proof.
  induction 1 as [|x s Hx _ [IH1 IH2]]; [by split|].
  destruct x; try done. split; constructor; try done. apply Qcabs_nonneg.
Qed.

(** The total of absolute values is a running sum. *)
Lemma fsum_vabs_running s : Forall is_fin s -> running f32 (fsum (vabs s)).
Proof.
  intros Hs. destruct (vabs_nonneg s Hs) as [Hn Hf].
  apply (foldl_add_running binary32); [apply proper_binary32|apply running_zero32|done..].
Qed.

(** The running totals of absolute values never decrease. *)
Lemma prefix_sum_mono s i j :
  Forall is_fin s -> (i <= j)%nat ->
  nonneg (prefix_sum (vabs s) i) /\
  fle (prefix_sum (vabs s) i) (prefix_sum (vabs s) j).
Proof.
  intros Hs Hij. destruct (vabs_nonneg s Hs) as [Hn Hf]. unfold prefix_sum.
  assert (take (S j) (vabs s)
          = take (S i) (vabs s) ++ take (j - i) (drop (S i) (vabs s))) as ->.
  { rewrite take_take_drop. f_equal. lia. }
  rewrite foldl_app.
  destruct (foldl_add_running binary64 fzero (take (S i) (vabs s)))
    as [Hr1 Hle1]; [apply proper_binary64|apply running_zero64|
                    by apply Forall_take|by apply Forall_take|].
  fold fadd64 in Hr1, Hle1 |- *.
  destruct (foldl_add_running binary64 (foldl fadd64 fzero (take (S i) (vabs s)))
              (take (j - i) (drop (S i) (vabs s))))
    as [Hr2 Hle2]; [apply proper_binary64|done|
                    by apply Forall_take, Forall_drop|
                    by apply Forall_take, Forall_drop|].
  split.
  - unfold nonneg. apply fle_trans with (cast32 fzero); [|by apply cast32_mono].
    change (cast32 fzero) with (f32 0). rewrite f32_0. by cbn.
  - by apply cast32_mono.
Qed.

(** Dividing by a running sum keeps the order of the numerators, as far as a
    comparison with a rate can tell. *)
Lemma fdiv_below c c' full t :
  nonneg c -> fle c c' -> running f32 full ->
  flt (fdiv c' full) t = true -> flt (fdiv c full) t = true.
Proof.
  intros Hc Hcc Hfull.
  destruct c as [q| | |], c' as [q'| | |]; try done; cbn in Hc, Hcc;
    destruct Hfull as [->|(f & -> & Hf & _)]; try done.
  - cbn [fdiv]. case_decide as Hz.
    { unfold signed at 1.
      rewrite (decide_False (P := q' < 0))
        by (apply Qcle_not_lt; by apply Qcle_trans with q).
      case_decide; by destruct t. }
    destruct (decide (f = 0)) as [|Hne]; [done|].
    apply flt_fle_l, f32_mono. unfold Qcdiv.
    apply Qcmult_le_compat_r; [done|]. apply Qclt_le_weak, Qcinv_pos.
    by apply Qcle_lt_or_eq in Hf as [?|?].
  - cbn [fdiv]. rewrite decide_False by by apply Qcle_not_lt. by destruct t.
Qed.

Lemma cumulative_ratio_lookup s i :
  (i < length s)%nat ->
  cumulative_ratio s !! i = Some (fdiv (prefix_sum (vabs s) i) (fsum (vabs s))).
Proof.
  intros Hi. unfold cumulative_ratio.
  change (map ?f ?l) with (f <$> l). by rewrite list_lookup_fmap, lookup_seq_lt.
Qed.

(** An entry of the cumulative ratio below the rate has only entries below
    the rate before it. *)
Lemma cumulative_ratio_downward s rate i j ri rj :
  Forall is_fin s -> (i <= j)%nat ->
  cumulative_ratio s !! i = Some ri -> cumulative_ratio s !! j = Some rj ->
  flt rj rate = true -> flt ri rate = true.
Proof.
  intros Hs Hij Hi Hj.
  pose proof (lookup_lt_Some _ _ _ Hi) as Hli.
  pose proof (lookup_lt_Some _ _ _ Hj) as Hlj.
  rewrite length_cumulative_ratio in Hli, Hlj.
  rewrite cumulative_ratio_lookup in Hi, Hj by done.
  injection Hi as <-. injection Hj as <-.
  destruct (prefix_sum_mono s i j Hs Hij) as [Hn Hle].
  apply fdiv_below; [done..|]. by apply fsum_vabs_running.
Qed.

Lemma filter_none {A} (P : A -> Prop) `{forall x, Decision (P x)} (l : list A) :
  Forall (fun x => ~ P x) l -> filter P l = [].
Proof.
  induction 1 as [|x l Hx _ IH]; [done|]. by rewrite filter_cons, decide_False.
Qed.

(** The entries of a list that satisfy a downward closed property are its
    first ones. *)
Lemma filter_leading {A} (P : A -> Prop) `{forall x, Decision (P x)} (l : list A) :
  (forall i j a b, (i <= j)%nat -> l !! i = Some a -> l !! j = Some b -> P b -> P a) ->
  forall i a, l !! i = Some a -> P a <-> (i < length (filter P l))%nat.
Proof.
  induction l as [|x l IH]; intros Hd i a Hi; [done|].
  assert (forall i j a b, (i <= j)%nat -> l !! i = Some a -> l !! j = Some b -> P b -> P a)
    as Hd' by (intros i' j' a' b' Hij; apply (Hd (S i') (S j')); lia).
  rewrite filter_cons. case_decide as Hx.
  - destruct i as [|i]; cbn in Hi |- *.
    + injection Hi as <-. split; [lia|done].
    + rewrite (IH Hd' i a Hi). lia.
  - assert (filter P l = []) as ->.
    { apply filter_none, Forall_forall. intros b Hb HPb.
      apply list_elem_of_lookup in Hb as [j Hj].
      apply Hx. by apply (Hd 0%nat (S j) x b); [lia|..]. }
    cbn. split; [|lia]. intros Ha. exfalso. apply Hx.
    by apply (Hd 0%nat i x a); [lia|..].
Qed.

(** With every singular value finite, the entries of the cumulative ratio
    below the rate are exactly the first [retained] ones. *)
Lemma retained_leading s rate i r :
  Forall is_fin s ->
  cumulative_ratio s !! i = Some r ->
  flt r (cast32 rate) = true <-> (i < retained s rate)%nat.
Proof.
  intros Hs Hi. unfold retained.
  apply (filter_leading (fun r => flt r (cast32 rate) = true)); [|done].
  intros i' j' a b Hij Ha Hb. by eapply cumulative_ratio_downward.
Qed.

(** *** Shape and entries of the projection *)

Lemma length_columns m : length (columns m) = ncols m.
Proof. unfold columns. by rewrite length_map, length_seq. Qed.

Lemma matmul_wf a b c : wf a -> matmul a b = Ok c -> wf c.
Proof.
  intros [Ha _]. unfold matmul. case_decide; [|done]. intros [= <-].
  split; cbn.
  - by rewrite length_map.
  - apply Forall_map, Forall_true. intros r. cbn.
    by rewrite length_map, length_columns.
Qed.

Lemma columns_lookup m j :
  (j < ncols m)%nat -> columns m !! j = Some (column j (mrows m)).
Proof.
  intros Hj. unfold columns. rewrite list_lookup_fmap, lookup_seq_lt by done. done.
Qed.

Lemma column_take j k rows :
  (j < k)%nat -> column j (map (take k) rows) = column j rows.
Proof.
  intros Hj. unfold column. rewrite map_map. apply map_ext. intros r.
  revert j Hj r. induction k as [|k IH]; intros j Hj r; [lia|].
  destruct r as [|x r]; [by destruct j|]. destruct j as [|j]; [done|].
  cbn. apply IH. lia.
Qed.

(** Entry [(i, j)] of [a @ b] is the product of row [i] of [a] and column
    [j] of [b]. *)
Lemma matmul_entry a b c i j row :
  matmul a b = Ok c -> mrows a !! i = Some row -> (j < ncols b)%nat ->
  (mrows c !! i) ≫= (.!! j) = Some (dot row (column j (mrows b))).
Proof.
  unfold matmul. case_decide; [|done]. intros [= <-] Hi Hj. cbn.
  rewrite list_lookup_fmap, Hi. cbn.
  by rewrite list_lookup_fmap, columns_lookup.
Qed.

Lemma matmul_eq a b : ncols a = nrows b -> matmul a b = Ok (matmul_rows a b).
Proof. intros H. unfold matmul. by rewrite decide_True. Qed.

Lemma table_svd_contract tbl : svd_contract (Examples.table_svd tbl).
Proof.
  intros x u s v. unfold Examples.table_svd.
  destruct (Examples.assoc x tbl) as [r|]; [|done].
  case_decide as Hr; [|done]. intros [= ->]. apply Hr.
Qed.

(** Under the contract of [torch.svd], [svd_reduction] returns the product
    of the input with the leading right singular vectors, as many as the
    float32 count of the ratios below the rate. *)
Lemma svd_reduction_Ok svd x rate u s v :
  svd_contract svd -> wf x -> svd x = Ok (u, s, v) ->
  let x' := matmul_rows x (slice_cols (counted (retained s rate)) v) in
  Cca.svd_reduction svd x rate = Ok x' /\
  wf x' /\ nrows x' = nrows x /\
  ncols x' = Z.to_nat (counted (retained s rate)) /\
  (ncols x' <= length s)%nat /\ (ncols x' <= nrows x')%nat.
Proof.
  intros Hc Hx Hsvd. cbn zeta.
  destruct (Hc _ _ _ _ Hsvd) as (_ & _ & _ & Hs & _ & Hv & Hvk); cbn in Hs, Hv, Hvk.
  set (x' := matmul_rows x (slice_cols (counted (retained s rate)) v)).
  pose proof (retained_le s rate) as Hle.
  pose proof (counted_nonneg (retained s rate)) as Hk0.
  assert (ncols x = nrows (slice_cols (counted (retained s rate)) v)) as Hin by done.
  rewrite (svd_reduction_unfold _ _ _ _ _ _ Hsvd), (matmul_eq _ _ Hin).
  assert (ncols x' = Z.to_nat (counted (retained s rate))) as Hk.
  { unfold x'. cbn [ncols matmul_rows]. rewrite ncols_slice_cols by done.
    unfold counted in *. lia. }
  split_and!; [done| |done|done|..].
  - eapply matmul_wf; [exact Hx|]. by apply matmul_eq.
  - rewrite Hk. unfold counted. lia.
  - rewrite Hk. unfold counted. unfold x'. cbn [nrows matmul_rows]. lia.
Qed.

(** C2. With at most [2^24] finite singular values: [svd_reduction] keeps
    [k] columns, [k] being the number of entries of the cumulative ratio of
    absolute singular values (running total over total) that are strictly
    below [accept_rate]; those entries are the leading [k] ones; the result
    is the [samples x k] product of the input with the first [k] right
    singular vectors; and [k] is [0] when the first ratio is not below the
    rate. *)
Theorem svd_reduction_retains_leading (svd : svd_fn) (x : matrix)
    (accept_rate : fval) (u : matrix) (s : list fval) (v : matrix) :
  svd_contract svd -> wf x -> svd x = Ok (u, s, v) -> Forall is_fin s ->
  countable (length s) ->
  let ratio :=
    map (fun i => fdiv (prefix_sum (vabs s) i) (fsum (vabs s))) (seq 0 (length s)) in
  let below r := flt r (cast32 accept_rate) = true in
  let k := length (filter below ratio) in
  exists x',
    Cca.svd_reduction svd x accept_rate = Ok x' /\
    wf x' /\ nrows x' = nrows x /\ ncols x' = k /\
    (forall i r, ratio !! i = Some r -> below r <-> (i < k)%nat) /\
    (forall r0, head ratio = Some r0 -> ~ below r0 -> k = 0%nat) /\
    (forall i j row, mrows x !! i = Some row -> (j < k)%nat ->
       (mrows x' !! i) ≫= (.!! j) = Some (dot row (column j (mrows v)))).
Proof.
  intros Hc Hx Hsvd Hs Hn. cbn zeta.
  fold (cumulative_ratio s). fold (retained s accept_rate).
  set (k := retained s accept_rate).
  destruct (svd_reduction_Ok svd x accept_rate u s v Hc Hx Hsvd)
    as (Hred & Hwf & Hnr & Hk & Hks & _).
  pose proof (retained_le s accept_rate) as Hle. fold k in Hle, Hred, Hk, Hwf.
  assert (countable k) as Hkc by (unfold countable in *; lia).
  rewrite (counted_countable _ Hkc) in Hred, Hk, Hwf. rewrite Nat2Z.id in Hk.
  eexists. split_and!; [exact Hred|done|done|done|..].
  - intros i r Hi. by apply retained_leading.
  - intros r0 Hr0 Hlt. rewrite head_lookup in Hr0.
    pose proof (retained_leading s accept_rate 0 r0 Hs Hr0) as [_ H0].
    destruct (decide (k = 0%nat)) as [|Hne]; [done|].
    destruct Hlt. apply H0. fold k. lia.
  - intros i j row Hi Hj.
    destruct (Hc _ _ _ _ Hsvd) as (_ & _ & _ & Hl & _ & _ & Hvk); cbn in Hl, Hvk.
    assert (ncols x = nrows (slice_cols (Z.of_nat k) v)) as Hin
      by (destruct (Hc _ _ _ _ Hsvd) as (_ & _ & _ & _ & _ & Hv & _); done).
    rewrite (matmul_entry _ _ _ i j row (matmul_eq _ _ Hin) Hi).
    + f_equal. f_equal. unfold slice_cols. cbn [mrows].
      apply column_take. rewrite slice_stop_of_nat. lia.
    + rewrite ncols_slice_cols by lia. lia.
Qed.

Lemma svd_reduction_retains_leading_witness :
  let s := [Examples.int 4; Examples.int 2] in
  let ratio :=
    map (fun i => fdiv (prefix_sum (vabs s) i) (fsum (vabs s))) (seq 0 (length s)) in
  let below r := flt r (cast32 Cca.default_accept_rate) = true in
  let k := length (filter below ratio) in
  exists x',
    Cca.svd_reduction Examples.svd Examples.x4 Cca.default_accept_rate = Ok x' /\
    wf x' /\ nrows x' = nrows Examples.x4 /\ ncols x' = k /\
    (forall i r, ratio !! i = Some r -> below r <-> (i < k)%nat) /\
    (forall r0, head ratio = Some r0 -> ~ below r0 -> k = 0%nat) /\
    (forall i j row, mrows Examples.x4 !! i = Some row -> (j < k)%nat ->
       (mrows x' !! i) ≫= (.!! j)
       = Some (dot row (column j (mrows Examples.i2)))).
Proof.
  apply (svd_reduction_retains_leading Examples.svd Examples.x4
           Cca.default_accept_rate Examples.u4).
  - apply table_svd_contract.
  - split; [reflexivity|]. repeat constructor.
  - vm_compute. reflexivity.
  - repeat constructor.
  - unfold countable. cbn. lia.
Defined.

(** A single-feature input: the only ratio is [1], nothing is kept and the
    result has no column. *)
Example svd_reduction_single_feature :
  Cca.svd_reduction Examples.svd Examples.xr Cca.default_accept_rate
  = Ok Examples.e40.
Proof. vm_compute. reflexivity. Qed.

(** The rate is compared as a float32.  The two singular values are the
    float32 numbers nearest to [0.99] and [0.01]; their exact ratio is below
    [0.99], but the float32 ratio is the float32 [0.99] itself, so that no
    column is kept. *)
Example svd_reduction_rate_rounding :
  Cca.svd_reduction Examples.svd_round Examples.d99 Cca.default_accept_rate
  = Ok (Matrix 2 0 [[]; []]).
Proof. vm_compute. reflexivity. Qed.

(** The older script has the same [svd_reduction], so what is proved of the
    package's holds of it. *)
Lemma legacy_svd_reduction svd x accept_rate :
  Legacy.svd_reduction svd x accept_rate = Cca.svd_reduction svd x accept_rate.
Proof. reflexivity. Qed.

(** *** The last ratio *)

Lemma filter_length_last {A} (P : A -> Prop) `{forall x, Decision (P x)} l x :
  last l = Some x -> ~ P x -> (length (filter P l) < length l)%nat.
Proof.
  intros Hl Hx. apply last_Some in Hl as [l' ->].
  rewrite filter_app, filter_cons, decide_False, filter_nil, app_nil_r by done.
  rewrite length_app. cbn. pose proof (length_filter P l'). lia.
Qed.

Lemma last_cumulative_ratio s :
  s <> [] ->
  last (cumulative_ratio s)
  = Some (fdiv (prefix_sum (vabs s) (length s - 1)) (fsum (vabs s))).
Proof.
  intros Hs. rewrite last_lookup, length_cumulative_ratio, <-Nat.sub_1_r.
  apply cumulative_ratio_lookup. destruct s; [done|]. cbn. lia.
Qed.

(** A running sum over itself is [1], or NaN; it is not below a rate of at
    most [1]. *)
Lemma fdiv_self_not_below t (r : Qc) :
  running f32 t -> r ≤ 1 -> flt (fdiv t t) (cast32 (Fin r)) = false.
Proof.
  intros [->|(f & -> & Hf & _)] Hr; [done|]. cbn [fdiv cast32].
  case_decide as Hz.
  - subst f. unfold signed. by rewrite !decide_False by apply irreflexivity, _.
  - assert (f / f = 1) as -> by by field. rewrite f32_1.
    pose proof (f32_mono r 1 Hr) as Hle. rewrite f32_1 in Hle.
    destruct (f32 r) as [q| | |]; cbn in Hle |- *; try done.
    apply bool_decide_eq_false. by apply Qcle_not_lt.
Qed.

Lemma fdiv_self_one t :
  is_fin t -> t <> fzero -> fdiv t t = fone.
Proof.
  destruct t as [f| | |]; try done. intros _ Hne. cbn [fdiv].
  rewrite decide_False by (intros ->; by apply Hne).
  assert (f / f = 1) as ->; [|apply f32_1].
  field. intros ->. by apply Hne.
Qed.

(** C10, as it holds.  With [accept_rate <= 1] and finite singular values,
    one of them not zero: when the running total of [cumsum] ends at the
    total that [sum] returns, [svd_reduction] returns with strictly fewer
    columns than there are singular values, hence fewer than
    [min(samples, features)]; the last cumulative ratio is then [1] when the
    total is a number that is not zero. *)
Theorem svd_reduction_drops_last (svd : svd_fn) (x : matrix) (r : Qc)
    (u : matrix) (s : list fval) (v : matrix) :
  svd_contract svd -> wf x -> r ≤ 1 -> svd x = Ok (u, s, v) ->
  Forall is_fin s -> Exists (fun d => d <> fzero) s ->
  prefix_sum (vabs s) (length s - 1) = fsum (vabs s) ->
  exists x',
    Cca.svd_reduction svd x (Fin r) = Ok x' /\
    (ncols x' <= length s - 1)%nat /\
    (ncols x' < Nat.min (nrows x) (ncols x))%nat /\
    (is_fin (fsum (vabs s)) -> fsum (vabs s) <> fzero ->
     last (cumulative_ratio s) = Some fone).
Proof.
  intros Hc Hx Hr Hsvd Hfin Hex Hlast.
  assert (s <> []) as Hne by (intros ->; by apply Exists_nil in Hex).
  destruct (svd_reduction_Ok svd x (Fin r) u s v Hc Hx Hsvd)
    as (Hred & _ & _ & Hk & _ & _).
  destruct (Hc _ _ _ _ Hsvd) as (_ & _ & _ & Hl & _); cbn in Hl.
  pose proof (last_cumulative_ratio s Hne) as Hlr. rewrite Hlast in Hlr.
  assert (retained s (Fin r) < length s)%nat as Hlt.
  { unfold retained. rewrite <-(length_cumulative_ratio s).
    eapply filter_length_last; [exact Hlr|].
    rewrite fdiv_self_not_below; [done| |done]. by apply fsum_vabs_running. }
  eexists. split; [exact Hred|]. rewrite Hk. unfold counted.
  split_and!; [lia|lia|].
  intros Hf Hz. rewrite Hlr. f_equal. by apply fdiv_self_one.
Qed.

Lemma svd_reduction_drops_last_witness :
  exists x',
    Cca.svd_reduction Examples.svd Examples.x4 (Fin 1) = Ok x' /\
    (ncols x' <= length [Examples.int 4; Examples.int 2] - 1)%nat /\
    (ncols x' < Nat.min (nrows Examples.x4) (ncols Examples.x4))%nat /\
    (is_fin (fsum (vabs [Examples.int 4; Examples.int 2])) ->
     fsum (vabs [Examples.int 4; Examples.int 2]) <> fzero ->
     last (cumulative_ratio [Examples.int 4; Examples.int 2]) = Some fone).
Proof.
  apply (svd_reduction_drops_last Examples.svd Examples.x4 1
           Examples.u4 _ Examples.i2).
  - apply table_svd_contract.
  - split; [reflexivity|]. repeat constructor.
  - by vm_compute.
  - vm_compute. reflexivity.
  - repeat constructor.
  - apply Exists_cons_hd. intros [=].
  - apply (bool_decide_eq_true_1 _). vm_compute. reflexivity.
Defined.

(** C10, as stated, fails.  The singular values [4194305], [3.330078125]
    and [2.275390625] add up to [4194311] in a float32 sum, while the last
    entry of [cumsum], accumulated in double precision, is [4194310.5]: the
    last ratio is below [1], and at [accept_rate = 1] all three columns are
    kept. *)
Lemma svd_reduction_keeps_all_at_one :
  wf Examples.d3 /\
  Examples.svd_round Examples.d3 = Ok (Examples.i3, Examples.s3, Examples.i3) /\
  Exists (fun d => d <> fzero) Examples.s3 /\
  fsum (vabs Examples.s3) = Examples.int 4194311 /\
  last (cumsum (vabs Examples.s3)) = Some (Examples.rat 8388621 2) /\
  exists x',
    Cca.svd_reduction Examples.svd_round Examples.d3 (Fin 1) = Ok x' /\
    ncols x' = length Examples.s3 /\
    ncols x' = Nat.min (nrows Examples.d3) (ncols Examples.d3).
Proof.
  split_and!.
  - split; [reflexivity|]. repeat constructor.
  - vm_compute. reflexivity.
  - apply Exists_cons_hd. intros [=].
  - apply (bool_decide_eq_true_1 _). vm_compute. reflexivity.
  - apply (bool_decide_eq_true_1 _). vm_compute. reflexivity.
  - eexists. split; [vm_compute; reflexivity|]. split; reflexivity.
Qed.

(** ** The CCA solver *)

(** One step of a [result] computation. *)
Ltac bind_step := cbn [mbind result_bind mret result_ret].

(** [zero_mean(x, dim=0)] subtracts from every column its mean. *)
Lemma zero_mean_0_rows x : Cca.zero_mean x 0 = Ok (centred x).
Proof.
  unfold Cca.zero_mean, mean_keepdim. rewrite decide_True by by left.
  bind_step. unfold sub_broadcast. cbn [nrows ncols mrows].
  by rewrite decide_True.
Qed.

Lemma zero_mean_0 x :
  exists xc, Cca.zero_mean x 0 = Ok xc /\ nrows xc = nrows x /\ ncols xc = ncols x.
Proof. exists (centred x). split; [apply zero_mean_0_rows|done]. Qed.

Lemma length_reciprocal s : length (reciprocal s) = length s.
Proof. unfold reciprocal. by rewrite length_map. Qed.

(** Under the contract of [torch.svd], on inputs with equal sample counts,
    [_svd_cca] makes three decompositions: of [x], of [y], and of the
    product of their left singular vectors, whose singular values it returns
    as the canonical correlations; it raises only what [torch.svd]
    raises. *)
Lemma svd_cca_cases svd x y :
  svd_contract svd -> nrows x = nrows y ->
  match Cca._svd_cca svd x y with
  | Ok (a, b, diag) =>
      exists u1 s1 v1 u2 s2 v2 u v,
        svd x = Ok (u1, s1, v1) /\ svd y = Ok (u2, s2, v2) /\
        svd (matmul_rows (transpose u1) u2) = Ok (u, diag, v) /\
        a = matmul_rows (matmul_rows v1 (diag_matrix (reciprocal s1))) u /\
        b = matmul_rows (matmul_rows v2 (diag_matrix (reciprocal s2))) v
  | Raise e => exists z, svd z = Raise e
  end.
Proof.
  intros Hc Hxy. unfold Cca._svd_cca.
  destruct (svd x) as [[[u_1 s_1] v_1]|e] eqn:H1; bind_step; [|by eauto].
  destruct (Hc _ _ _ _ H1) as (_ & Hu1 & Hu1k & Hs1 & _ & Hv1 & Hv1k);
    cbn in Hu1, Hu1k, Hs1, Hv1, Hv1k.
  destruct (svd y) as [[[u_2 s_2] v_2]|e] eqn:H2; bind_step; [|by eauto].
  destruct (Hc _ _ _ _ H2) as (_ & Hu2 & Hu2k & Hs2 & _ & Hv2 & Hv2k);
    cbn in Hu2, Hu2k, Hs2, Hv2, Hv2k.
  rewrite (matmul_eq (transpose u_1) u_2) by (cbn; congruence). bind_step.
  destruct (svd (matmul_rows (transpose u_1) u_2)) as [[[u diag] v]|e] eqn:H3;
    bind_step; [|by eauto].
  destruct (Hc _ _ _ _ H3) as (_ & Hu & Huk & Hd & _ & Hv & Hvk); cbn in Hu, Huk, Hd, Hv, Hvk.
  rewrite (matmul_eq v_1 (diag_matrix (reciprocal s_1)))
    by (cbn; rewrite length_reciprocal; congruence).
  rewrite (matmul_eq v_2 (diag_matrix (reciprocal s_2)))
    by (cbn; rewrite length_reciprocal; congruence).
  bind_step.
  rewrite (matmul_eq _ u) by (cbn; rewrite length_reciprocal; congruence).
  bind_step.
  rewrite (matmul_eq _ v) by (cbn; rewrite length_reciprocal; congruence).
  bind_step. by eexists _, _, _, _, _, _, _, _.
Qed.

Lemma svd_cca_total svd x y :
  svd_contract svd -> nrows x = nrows y ->
  match Cca._svd_cca svd x y with
  | Ok (a, b, diag) =>
      let k := Nat.min (Nat.min (nrows x) (ncols x)) (Nat.min (nrows y) (ncols y)) in
      nrows a = ncols x /\ ncols a = k /\ nrows b = ncols y /\ ncols b = k /\
      length diag = k
  | Raise e => exists z, svd z = Raise e
  end.
Proof.
  intros Hc Hxy. pose proof (svd_cca_cases svd x y Hc Hxy) as Hcase.
  destruct (Cca._svd_cca svd x y) as [[[a b] diag]|e]; [|done].
  destruct Hcase as (u1 & s1 & v1 & u2 & s2 & v2 & u & v & H1 & H2 & H3 & -> & ->).
  destruct (Hc _ _ _ _ H1) as (_ & Hu1 & Hu1k & Hs1 & _ & Hv1 & Hv1k).
  destruct (Hc _ _ _ _ H2) as (_ & Hu2 & Hu2k & Hs2 & _ & Hv2 & Hv2k).
  destruct (Hc _ _ _ _ H3) as (_ & Hu & Huk & Hd & _ & Hv & Hvk).
  cbn in *. split_and!; lia.
Qed.

Lemma cca_unfold svd x y method :
  nrows x = nrows y -> (ncols x <= nrows x)%nat -> (ncols y <= nrows y)%nat ->
  method = "svd" \/ method = "qr" ->
  Cca._cca svd x y method = Cca._svd_cca svd (centred x) (centred y).
Proof.
  intros Hxy Hx Hy Hm. unfold Cca._cca, py_assert.
  rewrite !bool_decide_eq_true_2 by done. bind_step. cbn [andb].
  by rewrite !zero_mean_0_rows.
Qed.

(** On valid inputs with equal sample counts and a known method, [_cca]
    raises only what [torch.svd] raises. *)
Lemma cca_total svd x y method :
  svd_contract svd ->
  nrows x = nrows y -> (ncols x <= nrows x)%nat -> (ncols y <= nrows y)%nat ->
  method = "svd" \/ method = "qr" ->
  match Cca._cca svd x y method with
  | Ok (a, b, diag) =>
      let k := Nat.min (ncols x) (ncols y) in
      nrows a = ncols x /\ ncols a = k /\ nrows b = ncols y /\ ncols b = k /\
      length diag = k
  | Raise e => exists z, svd z = Raise e
  end.
Proof.
  intros Hc Hxy Hx Hy Hm. rewrite (cca_unfold svd x y method Hxy Hx Hy Hm).
  pose proof (svd_cca_total svd (centred x) (centred y) Hc Hxy) as Ht.
  destruct (Cca._svd_cca svd (centred x) (centred y)) as [[[a b] diag]|e]; [|done].
  cbn in Ht |- *. split_and!; lia.
Qed.

(** ** The two distances *)

(** The case analysis behind the SVCCA formula, shared by what follows: the
    two reductions, then the three decompositions of [_svd_cca] on the
    centred reduced matrices. *)
Lemma svcca_distance_cases (svd : svd_fn) (x y : matrix) (method : string)
    (ux : matrix) (sx : list fval) (vx : matrix)
    (uy : matrix) (sy : list fval) (vy : matrix) :
  svd_contract svd -> wf x -> wf y -> nrows x = nrows y ->
  method = "svd" \/ method = "qr" ->
  svd x = Ok (ux, sx, vx) -> svd y = Ok (uy, sy, vy) ->
  let x' := matmul_rows x
              (slice_cols (counted (retained sx Cca.default_accept_rate)) vx) in
  let y' := matmul_rows y
              (slice_cols (counted (retained sy Cca.default_accept_rate)) vy) in
  Cca.svd_reduction svd x Cca.default_accept_rate = Ok x' /\
  Cca.svd_reduction svd y Cca.default_accept_rate = Ok y' /\
  match Cca.svcca_distance svd x y method with
  | Ok d =>
      exists u1 s1 v1 u2 s2 v2 u diag v,
        svd (centred x') = Ok (u1, s1, v1) /\
        svd (centred y') = Ok (u2, s2, v2) /\
        svd (matmul_rows (transpose u1) u2) = Ok (u, diag, v) /\
        length diag = Nat.min (ncols x') (ncols y') /\
        d = fsub fone (fdiv (fsum diag) (of_nat (Nat.min (ncols x') (ncols y'))))
  | Raise e => exists z, svd z = Raise e
  end.
Proof.
  intros Hc Hwx Hwy Hxy Hm Hsx Hsy. cbn zeta.
  destruct (svd_reduction_Ok svd x Cca.default_accept_rate _ _ _ Hc Hwx Hsx)
    as (Hrx & _ & Hnx & _ & _ & Hlx).
  destruct (svd_reduction_Ok svd y Cca.default_accept_rate _ _ _ Hc Hwy Hsy)
    as (Hry & _ & Hny & _ & _ & Hly).
  set (x' := matmul_rows x _) in *. set (y' := matmul_rows y _) in *.
  split_and!; [done..|].
  unfold Cca.svcca_distance. rewrite Hrx, Hry. bind_step.
  assert (nrows x' = nrows y') as Hxy' by congruence.
  pose proof (cca_total svd x' y' method Hc Hxy' Hlx Hly Hm) as Ht.
  rewrite (cca_unfold svd x' y' method Hxy' Hlx Hly Hm) in Ht |- *.
  pose proof (svd_cca_cases svd (centred x') (centred y') Hc Hxy') as Hcase.
  destruct (Cca._svd_cca svd (centred x') (centred y')) as [[[a b] diag]|e];
    bind_step; [|done].
  destruct Hcase as (u1 & s1 & v1 & u2 & s2 & v2 & u & v & H1 & H2 & H3 & _).
  destruct Ht as (_ & _ & _ & _ & Hlen).
  by exists u1, s1, v1, u2, s2, v2, u, diag, v.
Qed.

(** C1. On valid inputs with equal sample counts and at most [2^24]
    features: [svd_reduction] keeps of [x] and of [y] as many columns
    [k_x], [k_y] as cumulative ratios lie below [0.99]; [svcca_distance]
    then decomposes the centred reduced matrices and the product of their
    left singular vectors, whose singular values [diag] are the canonical
    correlations, and returns [1 - sum(diag) / min(k_x, k_y)]; it raises
    only what [torch.svd] raises. *)
Theorem svcca_distance_formula (svd : svd_fn) (x y : matrix) (method : string)
    (ux : matrix) (sx : list fval) (vx : matrix)
    (uy : matrix) (sy : list fval) (vy : matrix) :
  svd_contract svd -> valid x -> valid y -> nrows x = nrows y ->
  countable (ncols x) -> countable (ncols y) ->
  method = "svd" \/ method = "qr" ->
  svd x = Ok (ux, sx, vx) -> svd y = Ok (uy, sy, vy) ->
  let k_x := retained sx Cca.default_accept_rate in
  let k_y := retained sy Cca.default_accept_rate in
  let x' := matmul_rows x (slice_cols (Z.of_nat k_x) vx) in
  let y' := matmul_rows y (slice_cols (Z.of_nat k_y) vy) in
  ncols x' = k_x /\ ncols y' = k_y /\
  match Cca.svcca_distance svd x y method with
  | Ok d =>
      exists u1 s1 v1 u2 s2 v2 u diag v,
        svd (centred x') = Ok (u1, s1, v1) /\
        svd (centred y') = Ok (u2, s2, v2) /\
        svd (matmul_rows (transpose u1) u2) = Ok (u, diag, v) /\
        length diag = Nat.min k_x k_y /\
        d = fsub fone (fdiv (fsum diag) (of_nat (Nat.min k_x k_y)))
  | Raise e => exists z, svd z = Raise e
  end.
Proof.
  intros Hc [Hwx Hx] [Hwy Hy] Hxy Hnx Hny Hm Hsx Hsy. cbn zeta.
  destruct (Hc _ _ _ _ Hsx) as (_ & _ & _ & Hlx & _ & _ & Hvx); cbn in Hlx, Hvx.
  destruct (Hc _ _ _ _ Hsy) as (_ & _ & _ & Hly & _ & _ & Hvy); cbn in Hly, Hvy.
  pose proof (retained_le sx Cca.default_accept_rate) as Hkx.
  pose proof (retained_le sy Cca.default_accept_rate) as Hky.
  destruct (svcca_distance_cases svd x y method ux sx vx uy sy vy
              Hc Hwx Hwy Hxy Hm Hsx Hsy) as (_ & _ & Hd).
  rewrite !counted_countable in Hd by (unfold countable in *; lia).
  assert (ncols (matmul_rows x (slice_cols
            (Z.of_nat (retained sx Cca.default_accept_rate)) vx))
          = retained sx Cca.default_accept_rate) as Hcx.
  { cbn [ncols matmul_rows]. rewrite ncols_slice_cols by lia. lia. }
  assert (ncols (matmul_rows y (slice_cols
            (Z.of_nat (retained sy Cca.default_accept_rate)) vy))
          = retained sy Cca.default_accept_rate) as Hcy.
  { cbn [ncols matmul_rows]. rewrite ncols_slice_cols by lia. lia. }
  split_and!; [done..|]. by rewrite Hcx, Hcy in Hd.
Qed.

Lemma svcca_distance_formula_witness :
  let k_x := retained [Examples.int 4; Examples.int 2] Cca.default_accept_rate in
  let k_y := retained [Examples.int 4; Examples.int 2] Cca.default_accept_rate in
  let x' := matmul_rows Examples.x4 (slice_cols (Z.of_nat k_x) Examples.i2) in
  let y' := matmul_rows Examples.y5 (slice_cols (Z.of_nat k_y) Examples.p2) in
  ncols x' = k_x /\ ncols y' = k_y /\
  match Cca.svcca_distance Examples.svd Examples.x4 Examples.y5 "svd" with
  | Ok d =>
      exists u1 s1 v1 u2 s2 v2 u diag v,
        Examples.svd (centred x') = Ok (u1, s1, v1) /\
        Examples.svd (centred y') = Ok (u2, s2, v2) /\
        Examples.svd (matmul_rows (transpose u1) u2) = Ok (u, diag, v) /\
        length diag = Nat.min k_x k_y /\
        d = fsub fone (fdiv (fsum diag) (of_nat (Nat.min k_x k_y)))
  | Raise e => exists z, Examples.svd z = Raise e
  end.
Proof.
  apply (svcca_distance_formula Examples.svd Examples.x4 Examples.y5 "svd"
           Examples.u4 _ Examples.i2 Examples.u5 _ Examples.p2).
  - apply table_svd_contract.
  - split; [split; [reflexivity|repeat constructor]|cbn; lia].
  - split; [split; [reflexivity|repeat constructor]|cbn; lia].
  - reflexivity.
  - unfold countable. cbn. lia.
  - unfold countable. cbn. lia.
  - by left.
  - vm_compute. reflexivity.
  - vm_compute. reflexivity.
Defined.

(** ** The method argument *)

(** The package's [_cca] never looks at [method] once it has been asserted
    to be one of the two names. *)
Lemma cca_ignores_method svd x y :
  Cca._cca svd x y "qr" = Cca._cca svd x y "svd".
Proof. reflexivity. Qed.

Lemma legacy_zero_mean_0 x : exists xc, Legacy.zero_mean x 0 = Ok xc.
Proof. destruct (zero_mean_0 x) as (xc & Hxc & _). by exists xc. Qed.

(** The older script raises NotImplementedError for ["qr"] on inputs with
    equal sample counts, and fails its first assertion otherwise. *)
Lemma legacy_cca_qr svd x y :
  Legacy.cca svd x y "qr"
  = if decide (nrows x = nrows y) then Raise NotImplementedError
    else Raise AssertionError.
Proof.
  unfold Legacy.cca, py_assert.
  destruct (decide (nrows x = nrows y)) as [Hxy|Hxy].
  - rewrite (bool_decide_eq_true_2 (nrows x = nrows y)) by done. bind_step.
    rewrite bool_decide_eq_true_2 by by right. bind_step.
    destruct (legacy_zero_mean_0 x) as (xc & ->), (legacy_zero_mean_0 y) as (yc & ->).
    reflexivity.
  - rewrite (bool_decide_eq_false_2 (nrows x = nrows y)) by done. reflexivity.
Qed.

(** C3, on the package.  [_cca(x4, x4, "qr")] does not raise: it returns what
    the SVD computation returns, canonical correlations [1, 1]. *)
Theorem cca_qr_falls_through :
  Cca._cca Examples.svd Examples.x4 Examples.x4 "qr"
  = Cca._svd_cca Examples.svd Examples.x4 Examples.x4 /\
  exists a b,
    Cca._cca Examples.svd Examples.x4 Examples.x4 "qr"
    = Ok (a, b, [Examples.int 1; Examples.int 1]).
Proof.
  split.
  - apply (bool_decide_eq_true_1 _). vm_compute. reflexivity.
  - eexists _, _. vm_compute. reflexivity.
Qed.

(** ** Assertions of the two distances *)

(** X3. [svcca_distance] does not need more samples than features: the
    reductions keep at most [min(samples, features)] columns, so that on
    well-formed inputs with equal sample counts the reduced matrices pass
    the assertions of [_cca]; the call then decomposes the centred reduced
    matrices and the product of their left singular vectors, and returns
    [1 - sum(diag) / min(k_x, k_y)] for the [min(k_x, k_y)] singular values
    [diag] of that product, or raises what [torch.svd] raises. *)
Theorem svcca_distance_any_width (svd : svd_fn) (x y : matrix) (method : string)
    (ux : matrix) (sx : list fval) (vx : matrix)
    (uy : matrix) (sy : list fval) (vy : matrix) :
  svd_contract svd -> wf x -> wf y -> nrows x = nrows y ->
  method = "svd" \/ method = "qr" ->
  svd x = Ok (ux, sx, vx) -> svd y = Ok (uy, sy, vy) ->
  let x' := matmul_rows x
              (slice_cols (counted (retained sx Cca.default_accept_rate)) vx) in
  let y' := matmul_rows y
              (slice_cols (counted (retained sy Cca.default_accept_rate)) vy) in
  (ncols x' <= Nat.min (nrows x) (ncols x))%nat /\
  (ncols y' <= Nat.min (nrows y) (ncols y))%nat /\
  match Cca.svcca_distance svd x y method with
  | Ok d =>
      exists u1 s1 v1 u2 s2 v2 u diag v,
        svd (centred x') = Ok (u1, s1, v1) /\
        svd (centred y') = Ok (u2, s2, v2) /\
        svd (matmul_rows (transpose u1) u2) = Ok (u, diag, v) /\
        length diag = Nat.min (ncols x') (ncols y') /\
        d = fsub fone (fdiv (fsum diag) (of_nat (Nat.min (ncols x') (ncols y'))))
  | Raise e => exists z, svd z = Raise e
  end.
Proof.
  intros Hc Hwx Hwy Hxy Hm Hsx Hsy. cbn zeta.
  destruct (svd_reduction_Ok svd x Cca.default_accept_rate _ _ _ Hc Hwx Hsx)
    as (_ & _ & _ & _ & Hlx & _).
  destruct (svd_reduction_Ok svd y Cca.default_accept_rate _ _ _ Hc Hwy Hsy)
    as (_ & _ & _ & _ & Hly & _).
  destruct (Hc _ _ _ _ Hsx) as (_ & _ & _ & Hx & _); cbn in Hx.
  destruct (Hc _ _ _ _ Hsy) as (_ & _ & _ & Hy & _); cbn in Hy.
  destruct (svcca_distance_cases svd x y method ux sx vx uy sy vy
              Hc Hwx Hwy Hxy Hm Hsx Hsy) as (_ & _ & Hd).
  split_and!; [lia|lia|done].
Qed.

Lemma svcca_distance_any_width_witness :
  let s := [Examples.int 4; Examples.int 2; Examples.int 1; Examples.int 1] in
  let x' := matmul_rows Examples.wide
              (slice_cols (counted (retained s Cca.default_accept_rate))
                          Examples.wide_v) in
  (ncols x' <= Nat.min (nrows Examples.wide) (ncols Examples.wide))%nat /\
  (ncols x' <= Nat.min (nrows Examples.wide) (ncols Examples.wide))%nat /\
  match Cca.svcca_distance Examples.svd_wide Examples.wide Examples.wide "svd" with
  | Ok d =>
      exists u1 s1 v1 u2 s2 v2 u diag v,
        Examples.svd_wide (centred x') = Ok (u1, s1, v1) /\
        Examples.svd_wide (centred x') = Ok (u2, s2, v2) /\
        Examples.svd_wide (matmul_rows (transpose u1) u2) = Ok (u, diag, v) /\
        length diag = Nat.min (ncols x') (ncols x') /\
        d = fsub fone (fdiv (fsum diag) (of_nat (Nat.min (ncols x') (ncols x'))))
  | Raise e => exists z, Examples.svd_wide z = Raise e
  end.
Proof.
  apply (svcca_distance_any_width Examples.svd_wide Examples.wide Examples.wide
           "svd" Examples.wide_u _ Examples.wide_v Examples.wide_u _ Examples.wide_v).
  - apply table_svd_contract.
  - split; [reflexivity|repeat constructor].
  - split; [reflexivity|repeat constructor].
  - reflexivity.
  - by left.
  - vm_compute. reflexivity.
  - vm_compute. reflexivity.
Defined.

(** On that input, five features for four samples, the distance is [0]. *)
Example svcca_distance_wide :
  Cca.svcca_distance Examples.svd_wide Examples.wide Examples.wide "svd" = Ok fzero.
Proof. apply (bool_decide_eq_true_1 _). vm_compute. reflexivity. Qed.

(** [_cca] fails an assertion, whatever [torch.svd] is, when its inputs are
    not as it requires. *)
Lemma cca_asserts (svd : svd_fn) (x y : matrix) (method : string) :
  ~ (nrows x = nrows y /\ (ncols x <= nrows x)%nat /\ (ncols y <= nrows y)%nat /\
     (method = "svd" \/ method = "qr")) ->
  Cca._cca svd x y method = Raise AssertionError.
Proof.
  intros Hpre. unfold Cca._cca, py_assert.
  destruct (decide (nrows x = nrows y)) as [Hxy|Hxy];
    [rewrite (bool_decide_eq_true_2 _ Hxy)|by rewrite (bool_decide_eq_false_2 _ Hxy)].
  bind_step.
  destruct (decide (ncols x <= nrows x)%nat) as [Hx|Hx];
    [rewrite (bool_decide_eq_true_2 _ Hx)|by rewrite (bool_decide_eq_false_2 _ Hx)].
  destruct (decide (ncols y <= nrows y)%nat) as [Hy|Hy];
    [rewrite (bool_decide_eq_true_2 _ Hy)|by rewrite (bool_decide_eq_false_2 _ Hy)].
  cbn [andb]. bind_step.
  rewrite bool_decide_eq_false_2; [done|]. tauto.
Qed.

(** What a returning [_cca] has checked. *)
Lemma cca_Ok_pre svd x y method r :
  Cca._cca svd x y method = Ok r ->
  nrows x = nrows y /\ (ncols x <= nrows x)%nat /\ (ncols y <= nrows y)%nat /\
  (method = "svd" \/ method = "qr").
Proof.
  intros Hr.
  destruct (decide (nrows x = nrows y /\ (ncols x <= nrows x)%nat /\
                    (ncols y <= nrows y)%nat /\
                    (method = "svd" \/ method = "qr"))) as [|Hn]; [done|].
  by rewrite (cca_asserts svd x y method Hn) in Hr.
Qed.

(** X4. [pwcca_distance] fails an assertion, before [torch.svd] is called,
    as soon as the sample counts differ, one input has more features than
    samples, or the method is neither ["svd"] nor ["qr"]. *)
Theorem pwcca_distance_asserts (svd : svd_fn) (x y : matrix) (method : string) :
  ~ (nrows x = nrows y /\ (ncols x <= nrows x)%nat /\ (ncols y <= nrows y)%nat /\
     (method = "svd" \/ method = "qr")) ->
  Cca.pwcca_distance svd x y method = Raise AssertionError.
Proof.
  intros Hpre. unfold Cca.pwcca_distance. by rewrite cca_asserts.
Qed.

Lemma pwcca_distance_asserts_witness :
  Cca.pwcca_distance Examples.svd Examples.wide Examples.wide "svd"
  = Raise AssertionError.
Proof. apply pwcca_distance_asserts. cbn. lia. Defined.

(** X5. [svcca_distance] reduces both inputs first; when they then differ in
    sample count, or the method is unknown, it fails the assertion of
    [_cca]. *)
Theorem svcca_distance_asserts (svd : svd_fn) (x y : matrix) (method : string)
    (ux : matrix) (sx : list fval) (vx : matrix)
    (uy : matrix) (sy : list fval) (vy : matrix) :
  svd_contract svd -> wf x -> wf y ->
  svd x = Ok (ux, sx, vx) -> svd y = Ok (uy, sy, vy) ->
  nrows x <> nrows y \/ ~ (method = "svd" \/ method = "qr") ->
  Cca.svcca_distance svd x y method = Raise AssertionError.
Proof.
  intros Hc Hwx Hwy Hsx Hsy Hbad.
  destruct (svd_reduction_Ok svd x Cca.default_accept_rate _ _ _ Hc Hwx Hsx)
    as (Hrx & _ & Hnx & _ & _ & Hlx).
  destruct (svd_reduction_Ok svd y Cca.default_accept_rate _ _ _ Hc Hwy Hsy)
    as (Hry & _ & Hny & _ & _ & Hly).
  set (x' := matmul_rows x _) in *. set (y' := matmul_rows y _) in *.
  unfold Cca.svcca_distance. rewrite Hrx, Hry. bind_step.
  unfold Cca._cca, py_assert.
  destruct (decide (nrows x' = nrows y')) as [Hxy|Hxy];
    [rewrite (bool_decide_eq_true_2 _ Hxy)|by rewrite (bool_decide_eq_false_2 _ Hxy)].
  bind_step.
  rewrite (bool_decide_eq_true_2 _ Hlx), (bool_decide_eq_true_2 _ Hly).
  cbn [andb]. bind_step.
  rewrite bool_decide_eq_false_2; [done|].
  destruct Hbad as [Hbad|Hbad]; [congruence|done].
Qed.

Lemma svcca_distance_asserts_witness :
  Cca.svcca_distance Examples.svd Examples.x4 Examples.i2 "svd"
  = Raise AssertionError.
Proof.
  apply (svcca_distance_asserts Examples.svd Examples.x4 Examples.i2 "svd"
           Examples.u4 [Examples.int 4; Examples.int 2] Examples.i2
           Examples.i2 [Examples.int 1; Examples.int 1] Examples.i2).
  - apply table_svd_contract.
  - split; [reflexivity|repeat constructor].
  - split; [reflexivity|repeat constructor].
  - vm_compute. reflexivity.
  - vm_compute. reflexivity.
  - left. cbn. lia.
Defined.

(** ** Shapes of the canonical directions *)

Lemma svd_cca_wf svd x y a b diag :
  svd_contract svd -> Cca._svd_cca svd x y = Ok (a, b, diag) -> wf a /\ wf b.
Proof.
  intros Hc. unfold Cca._svd_cca.
  destruct (svd x) as [[[u_1 s_1] v_1]|e] eqn:H1; bind_step; [|done].
  destruct (Hc _ _ _ _ H1) as (_ & _ & _ & _ & Hv1 & _); cbn in Hv1.
  destruct (svd y) as [[[u_2 s_2] v_2]|e] eqn:H2; bind_step; [|done].
  destruct (Hc _ _ _ _ H2) as (_ & _ & _ & _ & Hv2 & _); cbn in Hv2.
  destruct (matmul (transpose u_1) u_2) as [uu|e]; bind_step; [|done].
  destruct (svd uu) as [[[u d] v]|e]; bind_step; [|done].
  destruct (matmul v_1 (diag_matrix (reciprocal s_1))) as [t1|e] eqn:Ht1;
    bind_step; [|done].
  destruct (matmul t1 u) as [a'|e] eqn:Ha; bind_step; [|done].
  destruct (matmul v_2 (diag_matrix (reciprocal s_2))) as [t2|e] eqn:Ht2;
    bind_step; [|done].
  destruct (matmul t2 v) as [b'|e] eqn:Hb; bind_step; [|done].
  intros [= <- <- _]. split.
  - eapply matmul_wf; [|exact Ha]. eapply matmul_wf; [exact Hv1|exact Ht1].
  - eapply matmul_wf; [|exact Hb]. eapply matmul_wf; [exact Hv2|exact Ht2].
Qed.

(** X6. On inputs that pass its assertions, [_cca] returns well-formed
    direction matrices [a] of shape [features_x x k] and [b] of shape
    [features_y x k] and [k] canonical correlations, where
    [k = min(features_x, features_y)], so that [x @ a] and [y @ b] are
    defined; otherwise it raises what [torch.svd] raises. *)
Theorem cca_shapes (svd : svd_fn) (x y : matrix) (method : string) :
  svd_contract svd ->
  nrows x = nrows y -> (ncols x <= nrows x)%nat -> (ncols y <= nrows y)%nat ->
  method = "svd" \/ method = "qr" ->
  match Cca._cca svd x y method with
  | Ok (a, b, diag) =>
      let k := Nat.min (ncols x) (ncols y) in
      wf a /\ nrows a = ncols x /\ ncols a = k /\
      wf b /\ nrows b = ncols y /\ ncols b = k /\
      length diag = k /\
      (exists xa, matmul x a = Ok xa /\ nrows xa = nrows x /\ ncols xa = k) /\
      (exists yb, matmul y b = Ok yb /\ nrows yb = nrows y /\ ncols yb = k)
  | Raise e => exists z, svd z = Raise e
  end.
Proof.
  intros Hc Hxy Hx Hy Hm.
  pose proof (cca_total svd x y method Hc Hxy Hx Hy Hm) as Ht.
  pose proof (cca_unfold svd x y method Hxy Hx Hy Hm) as Hcca.
  destruct (Cca._cca svd x y method) as [[[a b] diag]|e]; [|done].
  cbn zeta in *. destruct Ht as (Ha & Hak & Hb & Hbk & Hd).
  symmetry in Hcca. apply svd_cca_wf in Hcca as [Hwa Hwb]; [|done].
  split_and!; try done.
  - exists (matmul_rows x a). split; [by apply matmul_eq|done].
  - exists (matmul_rows y b). split; [by apply matmul_eq|done].
Qed.

Lemma cca_shapes_witness :
  match Cca._cca Examples.svd Examples.x4 Examples.x4 "svd" with
  | Ok (a, b, diag) =>
      let k := Nat.min (ncols Examples.x4) (ncols Examples.x4) in
      wf a /\ nrows a = ncols Examples.x4 /\ ncols a = k /\
      wf b /\ nrows b = ncols Examples.x4 /\ ncols b = k /\
      length diag = k /\
      (exists xa, matmul Examples.x4 a = Ok xa /\
                  nrows xa = nrows Examples.x4 /\ ncols xa = k) /\
      (exists yb, matmul Examples.x4 b = Ok yb /\
                  nrows yb = nrows Examples.x4 /\ ncols yb = k)
  | Raise e => exists z, Examples.svd z = Raise e
  end.
Proof.
  apply (cca_shapes Examples.svd Examples.x4 Examples.x4 "svd").
  - apply table_svd_contract.
  - reflexivity.
  - cbn. lia.
  - cbn. lia.
  - by left.
Defined.

(** ** The projection weights *)

Lemma fabs_fzero : fabs fzero = fzero.
Proof.
  unfold fabs, fzero, Qcabs.
  by rewrite decide_False by apply (irreflexivity (<) (0 : Qc)).
Qed.

(** Column [i] of [m.abs()] holds the absolute values of column [i] of [m]. *)
Lemma column_mabs i rows :
  column i (map (map fabs) rows) = map fabs (column i rows).
Proof.
  unfold column. rewrite !map_map. apply map_ext. intros r.
  rewrite <-fabs_fzero at 1. apply map_nth.
Qed.

Lemma length_sum_dim0 m : length (sum_dim0 m) = ncols m.
Proof. unfold sum_dim0. by rewrite length_map, length_columns. Qed.

(** Entry [i] of [m.abs().sum(dim=0)] is the sum over the rows of the
    absolute values of column [i]. *)
Lemma sum_dim0_mabs m :
  sum_dim0 (mabs m)
  = map (fun i => fsum (map fabs (column i (mrows m)))) (seq 0 (ncols m)).
Proof.
  unfold sum_dim0, columns. cbn [ncols mabs mrows]. rewrite map_map.
  apply map_ext. intros i. by rewrite column_mabs.
Qed.

Lemma add_with_fin_inv rnd x y : is_fin (add_with rnd x y) -> is_fin x /\ is_fin y.
Proof. by destruct x, y. Qed.

Lemma foldl_fadd_fin_inv acc l :
  is_fin (foldl fadd acc l) -> is_fin acc /\ Forall is_fin l.
Proof.
  revert acc. induction l as [|x l IH]; intros acc; cbn [foldl]; [by split|].
  intros [[Ha Hx]%add_with_fin_inv Hl]%IH. by split; [|constructor].
Qed.

(** A sum that is a number has only numbers as entries. *)
Lemma fsum_fin_inv l : is_fin (fsum l) -> Forall is_fin l.
Proof. intros H. by apply foldl_fadd_fin_inv in H as [_ ?]. Qed.

Lemma Forall_fabs_nonneg l : Forall is_fin l -> Forall nonneg (map fabs l).
Proof.
  induction 1 as [|x l Hx _ IH]; [constructor|]. destruct x; try done.
  constructor; [apply Qcabs_nonneg|done].
Qed.

(** A sum of absolute values that is a number is a running sum. *)
Lemma fsum_fabs_running l : is_fin (fsum (map fabs l)) -> running f32 (fsum (map fabs l)).
Proof.
  intros Hfin. pose proof (fsum_fin_inv _ Hfin) as Hl.
  assert (Forall is_fin l) as Hl'.
  { rewrite Forall_map in Hl. eapply Forall_impl; [exact Hl|]. by intros []. }
  apply (foldl_add_running binary32);
    [apply proper_binary32|apply running_zero32|by apply Forall_fabs_nonneg|done].
Qed.

(** A float32 sum of running sums is at least each of them. *)
Lemma foldl_fadd_ge acc l :
  running f32 acc -> Forall (running f32) l -> Forall is_fin l ->
  Forall (fun x => fle x (foldl fadd acc l)) l.
Proof.
  intros Hacc Hl Hfin. revert acc Hacc.
  induction Hl as [|x l Hx Hl IH]; intros acc Hacc; [constructor|].
  apply Forall_cons in Hfin as [Hxf Hfin]. cbn [foldl].
  destruct x as [q| | |]; try done.
  destruct Hx as [[=]|(q' & [= <-] & Hq & Hrep)].
  destruct (add_with_running binary32 acc q proper_binary32 Hacc Hq) as [Hr Hle].
  fold f32 in Hr, Hle. fold fadd in Hr, Hle.
  assert (Forall nonneg l /\ True) as [Hn _].
  { split; [|done]. eapply Forall_impl; [exact Hl|]. intros ?. apply running_nonneg. }
  destruct (foldl_add_running binary32 (fadd acc (Fin q)) l proper_binary32 Hr Hn Hfin)
    as [_ Hle'].
  fold f32 in Hle'. fold fadd in Hle'.
  constructor; [|by apply IH].
  eapply fle_trans; [|exact Hle'].
  destruct Hacc as [->|(a & -> & Ha & _)]; [done|].
  cbn [fadd add_with]. rewrite <-Hrep at 1. apply f32_mono.
  rewrite <-(Qcplus_0_l q) at 1. by apply Qcplus_le_mono_r.
Qed.

Lemma fsum_ge l :
  Forall (running f32) l -> Forall is_fin l ->
  Forall (fun x => fle x (fsum l)) l.
Proof. apply foldl_fadd_ge, running_zero32. Qed.

(** A running sum over a total that is at least as large, a number and not
    zero, is a number between [0] and [1]. *)
Lemma fdiv_in_unit x t :
  running f32 x -> fle x t -> is_fin t -> t <> fzero -> in_unit (fdiv x t).
Proof.
  destruct t as [A| | |]; try done. intros Hx Hle _ Hne.
  destruct Hx as [->|(q & -> & Hq & _)]; [done|]. cbn in Hle. cbn [fdiv].
  assert (A <> 0) as HA by (intros ->; by apply Hne).
  rewrite decide_False by done.
  assert (0 < A) as Hpos.
  { assert (0 ≤ A) as H0 by by apply Qcle_trans with q.
    by apply Qcle_lt_or_eq in H0 as [?|?]. }
  assert (0 ≤ / A) as Hinv by by apply Qclt_le_weak, Qcinv_pos.
  apply (f32_between (q / A) 0 1); [apply f32_0|apply f32_1|..].
  - by apply Qcmult_nonneg_nonneg.
  - replace 1 with (A * / A) by (by field). by apply Qcmult_le_compat_r.
Qed.

(** Weights [alpha / sum(alpha)]: when the sum is a number that is not zero,
    every weight is a number between [0] and [1]. *)
Lemma weights_in_unit (cols : list (list fval)) :
  let alpha := map (fun c => fsum (map fabs c)) cols in
  is_fin (fsum alpha) -> fsum alpha <> fzero ->
  Forall in_unit (map (fun al => fdiv al (fsum alpha)) alpha).
Proof.
  intros alpha Hfin Hne.
  pose proof (fsum_fin_inv _ Hfin) as Hal.
  assert (Forall (running f32) alpha) as Hrun.
  { unfold alpha in *. rewrite Forall_map in Hal |- *.
    eapply Forall_impl; [exact Hal|]. intros c. apply fsum_fabs_running. }
  pose proof (fsum_ge alpha Hrun Hal) as Hge.
  apply Forall_map. rewrite Forall_forall in Hrun, Hge |- *. intros al Hin.
  apply fdiv_in_unit; auto.
Qed.

(** C6, as it holds.  On valid inputs with equal sample counts, whenever
    [pwcca_distance] returns it returns [1 - weights . diag]: [diag] are the
    singular values of the product of the left singular vectors of the
    centred [x] and [y], [a] is [V1 diag(1/S1) U], [alpha_i] is the sum over
    the samples of the absolute values of column [i] of [x @ a], and
    [weights] is [alpha / sum(alpha)]; when [sum(alpha)] is a number that is
    not zero, every weight is a number between [0] and [1].  It raises only
    what [torch.svd] raises. *)
Theorem pwcca_distance_formula (svd : svd_fn) (x y : matrix) (method : string) :
  svd_contract svd -> valid x -> valid y -> nrows x = nrows y ->
  method = "svd" \/ method = "qr" ->
  match Cca.pwcca_distance svd x y method with
  | Ok d =>
      exists u1 s1 v1 u2 s2 v2 u diag v,
        svd (centred x) = Ok (u1, s1, v1) /\
        svd (centred y) = Ok (u2, s2, v2) /\
        svd (matmul_rows (transpose u1) u2) = Ok (u, diag, v) /\
        let a := matmul_rows (matmul_rows v1 (diag_matrix (reciprocal s1))) u in
        let xa := matmul_rows x a in
        let alpha :=
          map (fun i => fsum (map fabs (column i (mrows xa)))) (seq 0 (length diag)) in
        let weights := map (fun al => fdiv al (fsum alpha)) alpha in
        (is_fin (fsum alpha) -> fsum alpha <> fzero -> Forall in_unit weights) /\
        d = fsub fone (dot weights diag)
  | Raise e => exists z, svd z = Raise e
  end.
Proof.
  intros Hc [Hwx Hx] [Hwy Hy] Hxy Hm.
  pose proof (cca_total svd x y method Hc Hxy Hx Hy Hm) as Ht.
  unfold Cca.pwcca_distance.
  rewrite (cca_unfold svd x y method Hxy Hx Hy Hm) in Ht |- *.
  pose proof (svd_cca_cases svd (centred x) (centred y) Hc Hxy) as Hcase.
  destruct (Cca._svd_cca svd (centred x) (centred y)) as [[[a b] diag]|e];
    bind_step; [|done].
  destruct Hcase as (u1 & s1 & v1 & u2 & s2 & v2 & u & v & H1 & H2 & H3 & Ha & _).
  destruct Ht as (Han & Hak & _ & _ & Hd).
  rewrite (matmul_eq x a) by done. bind_step.
  assert (ncols (matmul_rows x a) = length diag) as Hk by (cbn; congruence).
  unfold vdot, vdiv. rewrite decide_True
    by (rewrite length_map, length_sum_dim0; cbn; congruence).
  bind_step. rewrite sum_dim0_mabs, Hk, Ha.
  exists u1, s1, v1, u2, s2, v2, u, diag, v. split_and!; [done..| |done].
  intros Hfin Hne.
  pose proof (weights_in_unit
                (map (fun i => column i (mrows (matmul_rows x
                   (matmul_rows (matmul_rows v1 (diag_matrix (reciprocal s1))) u))))
                     (seq 0 (length diag)))) as Hw.
  cbn zeta in Hw. rewrite !map_map in Hw. rewrite map_map. by apply Hw.
Qed.

Lemma pwcca_distance_formula_witness :
  match Cca.pwcca_distance Examples.svd Examples.x4 Examples.x4 "svd" with
  | Ok d =>
      exists u1 s1 v1 u2 s2 v2 u diag v,
        Examples.svd (centred Examples.x4) = Ok (u1, s1, v1) /\
        Examples.svd (centred Examples.x4) = Ok (u2, s2, v2) /\
        Examples.svd (matmul_rows (transpose u1) u2) = Ok (u, diag, v) /\
        let a := matmul_rows (matmul_rows v1 (diag_matrix (reciprocal s1))) u in
        let xa := matmul_rows Examples.x4 a in
        let alpha :=
          map (fun i => fsum (map fabs (column i (mrows xa)))) (seq 0 (length diag)) in
        let weights := map (fun al => fdiv al (fsum alpha)) alpha in
        (is_fin (fsum alpha) -> fsum alpha <> fzero -> Forall in_unit weights) /\
        d = fsub fone (dot weights diag)
  | Raise e => exists z, Examples.svd z = Raise e
  end.
Proof.
  apply (pwcca_distance_formula Examples.svd Examples.x4 Examples.x4 "svd").
  - apply table_svd_contract.
  - split; [split; [reflexivity|repeat constructor]|cbn; lia].
  - split; [split; [reflexivity|repeat constructor]|cbn; lia].
  - reflexivity.
  - by left.
Defined.

(** Here the call returns, and returns [0]. *)
Example pwcca_distance_x4 :
  Cca.pwcca_distance Examples.svd Examples.x4 Examples.x4 "svd" = Ok fzero.
Proof. apply (bool_decide_eq_true_1 _). vm_compute. reflexivity. Qed.

(** C6, as stated, fails: the weights are not always normalised to sum to
    [1].  A constant column is valid; it is centred to zero, its singular
    value [0] has reciprocal infinity, [alpha] is infinite, and the weight
    [alpha / sum(alpha)] is NaN, as is the distance. *)
Lemma pwcca_weights_nan :
  valid Examples.c4 /\
  exists a b diag xa,
    Cca._cca Examples.svd Examples.c4 Examples.c4 "svd" = Ok (a, b, diag) /\
    matmul Examples.c4 a = Ok xa /\
    let alpha := sum_dim0 (mabs xa) in
    let weights := vdiv alpha (fsum alpha) in
    alpha = [PInf] /\ weights = [NaN] /\ fsum weights <> fone /\
    Cca.pwcca_distance Examples.svd Examples.c4 Examples.c4 "svd" = Ok NaN.
Proof.
  split; [split; [split; [reflexivity|repeat constructor]|cbn; lia]|].
  eexists _, _, _, _. split; [vm_compute; reflexivity|].
  split; [vm_compute; reflexivity|].
  cbn zeta. split_and!; [by vm_compute|by vm_compute|by vm_compute|].
  vm_compute. reflexivity.
Qed.

(** With the method ["svd"], on inputs that pass the package's assertions,
    the two files compute the same PWCCA distance. *)
Lemma legacy_pwcca_distance svd x y :
  nrows x = nrows y -> (ncols x <= nrows x)%nat -> (ncols y <= nrows y)%nat ->
  Legacy.pwcca_distance svd x y "svd" = Cca.pwcca_distance svd x y "svd".
Proof.
  intros Hxy Hx Hy.
  unfold Legacy.pwcca_distance, Cca.pwcca_distance, Legacy.cca, Cca._cca, py_assert.
  rewrite (bool_decide_eq_true_2 (nrows x = nrows y)) by done.
  rewrite (bool_decide_eq_true_2 (ncols x <= nrows x)%nat) by done.
  rewrite (bool_decide_eq_true_2 (ncols y <= nrows y)%nat) by done.
  reflexivity.
Qed.

(** ** The range of the SVCCA distance *)

(** One more than a count that float32 holds is the next count, up to
    [2^24], where it stays. *)
Lemma f32_counted_succ (j : nat) :
  f32 (Qc_of_Z (counted j) + 1) = Fin (Qc_of_Z (counted (S j))).
Proof.
  rewrite <-Z2Qc_inj_1, <-Z2Qc_inj_add. unfold counted.
  destruct (decide (Z.of_nat j < 2 ^ 24)%Z) as [Hj|Hj].
  - rewrite f32_Z by lia. do 2 f_equal. lia.
  - replace (Z.min (Z.of_nat j) (2 ^ 24) + 1)%Z with (2 ^ 24 + 1)%Z by lia.
    rewrite f32_saturated. do 2 f_equal. lia.
Qed.

(** A float32 sum of numbers between [0] and [1] lies between [0] and their
    float32 count. *)
Lemma foldl_fadd_in_unit (a : Qc) (j : nat) l :
  0 ≤ a -> a ≤ Qc_of_Z (counted j) -> Forall in_unit l ->
  exists s, foldl fadd (Fin a) l = Fin s /\ 0 ≤ s /\
            s ≤ Qc_of_Z (counted (j + length l)).
Proof.
  intros Ha0 Ha Hl. revert a j Ha0 Ha.
  induction Hl as [|x l (q & -> & Hq0 & Hq1) _ IH]; intros a j Ha0 Ha.
  - exists a. rewrite Nat.add_0_r. by split_and!.
  - cbn [foldl length]. rewrite fadd_Fin.
    assert (exists b, f32 (a + q) = Fin b /\ 0 ≤ b /\ b ≤ Qc_of_Z (counted (S j)))
      as (b & -> & Hb0 & Hb).
    { apply fle_between.
      - change (Fin 0) with fzero. rewrite <-f32_0. apply f32_mono.
        by apply Qcplus_nonneg_nonneg.
      - rewrite <-f32_counted_succ. apply f32_mono. by apply Qcplus_le_compat. }
    replace (j + S (length l))%nat with (S j + length l)%nat by lia.
    by apply IH.
Qed.

Lemma fsum_in_unit l :
  Forall in_unit l ->
  exists s, fsum l = Fin s /\ 0 ≤ s /\ fle (Fin s) (of_nat (length l)).
Proof.
  intros Hl.
  destruct (foldl_fadd_in_unit 0 0 l) as (s & Hs & Hs0 & Hs1); [done|done|done|].
  exists s. split_and!; [done..|].
  apply fle_trans with (Fin (Qc_of_Z (counted (length l)))); [exact Hs1|].
  unfold of_nat, counted.
  rewrite <-(f32_Z (Z.min (Z.of_nat (length l)) (2 ^ 24))) by lia.
  apply f32_mono. apply (proj1 (Z2Qc_inj_le _ _)). lia.
Qed.

Lemma of_nat_ge_one n : (1 <= n)%nat -> fle fone (of_nat n).
Proof.
  intros Hn. rewrite <-f32_1. apply f32_mono.
  rewrite <-Z2Qc_inj_1. apply (proj1 (Z2Qc_inj_le _ _)). lia.
Qed.

Lemma fsub_one_in_unit t : in_unit t -> in_unit (fsub fone t).
Proof.
  intros (q & -> & Hq0 & Hq1). unfold fsub, fone. cbn [fneg]. rewrite fadd_Fin.
  apply (f32_between (1 + - q) 0 1); [apply f32_0|apply f32_1|..].
  - apply Qcle_minus_iff in Hq1. exact Hq1.
  - apply Qcopp_le_compat in Hq0.
    replace 1 with (1 + - 0) at 2 by ring. by apply Qcplus_le_mono_l.
Qed.

Lemma svcca_formula_in_unit diag :
  Forall in_unit diag -> (1 <= length diag)%nat ->
  in_unit (fsub fone (fdiv (fsum diag) (of_nat (length diag)))).
Proof.
  intros Hd Hk. destruct (fsum_in_unit diag Hd) as (s & -> & Hs0 & Hs1).
  pose proof (of_nat_ge_one _ Hk) as H1.
  apply fsub_one_in_unit.
  destruct (of_nat (length diag)) as [n| | |]; cbn in Hs1, H1; try done.
  - cbn [fdiv].
    assert (0 < n) as Hpos by (by apply Qclt_le_trans with 1).
    rewrite decide_False by (intros ->; by apply (irreflexivity (<) (0 : Qc))).
    assert (0 ≤ / n) as Hinv by by apply Qclt_le_weak, Qcinv_pos.
    apply (f32_between (s / n) 0 1); [apply f32_0|apply f32_1|..].
    + by apply Qcmult_nonneg_nonneg.
    + replace 1 with (n * / n)
        by (field; intros ->; by apply (irreflexivity (<) (0 : Qc))).
      by apply Qcmult_le_compat_r.
  - exists 0. by split_and!.
Qed.

(** X7. When the canonical correlations of the reduced matrices lie in
    [[0, 1]] and the reduction has kept a column of each input, the SVCCA
    distance is returned and lies in [[0, 1]]. *)
Theorem svcca_distance_range (svd : svd_fn) (x y : matrix) (method : string)
    (x' y' a b : matrix) (diag : list fval) :
  svd_contract svd ->
  Cca.svd_reduction svd x Cca.default_accept_rate = Ok x' ->
  Cca.svd_reduction svd y Cca.default_accept_rate = Ok y' ->
  Cca._cca svd x' y' method = Ok (a, b, diag) ->
  Forall in_unit diag -> (1 <= ncols x')%nat -> (1 <= ncols y')%nat ->
  exists d, Cca.svcca_distance svd x y method = Ok d /\ in_unit d.
Proof.
  intros Hc Hrx Hry Hcca Hd Hkx Hky.
  destruct (cca_Ok_pre _ _ _ _ _ Hcca) as (Hxy & Hx & Hy & Hm).
  pose proof (cca_total svd x' y' method Hc Hxy Hx Hy Hm) as Ht.
  rewrite Hcca in Ht. destruct Ht as (_ & _ & _ & _ & Hlen).
  unfold Cca.svcca_distance. rewrite Hrx, Hry. bind_step. rewrite Hcca. bind_step.
  eexists. split; [done|]. rewrite <-Hlen.
  apply svcca_formula_in_unit; [done|lia].
Qed.

Lemma svcca_distance_range_witness :
  exists d,
    Cca.svcca_distance Examples.svd Examples.x4 Examples.y5 "svd" = Ok d /\
    in_unit d.
Proof.
  apply (svcca_distance_range Examples.svd Examples.x4 Examples.y5 "svd"
           Examples.xr Examples.yr
           (of_rows [[Examples.rat 1 4]]) (of_rows [[Examples.rat 1 4]])
           [Examples.int 0]).
  - apply table_svd_contract.
  - apply (bool_decide_eq_true_1 _). vm_compute. reflexivity.
  - apply (bool_decide_eq_true_1 _). vm_compute. reflexivity.
  - apply (bool_decide_eq_true_1 _). vm_compute. reflexivity.
  - constructor; [|constructor]. exists 0. split; [|split]; by vm_compute.
  - cbn. lia.
  - cbn. lia.
Defined.

(** ** The older script against the package *)

Lemma legacy_cca_svd svd x y :
  nrows x = nrows y -> (ncols x <= nrows x)%nat -> (ncols y <= nrows y)%nat ->
  Legacy.cca svd x y "svd" = Cca._cca svd x y "svd".
Proof.
  intros Hxy Hx Hy. unfold Legacy.cca, Cca._cca, py_assert.
  rewrite (bool_decide_eq_true_2 (nrows x = nrows y)) by done.
  rewrite (bool_decide_eq_true_2 (ncols x <= nrows x)%nat) by done.
  rewrite (bool_decide_eq_true_2 (ncols y <= nrows y)%nat) by done.
  reflexivity.
Qed.

Lemma count_positive_all diag :
  Forall (fun c => fgt c fzero = true) diag ->
  Legacy.count_positive diag = length diag.
Proof.
  unfold Legacy.count_positive. induction 1 as [|c diag Hc _ IH]; [done|].
  rewrite filter_cons, decide_True by done. cbn [length]. by f_equal.
Qed.

(** X9. The two files return the same SVCCA distance whenever every
    canonical correlation of the reduced matrices is positive: the number of
    positive correlations is then [min(k_x, k_y)]. *)
Theorem legacy_svcca_agrees (svd : svd_fn) (x y x' y' a b : matrix)
    (diag : list fval) :
  svd_contract svd ->
  Cca.svd_reduction svd x Cca.default_accept_rate = Ok x' ->
  Cca.svd_reduction svd y Cca.default_accept_rate = Ok y' ->
  Cca._cca svd x' y' "svd" = Ok (a, b, diag) ->
  Forall (fun c => fgt c fzero = true) diag ->
  Legacy.svcca_distance svd x y "svd" = Cca.svcca_distance svd x y "svd".
Proof.
  intros Hc Hrx Hry Hcca Hpos.
  destruct (cca_Ok_pre _ _ _ _ _ Hcca) as (Hxy & Hx & Hy & Hm).
  pose proof (cca_total svd x' y' "svd" Hc Hxy Hx Hy Hm) as Ht.
  rewrite Hcca in Ht. destruct Ht as (_ & _ & _ & _ & Hlen).
  unfold Legacy.svcca_distance, Cca.svcca_distance.
  change (Legacy.svd_reduction svd) with (Cca.svd_reduction svd).
  rewrite Hrx, Hry. bind_step.
  rewrite legacy_cca_svd, Hcca by done. bind_step.
  by rewrite count_positive_all, Hlen.
Qed.

Lemma legacy_svcca_agrees_witness :
  Legacy.svcca_distance Examples.svd Examples.x4 Examples.x4 "svd"
  = Cca.svcca_distance Examples.svd Examples.x4 Examples.x4 "svd".
Proof.
  eapply (legacy_svcca_agrees Examples.svd Examples.x4 Examples.x4).
  - apply table_svd_contract.
  - vm_compute. reflexivity.
  - vm_compute. reflexivity.
  - vm_compute. reflexivity.
  - constructor; [|constructor]. by vm_compute.
Defined.

(** X10. In the older script both distances raise NotImplementedError for
    the method ["qr"] on well-formed inputs with equal sample counts: PWCCA
    at once, SVCCA after the two reductions. *)
Theorem legacy_distances_qr (svd : svd_fn) (x y : matrix)
    (ux : matrix) (sx : list fval) (vx : matrix)
    (uy : matrix) (sy : list fval) (vy : matrix) :
  svd_contract svd -> wf x -> wf y -> nrows x = nrows y ->
  svd x = Ok (ux, sx, vx) -> svd y = Ok (uy, sy, vy) ->
  Legacy.pwcca_distance svd x y "qr" = Raise NotImplementedError /\
  Legacy.svcca_distance svd x y "qr" = Raise NotImplementedError.
Proof.
  intros Hc Hwx Hwy Hxy Hsx Hsy. split.
  - unfold Legacy.pwcca_distance. by rewrite legacy_cca_qr, decide_True.
  - destruct (svd_reduction_Ok svd x Cca.default_accept_rate _ _ _ Hc Hwx Hsx)
      as (Hrx & _ & Hnx & _).
    destruct (svd_reduction_Ok svd y Cca.default_accept_rate _ _ _ Hc Hwy Hsy)
      as (Hry & _ & Hny & _).
    unfold Legacy.svcca_distance.
    change (Legacy.svd_reduction svd) with (Cca.svd_reduction svd).
    rewrite Hrx, Hry. bind_step.
    rewrite legacy_cca_qr, decide_True by congruence. done.
Qed.

Lemma legacy_distances_qr_witness :
  Legacy.pwcca_distance Examples.svd Examples.x4 Examples.y5 "qr"
  = Raise NotImplementedError /\
  Legacy.svcca_distance Examples.svd Examples.x4 Examples.y5 "qr"
  = Raise NotImplementedError.
Proof.
  apply (legacy_distances_qr Examples.svd Examples.x4 Examples.y5
           Examples.u4 [Examples.int 4; Examples.int 2] Examples.i2
           Examples.u5 [Examples.int 4; Examples.int 2] Examples.p2).
  - apply table_svd_contract.
  - split; [reflexivity|repeat constructor].
  - split; [reflexivity|repeat constructor].
  - reflexivity.
  - vm_compute. reflexivity.
  - vm_compute. reflexivity.
Defined.

(** ** The size guard of the convolutional adapter *)

Lemma tuple_gt_spec (s h w : Z) :
  Conv.tuple_gt (s, s) (h, w) = true <-> (s > h \/ (s = h /\ s > w))%Z.
Proof.
  unfold Conv.tuple_gt. cbn. case_decide; rewrite bool_decide_eq_true; lia.
Qed.

(** When the guard raises, [size] exceeds the height or the width. *)
Lemma conv2d_reshape_raise_sound pool t (size : Z) :
  Conv.tuple_gt (size, size) (Z.of_nat (Conv.dim_h t), Z.of_nat (Conv.dim_w t)) = true ->
  Conv._conv2d_reshape pool t (Some size) = Raise RuntimeError /\
  (size > Z.of_nat (Conv.dim_h t) \/ size > Z.of_nat (Conv.dim_w t))%Z.
Proof.
  intros Hg. split.
  - unfold Conv._conv2d_reshape. by rewrite Hg.
  - apply tuple_gt_spec in Hg. lia.
Qed.

(** A size within both dimensions passes the guard. *)
Lemma conv2d_reshape_within pool t (size : Z) :
  (size <= Z.of_nat (Conv.dim_h t))%Z -> (size <= Z.of_nat (Conv.dim_w t))%Z ->
  Conv._conv2d_reshape pool t (Some size)
  = (t' ← pool t size; Conv.reshape_permute (Conv.dim_b t) (Conv.dim_c t) t').
Proof.
  intros Hh Hw. unfold Conv._conv2d_reshape.
  destruct (Conv.tuple_gt _ _) eqn:Hg; [|done].
  apply tuple_gt_spec in Hg. lia.
Qed.

(** C4, at a feature map of height 10 and width 3 with [size = 5]: the size
    exceeds the width, yet the guard lets it through and the tensor goes to
    [adaptive_avg_pool2d]. *)
Theorem conv2d_reshape_size_over_width
    (adaptive_avg_pool2d : Conv.tensor4 -> Z -> result Conv.tensor4) :
  Conv._conv2d_reshape adaptive_avg_pool2d Examples.t_10x3 (Some 5%Z)
  = (t ← adaptive_avg_pool2d Examples.t_10x3 5%Z; Conv.reshape_permute 1 1 t).
Proof. reflexivity. Qed.

(** ** The convolutional adapter *)

Lemma nth_concat_uniform {A} (L : list (list A)) (n a b : nat) (d : A) :
  Forall (fun r => length r = n) L -> (b < n)%nat ->
  nth (a * n + b) (concat L) d = nth b (nth a L []) d.
Proof.
  intros HL Hb. revert a. induction HL as [|r L Hr _ IH]; intros a.
  - cbn [concat]. replace (nth a [] []) with (@nil A) by by destruct a.
    by destruct (a * n + b)%nat, b.
  - destruct a as [|a]; cbn [concat nth].
    + rewrite Nat.mul_0_l, Nat.add_0_l. apply app_nth1. lia.
    + rewrite app_nth2 by lia.
      replace (S a * n + b - length r)%nat with (a * n + b)%nat by lia.
      apply IH.
Qed.

Lemma wf4_uniform t :
  wf4 t ->
  Forall (fun img => length img = Conv.dim_c t) (Conv.t4data t) /\
  Forall (fun ch => length ch = Conv.dim_h t) (concat (Conv.t4data t)) /\
  Forall (fun row => length row = Conv.dim_w t) (concat (concat (Conv.t4data t))).
Proof.
  intros [_ Hw]. split_and!.
  - eapply Forall_impl; [exact Hw|]. by intros img [? _].
  - apply Forall_concat. eapply Forall_impl; [exact Hw|].
    intros img [_ Hi]. eapply Forall_impl; [exact Hi|]. by intros ch [? _].
  - apply Forall_concat, Forall_concat. eapply Forall_impl; [exact Hw|].
    intros img [_ Hi]. eapply Forall_impl; [exact Hi|]. by intros ch [_ ?].
Qed.

(** The row-major position of entry [(i, j, r, q)]. *)
Lemma flat_entry t i j r q v :
  wf4 t -> entry4 t i j r q = Some v ->
  (i < Conv.dim_b t /\ j < Conv.dim_c t /\ r < Conv.dim_h t /\ q < Conv.dim_w t)%nat /\
  nth (((i * Conv.dim_c t + j) * Conv.dim_h t + r) * Conv.dim_w t + q)
      (concat (concat (concat (Conv.t4data t)))) fzero = v.
Proof.
  intros Hw He. destruct (wf4_uniform t Hw) as (Hc & Hh & Hww).
  destruct Hw as [Hb Hw]. unfold entry4 in He.
  destruct (Conv.t4data t !! i) as [img|] eqn:Hi; [|done].
  destruct (img !! j) as [ch|] eqn:Hj; [|done].
  destruct (ch !! r) as [row|] eqn:Hr; [|done].
  rewrite Forall_lookup in Hw. destruct (Hw _ _ Hi) as [Hli Hwi].
  rewrite Forall_lookup in Hwi. destruct (Hwi _ _ Hj) as [Hlc Hwc].
  rewrite Forall_lookup in Hwc. pose proof (Hwc _ _ Hr) as Hlr. cbn in Hlr.
  pose proof (lookup_lt_Some _ _ _ Hi). pose proof (lookup_lt_Some _ _ _ Hj).
  pose proof (lookup_lt_Some _ _ _ Hr). pose proof (lookup_lt_Some _ _ _ He).
  split; [lia|].
  rewrite (nth_concat_uniform _ (Conv.dim_w t)) by (done || lia).
  rewrite (nth_concat_uniform _ (Conv.dim_h t)) by (done || lia).
  rewrite (nth_concat_uniform _ (Conv.dim_c t)) by (done || lia).
  rewrite (nth_lookup_Some _ _ _ _ Hi), (nth_lookup_Some _ _ _ _ Hj),
    (nth_lookup_Some _ _ _ _ Hr).
  by apply nth_lookup_Some.
Qed.

Lemma reshape_permute_own t :
  (1 <= Conv.dim_b t * Conv.dim_c t)%nat ->
  Conv.reshape_permute (Conv.dim_b t) (Conv.dim_c t) t
  = Ok (map (fun p =>
              Matrix (Conv.dim_b t) (Conv.dim_c t)
                (map (fun i =>
                        map (fun j =>
                               nth ((i * Conv.dim_c t + j)
                                    * (Conv.dim_h t * Conv.dim_w t) + p)
                                   (concat (concat (concat (Conv.t4data t)))) fzero)
                            (seq 0 (Conv.dim_c t)))
                     (seq 0 (Conv.dim_b t))))
           (seq 0 (Conv.dim_h t * Conv.dim_w t))).
Proof.
  intros Hbc. unfold Conv.reshape_permute, Conv.numel.
  set (bc := (Conv.dim_b t * Conv.dim_c t)%nat) in *.
  assert ((bc * Conv.dim_h t * Conv.dim_w t)%nat
          = (Conv.dim_h t * Conv.dim_w t * bc)%nat) as -> by lia.
  rewrite Nat.Div0.mod_mul, Nat.div_mul by lia.
  rewrite decide_False by lia. done.
Qed.

(** X11. Without a target size, [_conv2d_reshape] turns a well-formed
    [(b, c, h, w)] tensor with [b * c > 0] into [h * w] well-formed matrices
    of shape [b x c], one per spatial location: entry [(i, j)] of matrix
    [r * w + q] is entry [(i, j, r, q)] of the tensor. *)
Theorem conv2d_reshape_locations
    (pool : Conv.tensor4 -> Z -> result Conv.tensor4) (t : Conv.tensor4) :
  wf4 t -> (1 <= Conv.dim_b t * Conv.dim_c t)%nat ->
  exists ts,
    Conv._conv2d_reshape pool t None = Ok ts /\
    length ts = (Conv.dim_h t * Conv.dim_w t)%nat /\
    Forall (fun m => wf m /\ nrows m = Conv.dim_b t /\ ncols m = Conv.dim_c t) ts /\
    forall i j r q v,
      entry4 t i j r q = Some v ->
      exists m, ts !! (r * Conv.dim_w t + q)%nat = Some m /\ entry m i j = Some v.
Proof.
  intros Hw Hbc. eexists. split.
  { unfold Conv._conv2d_reshape. bind_step. by apply reshape_permute_own. }
  split_and!.
  - by rewrite length_map, length_seq.
  - apply Forall_map, Forall_true. intros p. cbn. split_and!; [|done..].
    split; cbn; [by rewrite length_map, length_seq|].
    apply Forall_map, Forall_true. intros i. cbn.
    by rewrite length_map, length_seq.
  - intros i j r q v He.
    destruct (flat_entry t i j r q v Hw He) as ((Hi & Hj & Hr & Hq) & Hnth).
    assert (r * Conv.dim_w t + q < Conv.dim_h t * Conv.dim_w t)%nat as Hp by nia.
    eexists. split.
    { change (map ?f ?l) with (f <$> l) at 1.
      rewrite list_lookup_fmap, lookup_seq_lt by done. done. }
    unfold entry. cbn [mrows].
    change (map ?f (seq 0 (Conv.dim_b t))) with (f <$> seq 0 (Conv.dim_b t)).
    rewrite list_lookup_fmap, lookup_seq_lt by done. cbn.
    change (map ?f (seq 0 (Conv.dim_c t))) with (f <$> seq 0 (Conv.dim_c t)).
    rewrite list_lookup_fmap, lookup_seq_lt by done. cbn.
    f_equal. rewrite <-Hnth. f_equal. nia.
Qed.

Lemma conv2d_reshape_locations_witness :
  exists ts,
    Conv._conv2d_reshape DistanceExamples.no_pool Examples.t_10x3 None = Ok ts /\
    length ts = (Conv.dim_h Examples.t_10x3 * Conv.dim_w Examples.t_10x3)%nat /\
    Forall (fun m => wf m /\ nrows m = Conv.dim_b Examples.t_10x3 /\
                     ncols m = Conv.dim_c Examples.t_10x3) ts /\
    forall i j r q v,
      entry4 Examples.t_10x3 i j r q = Some v ->
      exists m, ts !! (r * Conv.dim_w Examples.t_10x3 + q)%nat = Some m /\
                entry m i j = Some v.
Proof.
  apply conv2d_reshape_locations.
  - split; [reflexivity|]. cbn. repeat (constructor; try done).
  - cbn. lia.
Defined.

(** *** Aggregation over the locations *)

Lemma mapM_result_Ok {A B} (f : A -> result B) (P : B -> Prop) (l : list A) :
  Forall (fun x => exists y, f x = Ok y /\ P y) l ->
  exists ys, mapM f l = Ok ys /\ length ys = length l /\ Forall P ys.
Proof.
  induction 1 as [|x l (y & Hy & HP) _ (ys & IH & Hlen & HPs)].
  - by exists [].
  - exists (y :: ys). cbn. rewrite Hy. cbn. rewrite IH. cbn.
    split_and!; [done|by rewrite Hlen|by constructor].
Qed.

Lemma mapM_result_Raise {A B} (f : A -> result B) (l1 l2 : list A) x e :
  Forall (fun x => exists y, f x = Ok y) l1 -> f x = Raise e ->
  mapM f (l1 ++ x :: l2) = Raise e.
Proof.
  induction 1 as [|x' l1 (y & Hy) _ IH]; intros Hx; cbn.
  - by rewrite Hx.
  - rewrite Hy. cbn. by rewrite IH.
Qed.

Lemma mapM_result_Forall2 {A B} (f : A -> result B) (l : list A) (ys : list B) :
  Forall2 (fun x y => f x = Ok y) l ys -> mapM f l = Ok ys.
Proof.
  induction 1 as [|x y l ys Hy _ IH]; [done|]. cbn. rewrite Hy. cbn. by rewrite IH.
Qed.

Lemma conv2d_unfold pool t1 t2 f size ts1 ts2 :
  Conv.shape t1 = Conv.shape t2 ->
  Conv._conv2d_reshape pool t1 size = Ok ts1 ->
  Conv._conv2d_reshape pool t2 size = Ok ts2 ->
  Conv._conv2d pool t1 t2 f size
  = (ds ← mapM (fun p => f p.1 p.2) (zip ts1 ts2);
     Ok (fdiv (fsum ds) (of_nat (length ds)))).
Proof.
  intros Hs H1 H2. unfold Conv._conv2d.
  rewrite decide_False by (intros Hne; by apply Hne).
  by rewrite H1, H2.
Qed.

(** X12. [_conv2d] returns the mean of the per-location distances: when
    the distance function returns [d_p] at the pair of matrices of location
    [p], for every location, the result is the float32 sum of the [d_p] over
    their number, one per location that both tensors have. *)
Theorem conv2d_mean_of_locations
    (pool : Conv.tensor4 -> Z -> result Conv.tensor4) (t1 t2 : Conv.tensor4)
    (f : matrix -> matrix -> result fval) (size : option Z)
    (ts1 ts2 : list matrix) (ds : list fval) :
  Conv.shape t1 = Conv.shape t2 ->
  Conv._conv2d_reshape pool t1 size = Ok ts1 ->
  Conv._conv2d_reshape pool t2 size = Ok ts2 ->
  Forall2 (fun p d => f p.1 p.2 = Ok d) (zip ts1 ts2) ds ->
  Conv._conv2d pool t1 t2 f size = Ok (fdiv (fsum ds) (of_nat (length ds))) /\
  length ds = Nat.min (length ts1) (length ts2).
Proof.
  intros Hs H1 H2 Hds.
  rewrite (conv2d_unfold pool t1 t2 f size ts1 ts2 Hs H1 H2).
  rewrite (mapM_result_Forall2 _ _ _ Hds). split; [done|].
  apply Forall2_length in Hds. by rewrite <-Hds, length_zip.
Qed.

Lemma conv2d_mean_of_locations_witness :
  let ds := [fzero; fzero; fzero; fone] in
  Conv._conv2d DistanceExamples.no_pool DistanceExamples.t_a DistanceExamples.t_b
    DistanceExamples.discrete None
  = Ok (fdiv (fsum ds) (of_nat (length ds))) /\
  length ds = 4%nat.
Proof.
  cbn zeta.
  epose proof (conv2d_mean_of_locations DistanceExamples.no_pool DistanceExamples.t_a
                 DistanceExamples.t_b DistanceExamples.discrete None _ _
                 [fzero; fzero; fzero; fone] eq_refl) as H.
  edestruct H as [Hmean Hlen].
  - vm_compute. reflexivity.
  - vm_compute. reflexivity.
  - repeat constructor.
  - split; [exact Hmean | reflexivity].
Defined.

(** On these two feature maps the mean is [1/4]. *)
Example conv2d_mean_quarter :
  Conv._conv2d DistanceExamples.no_pool DistanceExamples.t_a DistanceExamples.t_b
    DistanceExamples.discrete None
  = Ok (Examples.rat 1 4).
Proof. apply (bool_decide_eq_true_1 _). vm_compute. reflexivity. Qed.

Lemma zip_diag {A} (l : list A) :
  length (zip l l) = length l /\ Forall (fun p => p.1 = p.2) (zip l l).
Proof.
  induction l as [|x l [IH1 IH2]]; [by split|].
  cbn. split; [by rewrite IH1|by constructor].
Qed.

Lemma foldl_fadd_zeros l : Forall (fun d => d = fzero) l -> foldl fadd fzero l = fzero.
Proof.
  induction 1 as [|x l -> _ IH]; [done|]. cbn [foldl].
  change (fadd fzero fzero) with (f32 (0 + 0)). by rewrite Qcplus_0_r, f32_0.
Qed.

(** The mean of zeros, at least one, is zero. *)
Lemma mean_zeros l :
  Forall (fun d => d = fzero) l -> (1 <= length l)%nat ->
  fdiv (fsum l) (of_nat (length l)) = fzero.
Proof.
  intros Hl Hn. unfold fsum. rewrite (foldl_fadd_zeros l Hl).
  pose proof (of_nat_ge_one _ Hn) as H1.
  destruct (of_nat (length l)) as [n| | |]; cbn in H1; try done.
  cbn [fdiv fzero].
  assert (0 < n) as Hpos by (by apply Qclt_le_trans with 1).
  rewrite decide_False by (intros ->; by apply (irreflexivity (<) (0 : Qc))).
  assert (0 / n = 0) as -> by (field; intros ->; by apply (irreflexivity (<) (0 : Qc))).
  apply f32_0.
Qed.

Lemma conv2d_self_zero
    (pool : Conv.tensor4 -> Z -> result Conv.tensor4) (t : Conv.tensor4)
    (f : matrix -> matrix -> result fval) (size : option Z) (ts : list matrix) :
  (forall m, f m m = Ok fzero) ->
  Conv._conv2d_reshape pool t size = Ok ts -> (1 <= length ts)%nat ->
  Conv._conv2d pool t t f size = Ok fzero.
Proof.
  intros Hf Hts Hn. destruct (zip_diag ts) as [Hlen Hdiag].
  rewrite (conv2d_unfold pool t t f size ts ts eq_refl Hts Hts).
  rewrite (mapM_result_Forall2 _ _ (replicate (length (zip ts ts)) fzero)).
  - bind_step. f_equal. apply mean_zeros.
    + by apply Forall_replicate.
    + rewrite length_replicate. lia.
  - clear Hlen. induction Hdiag as [|[m1 m2] l Hm _ IH]; [constructor|].
    cbn in Hm. subst m2. cbn [length replicate]. by constructor.
Qed.

(** X13. A feature map against itself: when the distance function returns
    [0] for every matrix against itself, [_conv2d(t, t, ...)] returns [0],
    provided the reshape returns at least one location. *)
Theorem conv2d_identical
    (pool : Conv.tensor4 -> Z -> result Conv.tensor4) (t : Conv.tensor4)
    (f : matrix -> matrix -> result fval) (size : option Z) (ts : list matrix) :
  (forall m, f m m = Ok fzero) ->
  Conv._conv2d_reshape pool t size = Ok ts -> (1 <= length ts)%nat ->
  Conv._conv2d pool t t f size = Ok fzero.
Proof. apply conv2d_self_zero. Qed.

Lemma conv2d_identical_witness :
  Conv._conv2d DistanceExamples.no_pool Examples.t_10x3 Examples.t_10x3 DistanceExamples.discrete None
  = Ok fzero.
Proof.
  eapply (conv2d_identical DistanceExamples.no_pool Examples.t_10x3 DistanceExamples.discrete None).
  - intros m. unfold DistanceExamples.discrete. by rewrite decide_True.
  - vm_compute. reflexivity.
  - cbn. lia.
Defined.

(** X14. [_conv2d] raises a RuntimeError on tensors of different shapes,
    without calling the distance function; it raises the first exception
    that the distance function raises at a location; and with no location
    at all it returns NaN, the mean of nothing. *)
Theorem conv2d_failures
    (pool : Conv.tensor4 -> Z -> result Conv.tensor4) (t1 t2 : Conv.tensor4)
    (f : matrix -> matrix -> result fval) (size : option Z) :
  (Conv.shape t1 <> Conv.shape t2 ->
   Conv._conv2d pool t1 t2 f size = Raise RuntimeError) /\
  (forall ts1 ts2 l1 p l2 e,
     Conv.shape t1 = Conv.shape t2 ->
     Conv._conv2d_reshape pool t1 size = Ok ts1 ->
     Conv._conv2d_reshape pool t2 size = Ok ts2 ->
     zip ts1 ts2 = l1 ++ p :: l2 ->
     Forall (fun p => exists d, f p.1 p.2 = Ok d) l1 ->
     f p.1 p.2 = Raise e ->
     Conv._conv2d pool t1 t2 f size = Raise e) /\
  (forall ts2,
     Conv.shape t1 = Conv.shape t2 ->
     Conv._conv2d_reshape pool t1 size = Ok [] ->
     Conv._conv2d_reshape pool t2 size = Ok ts2 ->
     Conv._conv2d pool t1 t2 f size = Ok NaN).
Proof.
  split_and!.
  - intros Hne. unfold Conv._conv2d. by rewrite decide_True.
  - intros ts1 ts2 l1 p l2 e Hs H1 H2 Hz Hl1 Hp.
    rewrite (conv2d_unfold pool t1 t2 f size ts1 ts2 Hs H1 H2), Hz.
    by rewrite (mapM_result_Raise (fun p => f p.1 p.2) l1 l2 p e Hl1 Hp).
  - intros ts2 Hs H1 H2.
    rewrite (conv2d_unfold pool t1 t2 f size [] ts2 Hs H1 H2).
    apply (bool_decide_eq_true_1 _). by vm_compute.
Qed.

(** ** The hook *)

Section HookProps.

Import Hook.

Context {tensor cca_fn : Type}.
Implicit Types (st : heap tensor) (self : CCAHook cca_fn) (m : module_ref).

Lemma setattr_same st m key value :
  setattr st m key value !!! ref_id m
  = ModuleState (<[key := value]> (m_attrs (st !!! ref_id m)))
                (m_hooks (st !!! ref_id m)).
Proof. unfold setattr. by rewrite lookup_total_insert_eq. Qed.

Lemma setattr_other st m key value (i : nat) :
  i <> ref_id m -> setattr st m key value !!! i = st !!! i.
Proof. intros Hi. unfold setattr. by rewrite lookup_total_insert_ne. Qed.

(** Running the registered hooks: every key in the list is set to the
    output, nothing else on the module changes. *)
Lemma run_hooks_same st m (output : tensor) (keys : list string) :
  let st' := foldl (fun st key => setattr st m key (Some output)) st keys in
  m_hooks (st' !!! ref_id m) = m_hooks (st !!! ref_id m) /\
  forall key,
    m_attrs (st' !!! ref_id m) !! key
    = if decide (key ∈ keys) then Some (Some output)
      else m_attrs (st !!! ref_id m) !! key.
Proof.
  revert st. induction keys as [|k keys IH] using rev_ind; intros st; cbn zeta.
  - split; [done|]. intros key. by rewrite decide_False by apply not_elem_of_nil.
  - rewrite foldl_app. cbn [foldl]. rewrite setattr_same. cbn [m_hooks m_attrs].
    destruct (IH st) as [Hh Ha]. split; [done|]. intros key.
    destruct (decide (key = k)) as [->|Hne].
    + rewrite lookup_insert_eq, decide_True; [done|].
      apply elem_of_app. right. by apply list_elem_of_singleton.
    + rewrite lookup_insert_ne, Ha by done.
      destruct (decide (key ∈ keys)) as [Hin|Hnin].
      * rewrite decide_True; [done|]. apply elem_of_app. by left.
      * rewrite decide_False; [done|].
        rewrite elem_of_app, list_elem_of_singleton. tauto.
Qed.

Lemma run_hooks_other st m (output : tensor) (keys : list string) (i : nat) :
  i <> ref_id m ->
  foldl (fun st key => setattr st m key (Some output)) st keys !!! i = st !!! i.
Proof.
  intros Hi. revert st. induction keys as [|k keys IH]; intros st; [done|].
  cbn [foldl]. by rewrite IH, setattr_other.
Qed.

Lemma slot_holds_step st self s (e : event tensor) :
  slot_holds st self s -> slot_holds (step self st e) self (slot_step self s e).
Proof.
  unfold slot_holds. intros [Hk Ha]. destruct e as [m output|]; cbn [step slot_step].
  - unfold forward. case_decide as Hm.
    + rewrite <-Hm in *.
      destruct (run_hooks_same st m output (m_hooks (st !!! ref_id m))) as [Hh Hs].
      split; [by rewrite Hh|]. by rewrite Hs, decide_True.
    + split; by rewrite run_hooks_other by done.
  - unfold clear. split; rewrite setattr_same; cbn; [done|].
    by rewrite lookup_insert_eq.
Qed.

Lemma slot_holds_run st self s (events : list (event tensor)) :
  slot_holds st self s ->
  slot_holds (run st self events) self (foldl (slot_step self) s events).
Proof.
  revert st s. induction events as [|e events IH]; intros st s Hs; [done|].
  cbn. apply IH. by apply slot_holds_step.
Qed.

Lemma slot_holds_get st self s :
  slot_holds st self s -> _get_hooked_value st self = retrieve s.
Proof.
  intros [_ Ha]. unfold _get_hooked_value, getattr. rewrite Ha. by destruct s.
Qed.

Lemma init_slot_holds (svcca pwcca : cca_fn) st model name arg svd_cpu cuda st' self :
  __init__ svcca pwcca st model name arg svd_cpu cuda = (st', Ok self) ->
  slot_holds st' self Empty.
Proof.
  unfold __init__. destruct (named_dict model !! name) as [m|]; [|done].
  case_bool_decide; [done|].
  set (key := "_" +:+ name +:+ "_hooked_value").
  assert (forall f : cca_fn, slot_holds
            (register_forward_hook (setattr st m key None) m key)
            (MkCCAHook model name m key f (svd_cpu && cuda)) Empty) as Hs.
  { intros f. unfold slot_holds, register_forward_hook. cbn.
    rewrite lookup_total_insert_eq, setattr_same. cbn.
    split; [|by rewrite lookup_insert_eq].
    apply elem_of_app. right. by apply list_elem_of_singleton. }
  destruct arg as [s|f].
  - destruct (_ !! s); intros [= <- <-]; apply Hs.
  - intros [= <- <-]. apply Hs.
Qed.

(** C7. Once [CCAHook(model, name)] has returned, the hooked value can be
    read exactly when the two-state slot of the specification is populated:
    it is empty at attach time, every forward pass through the hooked module
    puts its output there, [clear] empties it, forward passes through other
    modules leave it alone, and reading the empty slot raises. *)
Theorem hooked_value_follows_slot (svcca pwcca : cca_fn) st model name arg
    (svd_cpu cuda : bool) st' self (events : list (event tensor)) :
  __init__ svcca pwcca st model name arg svd_cpu cuda = (st', Ok self) ->
  _get_hooked_value (run st' self events) self
  = retrieve (slot_after self events).
Proof.
  intros Hinit. apply slot_holds_get, slot_holds_run.
  by eapply init_slot_holds.
Qed.

Lemma named_dict_acc (model : nn_model) (d : gmap string module_ref) name :
  foldl (fun d p => <[p.1 := p.2]> d) d model !! name = None
  <-> d !! name = None /\ name ∉ model.*1.
Proof.
  revert d. induction model as [|[n m] model IH]; intros d; cbn [foldl fmap list_fmap].
  - split; [intros ?; split; [done|apply not_elem_of_nil]|by intros [? _]].
  - rewrite IH, not_elem_of_cons. cbn [fst snd].
    destruct (decide (n = name)) as [->|Hne].
    + rewrite lookup_insert_eq. split; [by intros [? _]|by intros (_ & ? & _)].
    + rewrite lookup_insert_ne by done. split; [|tauto].
      intros [? ?]. split_and!; [done|congruence|done].
Qed.

(** The dictionary built from [named_modules()] has exactly the names that
    [named_modules()] yields. *)
Lemma named_dict_None (model : nn_model) name :
  named_dict model !! name = None <-> name ∉ model.*1.
Proof.
  unfold named_dict. rewrite named_dict_acc, lookup_empty. tauto.
Qed.

(** C8. [CCAHook(model, name)] with the default distance: a name that
    [named_modules()] does not yield raises NameError; a module whose class
    is neither [Conv2d] nor [Linear] raises TypeError; in both cases nothing
    is set on the model and no forward pass is involved.  Otherwise the hook
    is returned, bound to the module of that name. *)
Theorem init_outcomes (svcca pwcca : cca_fn) st (model : nn_model)
    (name : string) (svd_cpu cuda : bool) :
  let r := __init__ svcca pwcca st model name
             (default_cca_distance pwcca) svd_cpu cuda in
  (name ∉ model.*1 -> r = (st, Raise NameError)) /\
  (name ∈ model.*1 -> exists m, named_dict model !! name = Some m) /\
  (forall m, named_dict model !! name = Some m ->
     ref_kind m <> Conv2d -> ref_kind m <> Linear -> r = (st, Raise TypeError)) /\
  (forall m, named_dict model !! name = Some m ->
     ref_kind m = Conv2d \/ ref_kind m = Linear ->
     exists self, r.2 = Ok self /\ _module self = m /\
                  _cca_distance _ self = pwcca /\ slot_holds r.1 self Empty).
Proof.
  cbn zeta. split_and!.
  - intros Hn%named_dict_None. unfold __init__. by rewrite Hn.
  - intros Hin. destruct (named_dict model !! name) as [m|] eqn:Hd; [by exists m|].
    by apply named_dict_None in Hd.
  - intros m Hd Hc Hl. unfold __init__. rewrite Hd.
    rewrite bool_decide_eq_true_2; [done|].
    unfold _supported_modules. rewrite !not_elem_of_cons. split_and!; [done..|].
    apply not_elem_of_nil.
  - intros m Hd Hk.
    destruct (__init__ svcca pwcca st model name (default_cca_distance pwcca)
                svd_cpu cuda) as [st' r] eqn:Hinit.
    assert (exists self, r = Ok self /\ _module self = m /\ _cca_distance _ self = pwcca)
      as (self & -> & Hm & Hf).
    { unfold __init__ in Hinit. rewrite Hd in Hinit.
      rewrite bool_decide_eq_false_2 in Hinit.
      - injection Hinit as _ <-. eexists. split_and!; done.
      - intros Hn. apply Hn. unfold _supported_modules.
        destruct Hk as [-> | ->]; [apply list_elem_of_here|].
        apply list_elem_of_further, list_elem_of_here. }
    exists self. split_and!; [done..|]. by eapply init_slot_holds.
Qed.

(** The docstring names the distances ["pwcca_distance"] and
    ["svcca_distance"]; the table of the class knows ["pwcca"] and ["svcca"],
    and the documented spelling raises KeyError, after the hook has been
    registered on the module. *)
Lemma init_documented_name (svcca pwcca : cca_fn) st (model : nn_model)
    (name : string) (svd_cpu cuda : bool) m :
  named_dict model !! name = Some m ->
  ref_kind m = Conv2d \/ ref_kind m = Linear ->
  (__init__ svcca pwcca st model name (ByName "pwcca_distance") svd_cpu cuda).2
  = Raise KeyError.
Proof.
  intros Hd Hk. unfold __init__. rewrite Hd.
  rewrite bool_decide_eq_false_2; [done|].
  intros Hn. apply Hn. unfold _supported_modules.
  destruct Hk as [-> | ->]; [apply list_elem_of_here|].
  apply list_elem_of_further, list_elem_of_here.
Qed.

End HookProps.

Lemma hooked_value_follows_slot_witness :
  let events := [Hook.Forward (Hook.ModuleRef 1 Hook.Conv2d) Examples.x4;
                 Hook.Forward (Hook.ModuleRef 3 Hook.Linear) Examples.xr;
                 Hook.Clear;
                 Hook.Forward (Hook.ModuleRef 3 Hook.Linear) Examples.yr;
                 Hook.Forward (Hook.ModuleRef 3 Hook.Linear) Examples.x4] in
  let st' := (Hook.__init__ Examples.svcca Examples.pwcca ∅ Examples.net "fc"
                (Hook.default_cca_distance Examples.pwcca) false false).1 in
  Hook._get_hooked_value (Hook.run st' Examples.fc_hook events) Examples.fc_hook
  = Hook.retrieve (Hook.slot_after Examples.fc_hook events).
Proof.
  cbn zeta.
  apply (hooked_value_follows_slot Examples.svcca Examples.pwcca ∅ Examples.net
           "fc" (Hook.default_cca_distance Examples.pwcca) false false).
  reflexivity.
Defined.

(** ** More on the hook *)

Section HookMore.

Import Hook.

Context {tensor cca_fn : Type}.
Implicit Types (st : heap tensor) (self a b : CCAHook cca_fn) (m : module_ref).

Lemma init_cases (svcca pwcca : cca_fn) st (model : nn_model) name arg
    (svd_cpu cuda : bool) :
  let r := __init__ svcca pwcca st model name arg svd_cpu cuda in
  (r.1 = st /\ (r.2 = Raise NameError \/ r.2 = Raise TypeError)) \/
  (exists m, named_dict model !! name = Some m /\
             (ref_kind m = Conv2d \/ ref_kind m = Linear) /\
             r.1 = attached st m name /\
             (r.2 = Raise KeyError \/
              exists f, r.2 = Ok (MkCCAHook model name m (hook_key name) f
                                    (svd_cpu && cuda)))).
Proof.
  cbn zeta. unfold __init__.
  destruct (named_dict model !! name) as [m|]; [|left; by split; [|left]].
  case_bool_decide as Hk; [left; by split; [|right]|].
  right. exists m.
  assert (ref_kind m = Conv2d \/ ref_kind m = Linear) as Hkind.
  { unfold _supported_modules in Hk.
    apply elem_of_cons in Hk as [?|Hk]; [by left|].
    apply elem_of_cons in Hk as [?|Hk]; [by right|]. by apply elem_of_nil in Hk. }
  destruct arg as [s|f]; [destruct (_ !! s) as [f|]|]; cbn;
    split_and!; eauto.
Qed.

Lemma attached_lookup st m name (i : nat) :
  attached st m name !!! i
  = if decide (i = ref_id m)
    then ModuleState (<[hook_key name := None]> (m_attrs (st !!! i)))
                     (m_hooks (st !!! i) ++ [hook_key name])
    else st !!! i.
Proof.
  unfold attached, register_forward_hook. case_decide as Hi.
  - subst i. by rewrite lookup_total_insert_eq, setattr_same.
  - by rewrite lookup_total_insert_ne, setattr_other.
Qed.

(** Reading the hooked value looks at the module and the key only. *)
Lemma get_by_key st a b :
  ref_id (_module a) = ref_id (_module b) -> _key a = _key b ->
  _get_hooked_value st a = _get_hooked_value st b.
Proof. intros Hm Hk. unfold _get_hooked_value, getattr. by rewrite Hm, Hk. Qed.

Lemma init_Ok_fields (svcca pwcca : cca_fn) st (model : nn_model) name arg
    (svd_cpu cuda : bool) st' self :
  __init__ svcca pwcca st model name arg svd_cpu cuda = (st', Ok self) ->
  named_dict model !! name = Some (_module self) /\
  _key self = hook_key name /\
  st' = attached st (_module self) name.
Proof.
  intros Hinit.
  destruct (init_cases svcca pwcca st model name arg svd_cpu cuda)
    as [[_ [Hr|Hr]]|(m & Hd & _ & Hst & [Hr|(f & Hr)])];
    rewrite Hinit in *; cbn in *; try done.
  injection Hr as ->. by subst.
Qed.

(** X15. Two hooks attached under the same layer name of a model share one
    slot: they read the same value in every store, [clear] on one empties
    it for the other, a forward pass through the layer fills it for both,
    and attaching the second one empties what the first had captured. *)
Theorem same_name_hooks_share_slot (svcca pwcca : cca_fn) (model : nn_model)
    (name : string) st1 st2 arg1 arg2 (c1 c2 u1 u2 : bool) sta stb a b :
  __init__ svcca pwcca st1 model name arg1 c1 u1 = (sta, Ok a) ->
  __init__ svcca pwcca st2 model name arg2 c2 u2 = (stb, Ok b) ->
  (forall st, _get_hooked_value st a = _get_hooked_value st b) /\
  (forall st, _get_hooked_value (clear st b) a = Raise RuntimeError) /\
  (forall output,
     _get_hooked_value (forward stb (_module b) output) a = Ok output) /\
  _get_hooked_value stb a = Raise RuntimeError.
Proof.
  intros (Hda & Hka & ->)%init_Ok_fields Hb.
  pose proof (init_slot_holds _ _ _ _ _ _ _ _ _ _ Hb) as Hsb.
  apply init_Ok_fields in Hb as (Hdb & Hkb & ->).
  assert (_module a = _module b) as Hm by congruence.
  assert (_key a = _key b) as Hk by congruence.
  assert (forall st, _get_hooked_value st a = _get_hooked_value st b) as Hab
    by (intros st; apply get_by_key; congruence).
  split_and!; [done|..].
  - intros st. rewrite Hab. unfold clear, _get_hooked_value, getattr.
    rewrite setattr_same. cbn. by rewrite lookup_insert_eq.
  - intros output. rewrite Hab.
    apply (slot_holds_step _ b _ (Forward (_module b) output)) in Hsb.
    cbn [step slot_step] in Hsb. rewrite decide_True in Hsb by done.
    by rewrite (slot_holds_get _ _ _ Hsb).
  - rewrite Hab. by rewrite (slot_holds_get _ _ _ Hsb).
Qed.

(** X16. Hooks on different modules do not touch each other: clearing one,
    a forward pass through its module, or attaching it, leaves what the
    other has captured. *)
Theorem other_module_hooks_independent (svcca pwcca : cca_fn) a b :
  ref_id (_module a) <> ref_id (_module b) ->
  (forall st, _get_hooked_value (clear st b) a = _get_hooked_value st a) /\
  (forall st output,
     _get_hooked_value (forward st (_module b) output) a
     = _get_hooked_value st a) /\
  (forall st model name arg (c u : bool) st',
     __init__ svcca pwcca st model name arg c u = (st', Ok b) ->
     _get_hooked_value st' a = _get_hooked_value st a).
Proof.
  intros Hne. split_and!.
  - intros st. unfold clear, _get_hooked_value, getattr.
    by rewrite setattr_other.
  - intros st output. unfold forward, _get_hooked_value, getattr.
    by rewrite run_hooks_other.
  - intros st model name arg c u st' (_ & _ & ->)%init_Ok_fields.
    unfold _get_hooked_value, getattr.
    by rewrite attached_lookup, decide_False.
Qed.

Lemma cca_distance_function_lookup (svcca pwcca : cca_fn) (s : string) :
  @_cca_distance_function cca_fn svcca pwcca !! s
  = if decide (s = "pwcca") then Some pwcca
    else if decide (s = "svcca") then Some svcca else None.
Proof.
  unfold _cca_distance_function.
  destruct (decide (s = "pwcca")) as [->|Hp]; [by rewrite lookup_insert_eq|].
  rewrite lookup_insert_ne by done.
  destruct (decide (s = "svcca")) as [->|Hs]; [by rewrite lookup_insert_eq|].
  by rewrite lookup_insert_ne, lookup_empty.
Qed.

(** X17. A distance given by name: ["svcca"] and ["pwcca"] stand for the two
    functions; any other string raises KeyError, and by then the attribute
    has been set and the forward hook registered on the module, where they
    stay. *)
Theorem init_distance_by_name (svcca pwcca : cca_fn) st (model : nn_model)
    (name : string) (svd_cpu cuda : bool) m (s : string) :
  named_dict model !! name = Some m ->
  ref_kind m = Conv2d \/ ref_kind m = Linear ->
  __init__ svcca pwcca st model name (ByName "svcca") svd_cpu cuda
  = __init__ svcca pwcca st model name (ByFunction svcca) svd_cpu cuda /\
  __init__ svcca pwcca st model name (ByName "pwcca") svd_cpu cuda
  = __init__ svcca pwcca st model name (ByFunction pwcca) svd_cpu cuda /\
  (s <> "svcca" -> s <> "pwcca" ->
   let r := __init__ svcca pwcca st model name (ByName s) svd_cpu cuda in
   r.2 = Raise KeyError /\
   hook_key name ∈ m_hooks (r.1 !!! ref_id m) /\
   m_attrs (r.1 !!! ref_id m) !! hook_key name = Some None).
Proof.
  intros Hd Hk.
  assert (bool_decide (ref_kind m ∉ @_supported_modules) = false) as Hs.
  { apply bool_decide_eq_false_2. intros Hn. apply Hn. unfold _supported_modules.
    destruct Hk as [-> | ->]; [apply list_elem_of_here|].
    apply list_elem_of_further, list_elem_of_here. }
  unfold __init__. rewrite Hd, Hs, !cca_distance_function_lookup.
  split_and!; [done..|]. intros Hsv Hpw. cbn zeta.
  rewrite !decide_False by done. cbn [fst snd].
  fold (hook_key name). fold (attached st m name).
  rewrite attached_lookup, decide_True by done. cbn.
  split_and!; [done| |by rewrite lookup_insert_eq].
  apply elem_of_app. right. by apply list_elem_of_singleton.
Qed.

Lemma named_dict_elem (model : nn_model) (d : gmap string module_ref) name m :
  foldl (fun d p => <[p.1 := p.2]> d) d model !! name = Some m ->
  (name, m) ∈ model \/ d !! name = Some m.
Proof.
  revert d. induction model as [|[n m'] model IH]; intros d; cbn [foldl]; [by right|].
  intros [Hin|Hd]%IH; [left; by apply list_elem_of_further|].
  cbn [fst snd] in Hd. destruct (decide (n = name)) as [->|Hne].
  - rewrite lookup_insert_eq in Hd. injection Hd as ->. left. apply list_elem_of_here.
  - rewrite lookup_insert_ne in Hd by done. by right.
Qed.

Lemma named_dict_unique (model : nn_model) (d : gmap string module_ref) name m :
  NoDup model.*1 -> (name, m) ∈ model ->
  foldl (fun d p => <[p.1 := p.2]> d) d model !! name = Some m.
Proof.
  revert d. induction model as [|[n m'] model IH]; intros d Hnd Hin.
  - by apply elem_of_nil in Hin.
  - cbn [fmap list_fmap fst] in Hnd. apply NoDup_cons in Hnd as [Hn Hnd].
    cbn [foldl fst snd]. apply elem_of_cons in Hin as [[= -> ->]|Hin].
    + destruct (foldl _ (<[n:=m']> d) model !! n) as [m''|] eqn:Hl.
      * apply named_dict_elem in Hl as [Hl|Hl].
        -- destruct Hn. apply list_elem_of_fmap. by exists (n, m'').
        -- by rewrite lookup_insert_eq in Hl.
      * apply named_dict_acc in Hl as [Hl _]. by rewrite lookup_insert_eq in Hl.
    + by apply IH.
Qed.

(** X18. The hook that [CCAHook(model, name)] returns is bound to a module
    that [named_modules()] yields under that name; when the names are
    distinct, every module so named can be hooked or is refused for its
    class, never for its name. *)
Theorem init_binds_named_module (svcca pwcca : cca_fn) st (model : nn_model)
    (name : string) arg (svd_cpu cuda : bool) :
  (forall st' self,
     __init__ svcca pwcca st model name arg svd_cpu cuda = (st', Ok self) ->
     (name, _module self) ∈ model /\ _key self = hook_key name) /\
  (forall m,
     NoDup model.*1 -> (name, m) ∈ model ->
     (__init__ svcca pwcca st model name arg svd_cpu cuda).2 <> Raise NameError /\
     forall st' self,
       __init__ svcca pwcca st model name arg svd_cpu cuda = (st', Ok self) ->
       _module self = m).
Proof.
  split.
  - intros st' self (Hd & Hk & _)%init_Ok_fields. split; [|done].
    apply named_dict_elem in Hd as [?|Hd]; [done|]. by rewrite lookup_empty in Hd.
  - intros m Hnd Hin.
    pose proof (named_dict_unique model ∅ name m Hnd Hin) as Hd.
    fold (named_dict model) in Hd. split.
    + unfold __init__. rewrite Hd. case_bool_decide; [done|].
      destruct arg as [s|f]; [destruct (_ !! s)|]; done.
    + intros st' self (Hd' & _)%init_Ok_fields. congruence.
Qed.

End HookMore.

Lemma same_name_hooks_share_slot_witness :
  let a := Examples.fc_hook in
  let b := Examples.fc_hook_sv in
  let stb := (Hook.__init__ Examples.svcca Examples.pwcca
                (∅ : Hook.heap matrix) Examples.net "fc"
                (Hook.ByName "svcca") false false).1 in
  (forall st : Hook.heap matrix,
     Hook._get_hooked_value st a = Hook._get_hooked_value st b) /\
  (forall st : Hook.heap matrix,
     Hook._get_hooked_value (Hook.clear st b) a = Raise RuntimeError) /\
  (forall output,
     Hook._get_hooked_value (Hook.forward stb (Hook._module b) output) a
     = Ok output) /\
  Hook._get_hooked_value stb a = Raise RuntimeError.
Proof.
  cbn zeta.
  apply (same_name_hooks_share_slot Examples.svcca Examples.pwcca Examples.net
           "fc" ∅ ∅ (Hook.default_cca_distance Examples.pwcca)
           (Hook.ByName "svcca") false false false false
           (Hook.__init__ Examples.svcca Examples.pwcca ∅ Examples.net "fc"
              (Hook.default_cca_distance Examples.pwcca) false false).1).
  - reflexivity.
  - reflexivity.
Defined.

Lemma other_module_hooks_independent_witness :
  let a := Examples.fc_hook in
  let b := Examples.conv_hook in
  (forall st : Hook.heap matrix,
     Hook._get_hooked_value (Hook.clear st b) a = Hook._get_hooked_value st a) /\
  (forall (st : Hook.heap matrix) output,
     Hook._get_hooked_value (Hook.forward st (Hook._module b) output) a
     = Hook._get_hooked_value st a) /\
  (forall (st : Hook.heap matrix) model name arg (c u : bool) st',
     Hook.__init__ Examples.svcca Examples.pwcca st model name arg c u
     = (st', Ok b) ->
     Hook._get_hooked_value st' a = Hook._get_hooked_value st a).
Proof.
  cbn zeta. apply other_module_hooks_independent. cbn. lia.
Defined.

Lemma init_distance_by_name_witness :
  let init arg :=
    Hook.__init__ Examples.svcca Examples.pwcca (∅ : Hook.heap matrix)
      Examples.net "fc" arg false false in
  init (Hook.ByName "svcca") = init (Hook.ByFunction Examples.svcca) /\
  init (Hook.ByName "pwcca") = init (Hook.ByFunction Examples.pwcca) /\
  ("pwcca_distance" <> "svcca" -> "pwcca_distance" <> "pwcca" ->
   let r := init (Hook.ByName "pwcca_distance") in
   r.2 = Raise KeyError /\
   hook_key "fc" ∈ Hook.m_hooks (r.1 !!! 3%nat) /\
   Hook.m_attrs (r.1 !!! 3%nat) !! hook_key "fc" = Some None).
Proof.
  cbn zeta.
  apply (init_distance_by_name Examples.svcca Examples.pwcca ∅ Examples.net "fc"
           false false (Hook.ModuleRef 3 Hook.Linear) "pwcca_distance").
  - reflexivity.
  - by right.
Defined.

(** ** [CCAHook.distance] *)

Section DistanceProps.

Import Hook HookDistance.

Variable pool : Conv.tensor4 -> Z -> result Conv.tensor4.
Implicit Types (st : heap tensor) (self other : CCAHook cca_fn).

Lemma get_clear_self st self :
  _get_hooked_value (clear st self) self = Raise RuntimeError.
Proof.
  unfold clear, _get_hooked_value, getattr. rewrite setattr_same. cbn.
  by rewrite lookup_insert_eq.
Qed.

(** Clearing another hook leaves the value of [self], or empties it when
    the two share their slot. *)
Lemma get_clear_other st self other t1 :
  _get_hooked_value st self = Ok t1 ->
  _get_hooked_value (clear st other) self = Ok t1 \/
  _get_hooked_value (clear st other) self = Raise RuntimeError.
Proof.
  intros Hg. unfold clear, _get_hooked_value, getattr in *.
  destruct (decide (ref_id (_module self) = ref_id (_module other))) as [Hm|Hm].
  - rewrite Hm in *. rewrite setattr_same. cbn.
    destruct (decide (_key other = _key self)) as [->|Hk].
    + right. by rewrite lookup_insert_eq.
    + left. by rewrite lookup_insert_ne.
  - left. by rewrite setattr_other.
Qed.

Lemma get_attached_empty st m name self :
  _get_hooked_value st self = Raise RuntimeError ->
  _get_hooked_value (attached st m name) self = Raise RuntimeError.
Proof.
  unfold _get_hooked_value, getattr. rewrite attached_lookup.
  case_decide as Hi; [|done]. cbn.
  destruct (decide (hook_key name = _key self)) as [->|Hk].
  - by rewrite lookup_insert_eq.
  - by rewrite lookup_insert_ne.
Qed.

Lemma distance_self_empty st self other size :
  _get_hooked_value st self = Raise RuntimeError ->
  distance pool st self other size = Raise RuntimeError.
Proof. intros Hg. unfold distance. by rewrite Hg. Qed.

Lemma distance_other_empty st self other size t1 :
  _get_hooked_value st self = Ok t1 ->
  _get_hooked_value st other = Raise RuntimeError ->
  distance pool st self other size = Raise RuntimeError.
Proof. intros H1 H2. unfold distance. by rewrite H1, H2. Qed.

(** X19. [distance] needs both hooks to have captured: between two freshly
    attached hooks it raises a RuntimeError in either direction, before any
    distance function is called; it raises again once either hook has been
    cleared. *)
Theorem distance_needs_capture (f g : cca_fn) st (model : nn_model)
    (name1 name2 : string) arg1 arg2 (c1 c2 u1 u2 : bool) st1 st2 self other
    (size : option Z) :
  __init__ f g st model name1 arg1 c1 u1 = (st1, Ok self) ->
  __init__ f g st1 model name2 arg2 c2 u2 = (st2, Ok other) ->
  distance pool st2 self other size = Raise RuntimeError /\
  distance pool st2 other self size = Raise RuntimeError /\
  (forall st', distance pool (clear st' self) self other size
               = Raise RuntimeError) /\
  (forall st' t1, _get_hooked_value st' self = Ok t1 ->
                  distance pool (clear st' other) self other size
                  = Raise RuntimeError).
Proof.
  intros H1 H2.
  pose proof (init_slot_holds _ _ _ _ _ _ _ _ _ _ H1) as Hs1.
  pose proof (init_slot_holds _ _ _ _ _ _ _ _ _ _ H2) as Hs2.
  apply slot_holds_get in Hs1, Hs2. cbn in Hs1, Hs2.
  apply init_Ok_fields in H2 as (_ & _ & ->).
  split_and!.
  - by apply distance_self_empty, get_attached_empty.
  - by apply distance_self_empty.
  - intros st'. apply distance_self_empty, get_clear_self.
  - intros st' t1 Hg.
    destruct (get_clear_other st' self other t1 Hg) as [Hg'|Hg'].
    + eapply distance_other_empty; [exact Hg'|apply get_clear_self].
    + by apply distance_self_empty.
Qed.

Lemma slot_holds_attached_other st m name self (s : slot tensor) :
  ref_id m <> ref_id (_module self) ->
  slot_holds st self s -> slot_holds (attached st m name) self s.
Proof.
  intros Hne [Hk Ha]. unfold slot_holds.
  by rewrite attached_lookup, decide_False.
Qed.

(** What the two hooks have captured after a forward pass through each of
    their modules. *)
Lemma captured_after_forward (f g : cca_fn) st (model : nn_model)
    (name1 name2 : string) arg1 arg2 (c1 c2 u1 u2 : bool) st1 st2 self other
    (o1 o2 : tensor) :
  __init__ f g st model name1 arg1 c1 u1 = (st1, Ok self) ->
  __init__ f g st1 model name2 arg2 c2 u2 = (st2, Ok other) ->
  ref_id (_module self) <> ref_id (_module other) ->
  let st3 := forward (forward st2 (_module self) o1) (_module other) o2 in
  _get_hooked_value st3 self = Ok o1 /\ _get_hooked_value st3 other = Ok o2 /\
  (ref_kind (_module self) = Conv2d \/ ref_kind (_module self) = Linear).
Proof.
  intros H1 H2 Hne st3.
  pose proof (init_slot_holds _ _ _ _ _ _ _ _ _ _ H1) as Hs1.
  pose proof (init_slot_holds _ _ _ _ _ _ _ _ _ _ H2) as Hs2.
  destruct (init_cases f g st model name1 arg1 c1 u1)
    as [[_ [Hr|Hr]]|(m & Hd & Hkind & _ & Hr)];
    rewrite H1 in *; cbn in *; try done.
  assert (ref_kind (_module self) = Conv2d \/ ref_kind (_module self) = Linear)
    as Hk.
  { destruct Hr as [Hr|(f' & Hr)]; [done|]. injection Hr as ->. done. }
  apply init_Ok_fields in H2 as (_ & _ & Hst2).
  assert (slot_holds st2 self Empty) as Hs1'.
  { rewrite Hst2. apply slot_holds_attached_other; [congruence|done]. }
  apply (slot_holds_step _ self _ (Forward (_module self) o1)) in Hs1'.
  apply (slot_holds_step _ self _ (Forward (_module other) o2)) in Hs1'.
  apply (slot_holds_step _ other _ (Forward (_module self) o1)) in Hs2.
  apply (slot_holds_step _ other _ (Forward (_module other) o2)) in Hs2.
  cbn [step slot_step] in Hs1', Hs2.
  rewrite (decide_True (P := ref_id (_module self) = ref_id (_module self))) in Hs1'
    by done.
  rewrite (decide_False (P := ref_id (_module other) = ref_id (_module self))) in Hs1'
    by congruence.
  rewrite (decide_False (P := ref_id (_module self) = ref_id (_module other))) in Hs2
    by done.
  rewrite (decide_True (P := ref_id (_module other) = ref_id (_module other))) in Hs2
    by done.
  apply slot_holds_get in Hs1', Hs2. by split_and!.
Qed.

(** X20. After both hooks are attached, on different modules, and a forward
    pass has gone through each, [distance] works on the two captured
    outputs, in the order (self, other), with the distance function of
    [self]: it raises a RuntimeError when their ranks differ, calls the
    function directly for a [Linear] layer and goes through [_conv2d] for a
    [Conv2d] layer; it never returns [None]. *)
Theorem distance_after_forward (f g : cca_fn) st (model : nn_model)
    (name1 name2 : string) arg1 arg2 (c1 c2 u1 u2 : bool) st1 st2 self other
    (o1 o2 : tensor) (size : option Z) :
  __init__ f g st model name1 arg1 c1 u1 = (st1, Ok self) ->
  __init__ f g st1 model name2 arg2 c2 u2 = (st2, Ok other) ->
  ref_id (_module self) <> ref_id (_module other) ->
  let st3 := forward (forward st2 (_module self) o1) (_module other) o2 in
  distance pool st3 self other size
  = if decide (dim o1 <> dim o2) then Raise RuntimeError
    else if decide (ref_kind (_module self) = Linear)
    then d ← _cca_distance _ self o1 o2; Ok (Some d)
    else d ← _conv2d pool o1 o2 (_cca_distance _ self) size; Ok (Some d).
Proof.
  intros H1 H2 Hne st3.
  destruct (captured_after_forward f g st model name1 name2 arg1 arg2
              c1 c2 u1 u2 st1 st2 self other o1 o2 H1 H2 Hne) as (Hg1 & Hg2 & Hk).
  unfold distance, st3. rewrite Hg1, Hg2. bind_step.
  case_decide; [done|].
  destruct Hk as [Hk|Hk]; rewrite Hk.
  - by rewrite decide_False.
  - by rewrite decide_True.
Qed.

(** X21. Two convolutional hooks that have captured the same feature map:
    when the distance function of [self] returns [0] for every matrix
    against itself, [distance] returns [0], provided the reshape of the
    feature map returns at least one location. *)
Theorem distance_same_feature_map (f g : cca_fn) st (model : nn_model)
    (name1 name2 : string) arg1 arg2 (c1 c2 u1 u2 : bool) st1 st2 self other
    (t : Conv.tensor4) (size : option Z) (ts : list matrix) :
  __init__ f g st model name1 arg1 c1 u1 = (st1, Ok self) ->
  __init__ f g st1 model name2 arg2 c2 u2 = (st2, Ok other) ->
  ref_id (_module self) <> ref_id (_module other) ->
  ref_kind (_module self) = Conv2d ->
  (forall m, _cca_distance _ self (T2 m) (T2 m) = Ok fzero) ->
  Conv._conv2d_reshape pool t size = Ok ts -> (1 <= length ts)%nat ->
  distance pool (forward (forward st2 (_module self) (T4 t)) (_module other) (T4 t))
    self other size
  = Ok (Some fzero).
Proof.
  intros H1 H2 Hne Hk Hf Hts Hn.
  destruct (captured_after_forward f g st model name1 name2 arg1 arg2
              c1 c2 u1 u2 st1 st2 self other (T4 t) (T4 t) H1 H2 Hne)
    as (Hg1 & Hg2 & _).
  unfold distance. rewrite Hg1, Hg2. bind_step.
  rewrite decide_False by (intros Hd; by apply Hd). rewrite Hk.
  unfold _conv2d. rewrite decide_False by (intros Hd; by apply Hd).
  by rewrite (conv2d_self_zero pool t _ size ts Hf Hts Hn).
Qed.

End DistanceProps.

Lemma distance_needs_capture_witness :
  let self := DistanceExamples.fc1 in
  let other := DistanceExamples.fc2 in
  let st2 := DistanceExamples.st_fc in
  HookDistance.distance DistanceExamples.no_pool st2 self other None = Raise RuntimeError /\
  HookDistance.distance DistanceExamples.no_pool st2 other self None = Raise RuntimeError /\
  (forall st', HookDistance.distance DistanceExamples.no_pool (Hook.clear st' self) self other None
               = Raise RuntimeError) /\
  (forall st' t1, Hook._get_hooked_value st' self = Ok t1 ->
                  HookDistance.distance DistanceExamples.no_pool (Hook.clear st' other) self other None
                  = Raise RuntimeError).
Proof.
  cbn zeta.
  apply (distance_needs_capture DistanceExamples.no_pool
           DistanceExamples.discrete_t DistanceExamples.discrete_t
           ∅ DistanceExamples.net "fc1" "fc2"
           (Hook.ByFunction DistanceExamples.discrete_t)
           (Hook.ByFunction DistanceExamples.discrete_t) false false false false
           (DistanceExamples.attach ∅ "fc1").1).
  - reflexivity.
  - reflexivity.
Defined.

Lemma distance_after_forward_witness :
  let self := DistanceExamples.fc1 in
  let other := DistanceExamples.fc2 in
  let o1 := HookDistance.T2 Examples.x4 in
  let o2 := HookDistance.T2 Examples.y5 in
  let st3 := Hook.forward (Hook.forward DistanceExamples.st_fc (Hook._module self) o1)
               (Hook._module other) o2 in
  HookDistance.distance DistanceExamples.no_pool st3 self other None
  = if decide (HookDistance.dim o1 <> HookDistance.dim o2) then Raise RuntimeError
    else if decide (Hook.ref_kind (Hook._module self) = Hook.Linear)
    then d ← Hook._cca_distance _ self o1 o2; Ok (Some d)
    else d ← HookDistance._conv2d DistanceExamples.no_pool o1 o2
           (Hook._cca_distance _ self) None;
         Ok (Some d).
Proof.
  cbn zeta.
  apply (distance_after_forward DistanceExamples.no_pool
           DistanceExamples.discrete_t DistanceExamples.discrete_t
           ∅ DistanceExamples.net "fc1" "fc2"
           (Hook.ByFunction DistanceExamples.discrete_t)
           (Hook.ByFunction DistanceExamples.discrete_t) false false false false
           (DistanceExamples.attach ∅ "fc1").1).
  - reflexivity.
  - reflexivity.
  - cbn. lia.
Defined.

Lemma distance_same_feature_map_witness :
  let self := DistanceExamples.conv1 in
  let other := DistanceExamples.conv2 in
  let t := HookDistance.T4 Examples.t_10x3 in
  HookDistance.distance DistanceExamples.no_pool
    (Hook.forward (Hook.forward DistanceExamples.st_conv (Hook._module self) t)
       (Hook._module other) t)
    self other None
  = Ok (Some fzero).
Proof.
  cbn zeta.
  eapply (distance_same_feature_map DistanceExamples.no_pool
           DistanceExamples.discrete_t DistanceExamples.discrete_t
           ∅ DistanceExamples.net "conv1" "conv2"
           (Hook.ByFunction DistanceExamples.discrete_t)
           (Hook.ByFunction DistanceExamples.discrete_t) false false false false
           (DistanceExamples.attach ∅ "conv1").1).
  - reflexivity.
  - reflexivity.
  - cbn. lia.
  - reflexivity.
  - intros m. cbn. unfold DistanceExamples.discrete. by rewrite decide_True.
  - vm_compute. reflexivity.
  - cbn. lia.
Defined.

(** ** More on [svd_reduction] *)

Lemma foldl_fadd64_zeros l :
  Forall (fun d => d = fzero) l -> foldl fadd64 fzero l = fzero.
Proof.
  induction 1 as [|x l -> _ IH]; [done|]. cbn [foldl].
  change (fadd64 fzero fzero) with (f64 (0 + 0)). by rewrite Qcplus_0_r, f64_0.
Qed.

Lemma retained_zero s rate :
  Forall (fun d => d = fzero) s -> retained s rate = 0%nat.
Proof.
  intros Hz. unfold retained.
  assert (Forall (fun d => d = fzero) (vabs s)) as Hza.
  { unfold vabs. apply Forall_map. eapply Forall_impl; [exact Hz|].
    intros d ->. apply fabs_fzero. }
  rewrite filter_none; [done|].
  unfold cumulative_ratio. apply Forall_map, Forall_forall. intros i _.
  unfold prefix_sum, fsum.
  rewrite (foldl_fadd_zeros _ Hza), foldl_fadd64_zeros
    by (by apply Forall_take).
  change (cast32 fzero) with (f32 0). rewrite f32_0. cbn. done.
Qed.

(** X23. When every singular value is zero, as for a zero matrix, every
    cumulative ratio is [0 / 0]: [svd_reduction] keeps no column, whatever
    the rate, and returns a matrix with the samples as rows and no
    column. *)
Theorem svd_reduction_zero (svd : svd_fn) (x : matrix) (accept_rate : fval)
    (u : matrix) (s : list fval) (v : matrix) :
  svd_contract svd -> wf x -> svd x = Ok (u, s, v) ->
  Forall (fun d => d = fzero) s ->
  exists x',
    Cca.svd_reduction svd x accept_rate = Ok x' /\
    nrows x' = nrows x /\ ncols x' = 0%nat.
Proof.
  intros Hc Hw Hsvd Hz.
  destruct (svd_reduction_Ok svd x accept_rate u s v Hc Hw Hsvd)
    as (Hred & _ & Hn & Hk & _).
  eexists. split; [exact Hred|]. split; [exact Hn|].
  by rewrite Hk, retained_zero.
Qed.

Lemma svd_reduction_zero_witness :
  exists x',
    Cca.svd_reduction Examples.svd Examples.zc PInf = Ok x' /\
    nrows x' = nrows Examples.zc /\ ncols x' = 0%nat.
Proof.
  apply (svd_reduction_zero Examples.svd Examples.zc PInf
           Examples.e1col [Examples.int 0] Examples.i1).
  - apply table_svd_contract.
  - split; [reflexivity|repeat constructor].
  - vm_compute. reflexivity.
  - constructor; [|constructor]. unfold Examples.int, Examples.rat, fzero.
    by f_equal.
Defined.

(** ** A matrix against itself *)

(** C5, as stated, fails.  A single-feature matrix is reduced to no column
    and its SVCCA distance with itself is [0 / 0]; a constant column is
    centred to zero, its singular value [0] has reciprocal infinity, and its
    PWCCA distance with itself is NaN. *)
Lemma self_distance_nan :
  valid Examples.xr /\
  Cca.svcca_distance Examples.svd Examples.xr Examples.xr "svd" = Ok NaN /\
  valid Examples.c4 /\
  Cca.pwcca_distance Examples.svd Examples.c4 Examples.c4 "svd" = Ok NaN.
Proof.
  split_and!.
  - split; [split; [reflexivity|repeat constructor]|cbn; lia].
  - vm_compute. reflexivity.
  - split; [split; [reflexivity|repeat constructor]|cbn; lia].
  - vm_compute. reflexivity.
Qed.
